(** * zkPull AVS operator: task coordination and proof verification

    A shallow embedding of the operator bot
    ([operator/operator.constants.js], [operator.repository.js],
    [operator.validator.js], [operator.service.js],
    [operator.controller.js]), with the methods of the bot before it was
    split into these layers ([unnamed/part_001]), and the properties its
    design document states about it.

    Conventions.
    - A JavaScript string is the list of its UTF-16 code units.
    - An [async] method is a program of the free monad [prog]: the
      synchronous operations on the [processingTasks] set, the calls to
      the outside world that are awaited, [throw], and the
      [try]/[catch]/[finally] combinators.  A program is run either
      alone against an oracle for the outside world ([exec]) or as one
      of several interleaved attempts ([pool_run]); control changes hands
      only at an [await], as on the JavaScript event loop.
    - What belongs to the platform and not to this repository
      ([JSON.parse], [String.prototype.toLowerCase], [encodeURIComponent],
      [ethers.utils]) is a variable of the section that embeds the code.
      Console output is not modelled. *)

From Stdlib Require Import String Ascii NArith List Bool Lia DecimalString.
From stdpp Require Import base option list gmap sets.

Local Open Scope N_scope.
Local Open Scope list_scope.
Local Set Warnings "-register-all,-clear-no-such-hyp".

(** ** JavaScript strings *)

Abbreviation jsstring := (list N).

(** Source literals are written with an apostrophe wherever the source
    has a quotation mark (code unit 34). *)
Definition code_of_ascii (a : ascii) : N :=
  if Ascii.eqb a "'"%char then 34 else N_of_ascii a.

Definition js (s : string) : jsstring :=
  map code_of_ascii (list_ascii_of_string s).

(** [s.includes(sub)] *)
Fixpoint starts_with (sub s : jsstring) : bool :=
  match sub, s with
  | [], _ => true
  | _ :: _, [] => false
  | a :: sub', b :: s' => (a =? b) && starts_with sub' s'
  end.

Fixpoint includes (s sub : jsstring) : bool :=
  starts_with sub s ||
  match s with
  | [] => false
  | _ :: s' => includes s' sub
  end.

Definition jsstring_eqb (a b : jsstring) : bool := bool_decide (a = b).

(** [n.toString()] for a non-negative integer *)
Definition toString (n : N) : jsstring :=
  js (DecimalString.NilZero.string_of_uint (N.to_uint n)).

(** ** Regular expressions

    The fragment of ECMAScript regular expressions the operator uses:
    classes of one code unit, concatenation, a greedy or lazy star over a
    class, and capture groups that are not nested.  [run] lists the ways a
    pattern matches at the head of a string in the order in which the
    backtracking matcher tries them, so the match it reports is the first
    of the list. *)

Inductive regex : Type :=
| Eps
| Chr (p : N -> bool)
| Seq (r1 r2 : regex)
| Star (greedy : bool) (p : N -> bool)
| Group (r : regex).

(** a literal code unit, and [[^c]] *)
Definition only (c : N) : N -> bool := N.eqb c.
Definition except (c : N) : N -> bool := fun x => negb (N.eqb c x).

(** [\s]: WhiteSpace and LineTerminator *)
Definition re_s (c : N) : bool :=
  (9 <=? c) && (c <=? 13) || (c =? 32) || (c =? 160) || (c =? 5760)
  || (8192 <=? c) && (c <=? 8202) || (c =? 8232) || (c =? 8233)
  || (c =? 8239) || (c =? 8287) || (c =? 12288) || (c =? 65279).

(** [\d] *)
Definition re_d (c : N) : bool := (48 <=? c) && (c <=? 57).

(** [\w] *)
Definition re_w (c : N) : bool :=
  (97 <=? c) && (c <=? 122) || (65 <=? c) && (c <=? 90) || re_d c || (c =? 95).

(** [.] without the [s] flag: anything but a line terminator *)
Definition re_dot (c : N) : bool :=
  negb ((c =? 10) || (c =? 13) || (c =? 8232) || (c =? 8233)).

Fixpoint Lit (s : jsstring) : regex :=
  match s with
  | [] => Eps
  | c :: s' => Seq (Chr (only c)) (Lit s')
  end.

Definition Plus (p : N -> bool) : regex := Seq (Chr p) (Star true p).

Fixpoint Cat (rs : list regex) : regex :=
  match rs with
  | [] => Eps
  | [r] => r
  | r :: rs' => Seq r (Cat rs')
  end.

(** The remainders left by [p*], shortest consumption first. *)
Fixpoint star_rests (p : N -> bool) (s : jsstring) : list jsstring :=
  s :: match s with
       | c :: s' => if p c then star_rests p s' else []
       | [] => []
       end.

Fixpoint run (r : regex) (s : jsstring) (caps : list jsstring)
  : list (list jsstring * jsstring) :=
  match r with
  | Eps => [(caps, s)]
  | Chr p =>
      match s with
      | c :: s' => if p c then [(caps, s')] else []
      | [] => []
      end
  | Seq r1 r2 =>
      flat_map (fun m => run r2 (snd m) (fst m)) (run r1 s caps)
  | Star greedy p =>
      map (pair caps) (if greedy then rev (star_rests p s) else star_rests p s)
  | Group r' =>
      map (fun m => (fst m ++ [take (length s - length (snd m))%nat s], snd m))
          (run r' s caps)
  end.

(** The result of a successful match: [groups !! 0] is what the source
    writes [m[1]]. *)
Record rmatch := RMatch {
  whole : jsstring;
  groups : list jsstring;
  after : jsstring
}.

Definition match_at (r : regex) (s : jsstring) : option rmatch :=
  match run r s [] with
  | [] => None
  | (caps, rest) :: _ =>
      Some (RMatch (take (length s - length rest)%nat s) caps rest)
  end.

(** The leftmost match. *)
Fixpoint search (r : regex) (s : jsstring) : option rmatch :=
  match match_at r s with
  | Some m => Some m
  | None =>
      match s with
      | [] => None
      | _ :: s' => search r s'
      end
  end.

(** [s.match(r)] for a pattern without the [g] flag *)
Definition String_match (s : jsstring) (r : regex) : option rmatch := search r s.

(** [[...s.matchAll(r)]] for a pattern with the [g] flag: the next search
    starts where the last match ended, one code unit further after an
    empty match. *)
Fixpoint matchAll_fuel (fuel : nat) (r : regex) (s : jsstring) : list rmatch :=
  match fuel with
  | O => []
  | S fuel' =>
      match search r s with
      | None => []
      | Some m =>
          m :: match whole m, after m with
               | [], [] => []
               | [], _ :: rest => matchAll_fuel fuel' r rest
               | _ :: _, rest => matchAll_fuel fuel' r rest
               end
      end
  end.

Definition String_matchAll (s : jsstring) (r : regex) : list rmatch :=
  matchAll_fuel (S (length s)) r s.

(** *** What a pattern matches

    [matches r xs caps caps'] : the pattern [r] matches exactly the text
    [xs], and the groups it closes extend [caps] to [caps'].  [run] is
    related to it in [run_spec]. *)

Inductive matches : regex -> jsstring -> list jsstring -> list jsstring -> Prop :=
| matches_Eps caps :
    matches Eps [] caps caps
| matches_Chr p c caps :
    p c = true -> matches (Chr p) [c] caps caps
| matches_Seq r1 r2 xs ys caps caps1 caps2 :
    matches r1 xs caps caps1 -> matches r2 ys caps1 caps2 ->
    matches (Seq r1 r2) (xs ++ ys) caps caps2
| matches_Star greedy p xs caps :
    Forall (fun c => p c = true) xs -> matches (Star greedy p) xs caps caps
| matches_Group r xs caps caps1 :
    matches r xs caps caps1 -> matches (Group r) xs caps (caps1 ++ [xs]).

(** The three patterns of [_verifyProofData] have one shape: a quoted
    key, a colon between optional white space, and a quoted value that is
    a non-empty run of one class. *)
Definition keyRegex (key : jsstring) (cls : N -> bool) : regex :=
  Cat [Lit (34 :: key ++ [34]); Star true re_s; Lit [58]; Star true re_s;
       Lit [34]; Group (Plus cls); Lit [34]].

Definition field_text (key ws1 ws2 v : jsstring) : jsstring :=
  34 :: key ++ 34 :: ws1 ++ 58 :: ws2 ++ 34 :: v ++ [34].

(** [t] is the text of a field [key] with the quoted value [v]. *)
Definition occurrence (key : jsstring) (cls : N -> bool) (v t : jsstring) : Prop :=
  exists ws1 ws2,
    t = field_text key ws1 ws2 v /\
    Forall (fun c => re_s c = true) ws1 /\
    Forall (fun c => re_s c = true) ws2 /\
    v <> [] /\
    Forall (fun c => cls c = true) v.

(** [s] begins with such a field. *)
Definition occurs_at (key : jsstring) (cls : N -> bool) (v s : jsstring) : Prop :=
  exists t rest, s = t ++ rest /\ occurrence key cls v t.

(** The field of [pre ++ t] that starts first is [t]. *)
Definition first_occurrence (key : jsstring) (cls : N -> bool)
    (v pre t : jsstring) : Prop :=
  occurrence key cls v t /\
  forall pre1 pre2, pre = pre1 ++ pre2 -> pre2 <> [] ->
    forall v', ~ occurs_at key cls v' (pre2 ++ t).

(** the number of quotation marks in a text *)
Definition quotes (s : jsstring) : nat := count_occ N.eq_dec s 34.

Definition quote_free (s : jsstring) : bool := forallb (except 34) s.

(** The value a pattern search extracts from a context. *)
Definition field (s : jsstring) (r : regex) : option jsstring :=
  option_map (fun m => hd [] (groups m)) (search r s).

(** The context [ctx] has a field [key], and the first one has the quoted
    value [v]. *)
Definition has_field (key : jsstring) (cls : N -> bool) (ctx v : jsstring) : Prop :=
  exists pre t rest, ctx = pre ++ t ++ rest /\ first_occurrence key cls v pre t.

(** [s.replace(r, by)] for a pattern with the [g] flag and a replacement
    text without [$] patterns. *)
Fixpoint replace_fuel (fuel : nat) (r : regex) (by_ : jsstring) (s : jsstring)
  : jsstring :=
  match fuel with
  | O => s
  | S fuel' =>
      match match_at r s, s with
      | Some m, _ =>
          match whole m, after m with
          | [], [] => by_
          | [], c :: rest => by_ ++ c :: replace_fuel fuel' r by_ rest
          | _ :: _, rest => by_ ++ replace_fuel fuel' r by_ rest
          end
      | None, [] => []
      | None, c :: rest => c :: replace_fuel fuel' r by_ rest
      end
  end.

Definition String_replace (s : jsstring) (r : regex) (by_ : jsstring) : jsstring :=
  replace_fuel (S (length s)) r by_ s.

(** What replacing every backslash followed by a quotation mark with a
    quotation mark comes to ([String_replace_escaped_quotes]). *)
Fixpoint unescape_quotes (s : jsstring) : jsstring :=
  match s with
  | [] => []
  | c :: s' =>
      match s' with
      | d :: s'' =>
          if (c =? 92) && (d =? 34) then 34 :: unescape_quotes s''
          else c :: unescape_quotes s'
      | [] => [c]
      end
  end.

(** ** JSON values

    What [JSON.parse] and the HTTP client hand to the program.  A number is
    kept as the text [JSON.stringify] prints for it; an object is the list
    of its properties in enumeration order. *)

Inductive json : Type :=
| JNull
| JBool (b : bool)
| JNum (repr : jsstring)
| JStr (s : jsstring)
| JArr (items : list json)
| JObj (props : list (jsstring * json)).

Definition hex_digit (n : N) : N := if n <? 10 then 48 + n else 87 + n.

Definition unicode_escape (c : N) : jsstring :=
  [92; 117; hex_digit (c / 4096 mod 16); hex_digit (c / 256 mod 16);
   hex_digit (c / 16 mod 16); hex_digit (c mod 16)].

Definition is_high_surrogate (c : N) : bool := (55296 <=? c) && (c <=? 56319).
Definition is_low_surrogate (c : N) : bool := (56320 <=? c) && (c <=? 57343).

(** QuoteJSONString, between the quotation marks *)
Fixpoint quote_body (s : jsstring) : jsstring :=
  match s with
  | [] => []
  | c :: s' =>
      if c =? 8 then 92 :: 98 :: quote_body s'
      else if c =? 9 then 92 :: 116 :: quote_body s'
      else if c =? 10 then 92 :: 110 :: quote_body s'
      else if c =? 12 then 92 :: 102 :: quote_body s'
      else if c =? 13 then 92 :: 114 :: quote_body s'
      else if c =? 34 then 92 :: 34 :: quote_body s'
      else if c =? 92 then 92 :: 92 :: quote_body s'
      else if c <? 32 then unicode_escape c ++ quote_body s'
      else if is_high_surrogate c then
        match s' with
        | d :: s'' =>
            if is_low_surrogate d then c :: d :: quote_body s''
            else unicode_escape c ++ quote_body s'
        | [] => unicode_escape c
        end
      else if is_low_surrogate c then unicode_escape c ++ quote_body s'
      else c :: quote_body s'
  end.

Definition QuoteJSONString (s : jsstring) : jsstring := 34 :: quote_body s ++ [34].

Fixpoint join_comma (parts : list jsstring) : jsstring :=
  match parts with
  | [] => []
  | [p] => p
  | p :: rest => p ++ 44 :: join_comma rest
  end.

(** [JSON.stringify(v)] without replacer or indentation *)
Fixpoint JSON_stringify (v : json) : jsstring :=
  match v with
  | JNull => js "null"
  | JBool true => js "true"
  | JBool false => js "false"
  | JNum repr => repr
  | JStr s => QuoteJSONString s
  | JArr items => 91 :: join_comma (map JSON_stringify items) ++ [93]
  | JObj props =>
      123 :: join_comma
               (map (fun kv => QuoteJSONString (fst kv) ++ 58 :: JSON_stringify (snd kv))
                    props) ++ [125]
  end.

(** [v[k]] for a property name [k] that no array or string owns *)
Fixpoint assoc (k : jsstring) (props : list (jsstring * json)) : option json :=
  match props with
  | [] => None
  | (k', v) :: rest => if jsstring_eqb k k' then Some v else assoc k rest
  end.

Definition get_prop (v : json) (k : jsstring) : option json :=
  match v with
  | JObj props => assoc k props
  | _ => None
  end.

(** ToBoolean; [None] is [undefined] *)
Definition truthy (v : option json) : bool :=
  match v with
  | None | Some JNull => false
  | Some (JBool b) => b
  | Some (JNum repr) => negb (jsstring_eqb repr (js "0"))
  | Some (JStr s) => negb (jsstring_eqb s [])
  | Some (JArr _) | Some (JObj _) => true
  end.

(** ** A reference [JSON.parse]

    The embedding below takes [JSON.parse] as a parameter.  [JSON_parse_ref]
    is the instance used to run it on concrete payloads: the JSON grammar
    of ECMA-404, with the property order of ECMAScript objects.  Turning a
    number literal into a double and printing it back is floating-point
    arithmetic and is not modelled: the instance keeps the literal, which
    is what the engine prints for the plain integers of the examples. *)

Definition json_ws (c : N) : bool :=
  (c =? 32) || (c =? 9) || (c =? 10) || (c =? 13).

Fixpoint skip_ws (s : jsstring) : jsstring :=
  match s with
  | c :: s' => if json_ws c then skip_ws s' else s
  | [] => []
  end.

Fixpoint span (p : N -> bool) (s : jsstring) : jsstring * jsstring :=
  match s with
  | c :: s' => if p c then let (a, b) := span p s' in (c :: a, b) else ([], s)
  | [] => ([], [])
  end.

Definition hex_value (c : N) : option N :=
  if re_d c then Some (c - 48)
  else if (97 <=? c) && (c <=? 102) then Some (c - 87)
  else if (65 <=? c) && (c <=? 70) then Some (c - 55)
  else None.

Definition simple_escape (c : N) : option N :=
  if c =? 34 then Some 34 else if c =? 92 then Some 92
  else if c =? 47 then Some 47 else if c =? 98 then Some 8
  else if c =? 102 then Some 12 else if c =? 110 then Some 10
  else if c =? 114 then Some 13 else if c =? 116 then Some 9
  else None.

(** after the opening quotation mark: the text and what follows the
    closing one *)
Fixpoint parse_string_body (s : jsstring) : option (jsstring * jsstring) :=
  match s with
  | [] => None
  | c :: s' =>
      if c =? 34 then Some ([], s')
      else if c <? 32 then None
      else if c =? 92 then
        match s' with
        | [] => None
        | e :: s'' =>
            if e =? 117 then
              match s'' with
              | h1 :: h2 :: h3 :: h4 :: s3 =>
                  match hex_value h1, hex_value h2, hex_value h3, hex_value h4,
                        parse_string_body s3 with
                  | Some a, Some b, Some c', Some d, Some (t, rest) =>
                      Some (a * 4096 + b * 256 + c' * 16 + d :: t, rest)
                  | _, _, _, _, _ => None
                  end
              | _ => None
              end
            else
              match simple_escape e, parse_string_body s'' with
              | Some x, Some (t, rest) => Some (x :: t, rest)
              | _, _ => None
              end
        end
      else
        match parse_string_body s' with
        | Some (t, rest) => Some (c :: t, rest)
        | None => None
        end
  end.

Definition parse_digits1 (s : jsstring) : option (jsstring * jsstring) :=
  match span re_d s with
  | ([], _) => None
  | (ds, rest) => Some (ds, rest)
  end.

Definition parse_number (s : jsstring) : option (jsstring * jsstring) :=
  let (sign, s1) := match s with
                    | c :: s' => if c =? 45 then ([45], s') else ([], s)
                    | [] => ([], s)
                    end in
  match s1 with
  | [] => None
  | c :: s2 =>
      let int_part :=
        if c =? 48 then Some ([48], s2)
        else if re_d c then let (ds, rest) := span re_d s2 in Some (c :: ds, rest)
        else None in
      match int_part with
      | None => None
      | Some (ip, s3) =>
          let frac :=
            match s3 with
            | d :: s4 =>
                if d =? 46 then
                  match parse_digits1 s4 with
                  | Some (ds, rest) => Some (46 :: ds, rest)
                  | None => None
                  end
                else Some ([], s3)
            | [] => Some ([], s3)
            end in
          match frac with
          | None => None
          | Some (fp, s5) =>
              let exp :=
                match s5 with
                | e :: s6 =>
                    if (e =? 101) || (e =? 69) then
                      let (es, s7) := match s6 with
                                      | g :: s6' =>
                                          if (g =? 43) || (g =? 45) then ([g], s6')
                                          else ([], s6)
                                      | [] => ([], s6)
                                      end in
                      match parse_digits1 s7 with
                      | Some (ds, rest) => Some (e :: es ++ ds, rest)
                      | None => None
                      end
                    else Some ([], s5)
                | [] => Some ([], s5)
                end in
              match exp with
              | None => None
              | Some (ep, rest) =>
                  let literal := sign ++ ip ++ fp ++ ep in
                  Some (if jsstring_eqb literal (js "-0") then js "0" else literal, rest)
              end
          end
      end
  end.

Definition decimal_value (ds : jsstring) : N :=
  fold_left (fun acc d => acc * 10 + (d - 48)) ds 0.

(** an integer index: such property names are enumerated first, in
    ascending order *)
Definition array_index (k : jsstring) : option N :=
  match k with
  | [] => None
  | c :: rest =>
      if forallb re_d k && ((c =? 48) && jsstring_eqb rest [] || negb (c =? 48))
         && (decimal_value k <? 4294967295)
      then Some (decimal_value k) else None
  end.

Fixpoint replace_prop (k : jsstring) (v : json) (props : list (jsstring * json))
  : list (jsstring * json) :=
  match props with
  | [] => []
  | (k', v') :: rest =>
      if jsstring_eqb k k' then (k', v) :: rest else (k', v') :: replace_prop k v rest
  end.

Fixpoint insert_index (i : N) (k : jsstring) (v : json) (props : list (jsstring * json))
  : list (jsstring * json) :=
  match props with
  | [] => [(k, v)]
  | (k', v') :: rest =>
      match array_index k' with
      | Some j => if j <? i then (k', v') :: insert_index i k v rest
                  else (k, v) :: props
      | None => (k, v) :: props
      end
  end.

Definition obj_set (k : jsstring) (v : json) (props : list (jsstring * json))
  : list (jsstring * json) :=
  match assoc k props with
  | Some _ => replace_prop k v props
  | None =>
      match array_index k with
      | Some i => insert_index i k v props
      | None => props ++ [(k, v)]
      end
  end.

Definition expect (c : N) (s : jsstring) : option jsstring :=
  match skip_ws s with
  | d :: rest => if c =? d then Some rest else None
  | [] => None
  end.

Fixpoint parse_value (fuel : nat) (s : jsstring) : option (json * jsstring) :=
  match fuel with
  | O => None
  | S fuel' =>
      match skip_ws s with
      | [] => None
      | c :: s' =>
          if c =? 123 then
            match expect 125 s' with
            | Some rest => Some (JObj [], rest)
            | None => parse_members fuel' s' []
            end
          else if c =? 91 then
            match expect 93 s' with
            | Some rest => Some (JArr [], rest)
            | None => parse_items fuel' s' []
            end
          else if c =? 34 then
            match parse_string_body s' with
            | Some (t, rest) => Some (JStr t, rest)
            | None => None
            end
          else if starts_with (js "true") (c :: s') then Some (JBool true, drop 4 (c :: s'))
          else if starts_with (js "false") (c :: s') then Some (JBool false, drop 5 (c :: s'))
          else if starts_with (js "null") (c :: s') then Some (JNull, drop 4 (c :: s'))
          else
            match parse_number (c :: s') with
            | Some (repr, rest) => Some (JNum repr, rest)
            | None => None
            end
      end
  end
with parse_members (fuel : nat) (s : jsstring) (acc : list (jsstring * json))
  : option (json * jsstring) :=
  match fuel with
  | O => None
  | S fuel' =>
      match expect 34 s with
      | None => None
      | Some s1 =>
          match parse_string_body s1 with
          | None => None
          | Some (k, s2) =>
              match expect 58 s2 with
              | None => None
              | Some s3 =>
                  match parse_value fuel' s3 with
                  | None => None
                  | Some (v, s4) =>
                      match expect 44 s4, expect 125 s4 with
                      | Some s5, _ => parse_members fuel' s5 (obj_set k v acc)
                      | None, Some rest => Some (JObj (obj_set k v acc), rest)
                      | None, None => None
                      end
                  end
              end
          end
      end
  end
with parse_items (fuel : nat) (s : jsstring) (acc : list json)
  : option (json * jsstring) :=
  match fuel with
  | O => None
  | S fuel' =>
      match parse_value fuel' s with
      | None => None
      | Some (v, s1) =>
          match expect 44 s1, expect 93 s1 with
          | Some s2, _ => parse_items fuel' s2 (acc ++ [v])
          | None, Some rest => Some (JArr (acc ++ [v]), rest)
          | None, None => None
          end
      end
  end.

(** [None] stands for the [SyntaxError] *)
Definition JSON_parse_ref (text : jsstring) : option json :=
  match parse_value (2 * length text + 2) text with
  | Some (v, rest) => if jsstring_eqb (skip_ws rest) [] then Some v else None
  | None => None
  end.

(** ** Errors, oracle records and calls *)

(** An [Error] is represented by its [message]. *)
Abbreviation error := (list N).

(** How a call that may throw, or a promise, ends. *)
Inductive result (A : Type) : Type :=
| Val (a : A)
| Exn (e : error).
Arguments Val {A} a.
Arguments Exn {A} e.

(** The tuple [getTask] returns (AVS_ABI). *)
Module Task.
Record t : Type := Build {
  taskId : N;
  issueId : N;
  claimIndex : N;
  prLink : jsstring;
  developer : jsstring;
  createdAt : N;
  status : N;
  assignedOperator : jsstring;
  zkProof : jsstring
}.
End Task.

(** The unnamed tuple [claims] returns (ISSUES_CLAIM_ABI), by position. *)
Module Claim.
Record t : Type := Build {
  _0 : jsstring;
  _1 : bool;
  _2 : jsstring;
  _3 : bool;
  _4 : N;
  _5 : jsstring
}.
End Claim.

Record Receipt : Type := { transactionHash : jsstring }.

Record HttpResponse : Type := { http_status : N; data : json }.

(** The calls whose promise the program awaits: the methods of the
    repository, the HTTP client and the timer. *)
Inductive call : Type :=
| getOperatorTasks (operatorAddress : jsstring)
| getTask (taskId : N)
| pickTask (taskId : N)
| submitValidation (taskId : N) (isValid : bool) (zkProof : jsstring)
| getClaim (issueId claimIndex : N)
| axios_get (url : jsstring) (headers : list (jsstring * jsstring)) (timeout : option N)
| setTimeout (ms : N).

Definition response (c : call) : Type :=
  match c with
  | getOperatorTasks _ => list N
  | getTask _ => Task.t
  | pickTask _ => Receipt
  | submitValidation _ _ _ => Receipt
  | getClaim _ _ => Claim.t
  | axios_get _ _ _ => HttpResponse
  | setTimeout _ => unit
  end.

(** ** Asynchronous programs *)

Inductive prog (A : Type) : Type :=
| Ret (a : A)
| Throw (e : error)
| Has (k : jsstring) (cont : bool -> prog A)
| Add (k : jsstring) (cont : prog A)
| Delete (k : jsstring) (cont : prog A)
| DateNow (cont : N -> prog A)
| Await (c : call) (cont : result (response c) -> prog A).
Arguments Ret {A} a.
Arguments Throw {A} e.
Arguments Has {A} k cont.
Arguments Add {A} k cont.
Arguments Delete {A} k cont.
Arguments DateNow {A} cont.
Arguments Await {A} c cont.

Fixpoint bind {A B : Type} (p : prog A) (f : A -> prog B) : prog B :=
  match p with
  | Ret a => f a
  | Throw e => Throw e
  | Has k cont => Has k (fun b => bind (cont b) f)
  | Add k cont => Add k (bind cont f)
  | Delete k cont => Delete k (bind cont f)
  | DateNow cont => DateNow (fun t => bind (cont t) f)
  | Await c cont => Await c (fun r => bind (cont r) f)
  end.

Notation "'let*' x ':=' p 'in' q" := (bind p (fun x => q))
  (at level 10, x pattern, p at level 100, q at level 200).

(** [try { p } catch (error) { h error }] *)
Fixpoint try_catch {A : Type} (p : prog A) (h : error -> prog A) : prog A :=
  match p with
  | Ret a => Ret a
  | Throw e => h e
  | Has k cont => Has k (fun b => try_catch (cont b) h)
  | Add k cont => Add k (try_catch cont h)
  | Delete k cont => Delete k (try_catch cont h)
  | DateNow cont => DateNow (fun t => try_catch (cont t) h)
  | Await c cont => Await c (fun r => try_catch (cont r) h)
  end.

(** [try { p } finally { f }] *)
Fixpoint try_finally {A : Type} (p : prog A) (f : prog unit) : prog A :=
  match p with
  | Ret a => let* _ := f in Ret a
  | Throw e => let* _ := f in Throw e
  | Has k cont => Has k (fun b => try_finally (cont b) f)
  | Add k cont => Add k (try_finally cont f)
  | Delete k cont => Delete k (try_finally cont f)
  | DateNow cont => DateNow (fun t => try_finally (cont t) f)
  | Await c cont => Await c (fun r => try_finally (cont r) f)
  end.

(** [await c]: a rejected promise throws at the [await] *)
Definition await (c : call) : prog (response c) :=
  Await c (fun r => match r with Val a => Ret a | Exn e => Throw e end).

(** a synchronous call that may throw *)
Definition lift {A : Type} (r : result A) : prog A :=
  match r with
  | Val a => Ret a
  | Exn e => Throw e
  end.

(** ** operator.constants.js *)

Module TASK_STATUS.
Definition PENDING : N := 0.
Definition ASSIGNED : N := 1.
Definition VALIDATED : N := 2.
End TASK_STATUS.

Module TIMEOUTS.
Definition TASK_DETAILS : N := 10000.
Definition ZKTLS_API : N := 120000.
Definition AUTO_ASSIGNMENT_WAIT : N := 3000.
End TIMEOUTS.

Module GAS_LIMITS.
Definition PICK_TASK : N := 500000.
End GAS_LIMITS.

Module ERROR_CODES.
Definition TASK_ALREADY_ASSIGNED : list jsstring :=
  [js "TaskAlreadyAssigned"; js "0x48780f5a"; js "0x27e1f1e5"].
End ERROR_CODES.

(** The message [e] contains one of the known conflict signatures. *)
Definition conflict_signature (e : error) : Prop :=
  exists code pre post,
    In code ERROR_CODES.TASK_ALREADY_ASSIGNED /\ e = pre ++ code ++ post.

(** ** operator.validator.js

    The patterns are quoted with the convention of [js]: an apostrophe
    stands for the quotation mark of the source. *)

(** [/github\.com\/([^\/]+)\/([^\/]+)\/pull\/(\d+)/] *)
Definition prLinkRegex : regex :=
  Cat [Lit (js "github.com/"); Group (Plus (except 47)); Lit (js "/");
       Group (Plus (except 47)); Lit (js "/pull/"); Group (Plus re_d)].

(** [/'context':\s*'({.*?})'/g] *)
Definition contextRegex : regex :=
  Cat [Lit (js "'context':"); Star true re_s; Lit (js "'");
       Group (Cat [Lit (js "{"); Star false re_dot; Lit (js "}")]); Lit (js "'")].

(** [/'merged'\s*:\s*'(\w+)'/] *)
Definition mergedRegex : regex :=
  Cat [Lit (js "'merged'"); Star true re_s; Lit (js ":"); Star true re_s;
       Lit (js "'"); Group (Plus re_w); Lit (js "'")].

(** [/'login'\s*:\s*'([^']+)'/] *)
Definition loginRegex : regex :=
  Cat [Lit (js "'login'"); Star true re_s; Lit (js ":"); Star true re_s;
       Lit (js "'"); Group (Plus (except 34)); Lit (js "'")].

(** [/'id'\s*:\s*'(\d+)'/] *)
Definition idRegex : regex :=
  Cat [Lit (js "'id'"); Star true re_s; Lit (js ":"); Star true re_s;
       Lit (js "'"); Group (Plus re_d); Lit (js "'")].

(** [/\\'/g] *)
Definition escapedQuoteRegex : regex := Lit (js "\'").

(** [m[1]] of a match whose first group took part in it *)
Definition group1 (m : rmatch) : jsstring := hd [] (groups m).

(** What [_verifyProofData] returns. *)
Module Verification.
Record t : Type := Build {
  isMerged : bool;
  isValidUser : bool;
  isValidId : bool;
  githubUsername : jsstring;
  githubUserId : jsstring;
  userLogin : jsstring;
  userId : jsstring;
  isValid : bool
}.
End Verification.

Module Metadata.
Record t : Type := Build {
  isMerged : bool;
  isValidUser : bool;
  isValidId : bool;
  githubUsername : jsstring;
  githubUserId : jsstring
}.
End Metadata.

(** What [verifyPR] and [fallbackVerification] return; the latter has no
    [metadata]. *)
Module Verdict.
Record t : Type := Build {
  isValid : bool;
  zkProof : jsstring;
  metadata : option Metadata.t
}.
End Verdict.

(** Verify proof data using regex matching *)
Definition _verifyProofData (prProofString userProofString : jsstring)
  : Verification.t :=
  let prMergedMatch := String_match prProofString mergedRegex in
  let prLoginMatch := String_match prProofString loginRegex in
  let prIdMatch := String_match prProofString idRegex in
  let userLoginMatch := String_match userProofString loginRegex in
  let userIdMatch := String_match userProofString idRegex in
  let isMerged :=
    match prMergedMatch with
    | Some m => jsstring_eqb (group1 m) (js "true")
    | None => false
    end in
  let isValidUser :=
    match prLoginMatch, userLoginMatch with
    | Some p, Some u => jsstring_eqb (group1 p) (group1 u)
    | _, _ => false
    end in
  let isValidId :=
    match prIdMatch, userIdMatch with
    | Some p, Some u => jsstring_eqb (group1 p) (group1 u)
    | _, _ => false
    end in
  let unknown_or (m : option rmatch) :=
    match m with
    | Some x => group1 x
    | None => js "unknown"
    end in
  {| Verification.isMerged := isMerged;
     Verification.isValidUser := isValidUser;
     Verification.isValidId := isValidId;
     Verification.githubUsername := unknown_or prLoginMatch;
     Verification.githubUserId := unknown_or prIdMatch;
     Verification.userLogin := unknown_or userLoginMatch;
     Verification.userId := unknown_or userIdMatch;
     Verification.isValid := isMerged && isValidUser && isValidId |}.

(** Validate GitHub PR link format *)
Definition _validatePRLink (prLink : jsstring) : result rmatch :=
  match String_match prLink prLinkRegex with
  | None => Exn (js "Invalid GitHub PR link")
  | Some m => Val m
  end.

(** [p] neither reads nor writes [processingTasks]. *)
Inductive leaves_guard_alone {A : Type} : prog A -> Prop :=
| alone_Ret a : leaves_guard_alone (Ret a)
| alone_Throw e : leaves_guard_alone (Throw e)
| alone_DateNow cont :
    (forall t, leaves_guard_alone (cont t)) -> leaves_guard_alone (DateNow cont)
| alone_Await c cont :
    (forall r, leaves_guard_alone (cont r)) -> leaves_guard_alone (Await c cont).

(** However the awaited calls settle, [p] ends, returning or throwing, by
    deleting [k] from [processingTasks], and does nothing else to the
    set. *)
Inductive releases (k : jsstring) : prog unit -> Prop :=
| releases_return : releases k (Delete k (Ret tt))
| releases_throw e : releases k (Delete k (Throw e))
| releases_DateNow cont :
    (forall t, releases k (cont t)) -> releases k (DateNow cont)
| releases_Await c cont :
    (forall r, releases k (cont r)) -> releases k (Await c cont).

(** [p] is over. *)
Definition finished (p : prog unit) : Prop :=
  p = Ret tt \/ exists e, p = Throw e.

(** [n] calls of [p], one after the other *)
Fixpoint times {A : Type} (n : nat) (p : prog A) : prog unit :=
  match n with
  | O => Ret tt
  | S n' => let* _ := p in times n' p
  end.

(** ** Running programs

    The outside world is a state [World] with an [oracle] that settles
    each awaited call and a [clock] for [Date.now()].  Nothing is assumed
    about them. *)

Section Semantics.

Variable World : Type.
Variable oracle : forall c : call, World -> result (response c) * World.
Variable clock : World -> N * World.

(** The outcome of a run: how it ended, the [processingTasks] set, the
    world, and the calls awaited, in order. *)
Record outcome (A : Type) : Type := Outcome {
  ended : result A;
  tasks_after : gset jsstring;
  world_after : World;
  calls : list call
}.
Arguments Outcome {A} ended tasks_after world_after calls.
Arguments ended {A} o.
Arguments tasks_after {A} o.
Arguments world_after {A} o.
Arguments calls {A} o.

(** One program run from start to end, nothing else interleaved. *)
Fixpoint exec {A : Type} (p : prog A) (processingTasks : gset jsstring) (w : World)
  : outcome A :=
  match p with
  | Ret a => Outcome (Val a) processingTasks w []
  | Throw e => Outcome (Exn e) processingTasks w []
  | Has k cont => exec (cont (bool_decide (k ∈ processingTasks))) processingTasks w
  | Add k cont => exec cont ({[k]} ∪ processingTasks) w
  | Delete k cont => exec cont (processingTasks ∖ {[k]}) w
  | DateNow cont => let (t, w') := clock w in exec (cont t) processingTasks w'
  | Await c cont =>
      let (r, w') := oracle c w in
      let o := exec (cont r) processingTasks w' in
      Outcome (ended o) (tasks_after o) (world_after o) (c :: calls o)
  end.

(** How the runs of the parts make the run of a whole. *)
Definition after_calls {A : Type} (cs : list call) (o : outcome A) : outcome A :=
  Outcome (ended o) (tasks_after o) (world_after o) (cs ++ calls o).

Definition and_then {A B : Type} (o : outcome A)
    (k : A -> gset jsstring -> World -> outcome B) : outcome B :=
  match ended o with
  | Val a => after_calls (calls o) (k a (tasks_after o) (world_after o))
  | Exn e => Outcome (Exn e) (tasks_after o) (world_after o) (calls o)
  end.

Definition or_catch {A : Type} (o : outcome A)
    (h : error -> gset jsstring -> World -> outcome A) : outcome A :=
  match ended o with
  | Val a => o
  | Exn e => after_calls (calls o) (h e (tasks_after o) (world_after o))
  end.

Definition and_finally {A : Type} (o : outcome A)
    (f : gset jsstring -> World -> outcome unit) : outcome A :=
  let o' := f (tasks_after o) (world_after o) in
  match ended o' with
  | Val _ => Outcome (ended o) (tasks_after o') (world_after o') (calls o ++ calls o')
  | Exn e => Outcome (Exn e) (tasks_after o') (world_after o') (calls o ++ calls o')
  end.

(** The synchronous stretch of a program, up to its next [await] or its
    end. *)
Fixpoint run_sync {A : Type} (p : prog A) (processingTasks : gset jsstring) (w : World)
  : prog A * gset jsstring * World :=
  match p with
  | Has k cont => run_sync (cont (bool_decide (k ∈ processingTasks))) processingTasks w
  | Add k cont => run_sync cont ({[k]} ∪ processingTasks) w
  | Delete k cont => run_sync cont (processingTasks ∖ {[k]}) w
  | DateNow cont => let (t, w') := clock w in run_sync (cont t) processingTasks w'
  | Ret _ | Throw _ | Await _ _ => (p, processingTasks, w)
  end.

(** Several attempts sharing one [processingTasks] set.  Each attempt is
    the task id it was called with and what is left of its program: an
    [Await] while it is suspended, [Ret] or [Throw] once it is over. *)
Record pool : Type := Pool {
  guard : gset jsstring;
  attempts : list (N * prog unit);
  pool_world : World;
  awaited : list (nat * call)
}.

Inductive event : Type :=
| Call (taskId : N)
| Settle (i : nat).

Definition suspended {A : Type} (p : prog A) : bool :=
  match p with
  | Await _ _ => true
  | _ => false
  end.

Section Pool.

(** the method every attempt runs *)
Variable method : N -> prog unit.

Definition pool_step (st : pool) (ev : event) : pool :=
  match ev with
  | Call taskId =>
      let '(p, g, w) := run_sync (method taskId) (guard st) (pool_world st) in
      Pool g (attempts st ++ [(taskId, p)]) w (awaited st)
  | Settle i =>
      match attempts st !! i with
      | Some (taskId, Await c cont) =>
          let (r, w1) := oracle c (pool_world st) in
          let '(p, g, w2) := run_sync (cont r) (guard st) w1 in
          Pool g (<[i := (taskId, p)]> (attempts st)) w2 (awaited st ++ [(i, c)])
      | _ => st
      end
  end.

Definition pool_run (st : pool) (evs : list event) : pool :=
  fold_left pool_step evs st.

Definition pool_init (w : World) : pool := Pool ∅ [] w [].

End Pool.

End Semantics.

Arguments Outcome {World A} ended tasks_after world_after calls.
Arguments ended {World A} o.
Arguments tasks_after {World A} o.
Arguments world_after {World A} o.
Arguments calls {World A} o.
Arguments exec {World} oracle clock {A} p processingTasks w.
Arguments run_sync {World} clock {A} p processingTasks w.
Arguments Pool {World} guard attempts pool_world awaited.
Arguments guard {World} p.
Arguments attempts {World} p.
Arguments pool_world {World} p.
Arguments awaited {World} p.
Arguments pool_step {World} oracle clock method st ev.
Arguments pool_run {World} oracle clock method st evs.
Arguments pool_init {World} w.
Arguments after_calls {World A} cs o.
Arguments and_then {World A B} o k.
Arguments or_catch {World A} o h.
Arguments and_finally {World A} o f.

(** The attempt [i] of the pool is suspended at an [await], with the key
    [k]. *)
Definition in_flight {World : Type} (st : pool World) (i : nat) (k : jsstring) : Prop :=
  exists taskId p,
    attempts st !! i = Some (taskId, p) /\ suspended p = true /\ toString taskId = k.

(** What the guard of a pool of [processTask] attempts satisfies. *)
Record guard_invariant {World : Type} (st : pool World) : Prop := {
  guard_holds : forall k, k ∈ guard st <-> exists i, in_flight st i k;
  guard_excludes : forall i j k, in_flight st i k -> in_flight st j k -> i = j;
  attempts_release : forall i taskId p,
    attempts st !! i = Some (taskId, p) ->
    if suspended p then releases (toString taskId) p else finished p
}.

(** ** Letter case of addresses *)

Definition ascii_only (s : jsstring) : Prop := Forall (fun c => c < 128) s.

Definition ascii_lower (c : N) : N :=
  if (65 <=? c) && (c <=? 90) then c + 32 else c.

(** the same code unit, or the two cases of one letter *)
Definition same_letter (x y : N) : Prop :=
  x = y \/ (65 <= x <= 90 /\ y = x + 32) \/ (65 <= y <= 90 /\ x = y + 32).

Definition differ_only_in_case (a b : jsstring) : Prop := Forall2 same_letter a b.

(** ** operator.repository.js

    The repository methods the service awaits are the [call]s above.  Of
    their bodies only [getTask] does more than forward to the contract: it
    races the read against a timer.  A promise is described by when it
    settles, in milliseconds after [getTask] was called, and how. *)

Module OperatorRepository.

(** [None]: the promise never settles *)
Definition promise (A : Type) : Type := option (N * result A).

(** [new Promise((_, reject) => setTimeout(() => reject(new Error(msg)), ms))]:
    the callback runs [late] milliseconds after the delay has passed. *)
Definition rejectAfter {A : Type} (msg : error) (ms late : N) : promise A :=
  Some (ms + late, Exn msg).

Definition first_settled {A : Type} (p q : promise A) : promise A :=
  match p, q with
  | None, _ => q
  | Some _, None => p
  | Some (tp, _), Some (tq, _) => if tp <=? tq then p else q
  end.

(** [Promise.race(ps)] settles as the first of [ps] to settle does. *)
Fixpoint Promise_race {A : Type} (ps : list (promise A)) : promise A :=
  match ps with
  | [] => None
  | p :: rest => first_settled p (Promise_race rest)
  end.

Definition getTask (late : N) (taskPromise : promise Task.t) : promise Task.t :=
  let timeoutPromise :=
    rejectAfter (js "Timeout getting task details") TIMEOUTS.TASK_DETAILS late in
  Promise_race [taskPromise; timeoutPromise].

(** The contracts behind [getClaim]: the AVS contract tells the address
    of the IssuesClaim contract, which holds the claims.  The field
    [issuesClaimContract] of the repository is [None] for [null] and else
    the address its contract object was built with. *)
Inductive contract_call : Type :=
| avs_issuesClaimContract
| issuesClaim_claims (address : jsstring) (issueId claimIndex : N).

Section Contracts.

Variable Chain : Type.
Variable read_issuesClaimContract : Chain -> result jsstring * Chain.
Variable read_claims : jsstring -> N -> N -> Chain -> result Claim.t * Chain.

(** What a method of the repository leaves behind: its result, the field
    [issuesClaimContract], the chain and the contract calls it made. *)
Record repository_run (A : Type) : Type := RepositoryRun {
  returned : result A;
  contract_after : option jsstring;
  chain_after : Chain;
  contract_calls : list contract_call
}.
Arguments RepositoryRun {A} returned contract_after chain_after contract_calls.
Arguments returned {A} r.
Arguments contract_after {A} r.
Arguments chain_after {A} r.
Arguments contract_calls {A} r.

(** Initialize IssuesClaim contract.
    Lazy loading pattern to avoid unnecessary initialization *)
Definition initIssuesClaimContract (issuesClaimContract : option jsstring)
    (chain : Chain) : repository_run jsstring :=
  match issuesClaimContract with
  | None =>
      let (r, chain') := read_issuesClaimContract chain in
      match r with
      | Val issuesClaimAddress =>
          RepositoryRun (Val issuesClaimAddress) (Some issuesClaimAddress) chain'
            [avs_issuesClaimContract]
      | Exn e => RepositoryRun (Exn e) None chain' [avs_issuesClaimContract]
      end
  | Some contract => RepositoryRun (Val contract) (Some contract) chain []
  end.

Definition getClaim (issuesClaimContract : option jsstring) (issueId claimIndex : N)
    (chain : Chain) : repository_run Claim.t :=
  let init := initIssuesClaimContract issuesClaimContract chain in
  match returned init with
  | Exn e =>
      RepositoryRun (Exn e) (contract_after init) (chain_after init)
        (contract_calls init)
  | Val contract =>
      let (r, chain') := read_claims contract issueId claimIndex (chain_after init) in
      RepositoryRun r (contract_after init) chain'
        (contract_calls init ++ [issuesClaim_claims contract issueId claimIndex])
  end.

(** Calls of [getClaim] made one after the other, their results dropped. *)
Fixpoint getClaims (issuesClaimContract : option jsstring) (requests : list (N * N))
    (chain : Chain) : repository_run unit :=
  match requests with
  | [] => RepositoryRun (Val tt) issuesClaimContract chain []
  | (issueId, claimIndex) :: later =>
      let first := getClaim issuesClaimContract issueId claimIndex chain in
      let rest := getClaims (contract_after first) later (chain_after first) in
      RepositoryRun (Val tt) (contract_after rest) (chain_after rest)
        (contract_calls first ++ contract_calls rest)
  end.

End Contracts.

Arguments RepositoryRun {Chain A} returned contract_after chain_after contract_calls.
Arguments returned {Chain A} r.
Arguments contract_after {Chain A} r.
Arguments chain_after {Chain A} r.
Arguments contract_calls {Chain A} r.
Arguments initIssuesClaimContract {Chain} read_issuesClaimContract issuesClaimContract chain.
Arguments getClaim {Chain} read_issuesClaimContract read_claims issuesClaimContract
  issueId claimIndex chain.
Arguments getClaims {Chain} read_issuesClaimContract read_claims issuesClaimContract
  requests chain.

End OperatorRepository.

(** ** Reference instances of the platform and of the outside world

    The properties below hold for every platform and every world.  These
    instances serve to run the embedding on concrete inputs. *)

(** UTF-8 of a well-formed string; [None] on a lone surrogate *)
Fixpoint utf8_encode (s : jsstring) : option (list N) :=
  match s with
  | [] => Some []
  | c :: s' =>
      if c <? 128 then option_map (cons c) (utf8_encode s')
      else if c <? 2048 then
        option_map (fun t => 192 + c / 64 :: 128 + c mod 64 :: t) (utf8_encode s')
      else if is_high_surrogate c then
        match s' with
        | d :: s'' =>
            if is_low_surrogate d then
              let p := 65536 + (c - 55296) * 1024 + (d - 56320) in
              option_map
                (fun t => 240 + p / 262144 :: 128 + p / 4096 mod 64
                          :: 128 + p / 64 mod 64 :: 128 + p mod 64 :: t)
                (utf8_encode s'')
            else None
        | [] => None
        end
      else if is_low_surrogate c then None
      else
        option_map
          (fun t => 224 + c / 4096 :: 128 + c / 64 mod 64 :: 128 + c mod 64 :: t)
          (utf8_encode s')
  end.

Definition hex_byte (b : N) : jsstring := [hex_digit (b / 16); hex_digit (b mod 16)].

Definition hexlify_toUtf8Bytes_ref (s : jsstring) : result jsstring :=
  match utf8_encode s with
  | Some bytes => Val (js "0x" ++ flat_map hex_byte bytes)
  | None => Exn (js "invalid utf-8 string")
  end.

Definition uri_unreserved (c : N) : bool :=
  re_w c || (c =? 45) || (c =? 46) || (c =? 33) || (c =? 126) || (c =? 42)
  || (c =? 39) || (c =? 40) || (c =? 41).

Definition upper_hex_digit (n : N) : N := if n <? 10 then 48 + n else 55 + n.

Definition percent_byte (b : N) : jsstring :=
  if uri_unreserved b then [b]
  else [37; upper_hex_digit (b / 16); upper_hex_digit (b mod 16)].

Definition encodeURIComponent_ref (s : jsstring) : result jsstring :=
  match utf8_encode s with
  | Some bytes => Val (flat_map percent_byte bytes)
  | None => Exn (js "URI malformed")
  end.

Definition toLowerCase_ref (s : jsstring) : jsstring := map ascii_lower s.

(** A world that answers from a script: the successive answers of
    [getTask], the last one repeated, and one answer for each other
    call. *)
Record script : Type := Script {
  getTask_answers : list (result Task.t);
  getClaim_answer : result Claim.t;
  pickTask_answer : result Receipt;
  submitValidation_answer : result Receipt;
  axios_answer : result HttpResponse;
  getOperatorTasks_answer : result (list N);
  now : N
}.

Definition scripted_oracle (c : call) (w : script) : result (response c) * script :=
  match c return result (response c) * script with
  | getOperatorTasks _ => (getOperatorTasks_answer w, w)
  | getTask _ =>
      match getTask_answers w with
      | [] => (Exn (js "call revert exception"), w)
      | [r] => (r, w)
      | r :: rest =>
          (r, Script rest (getClaim_answer w) (pickTask_answer w)
                (submitValidation_answer w) (axios_answer w)
                (getOperatorTasks_answer w) (now w))
      end
  | pickTask _ => (pickTask_answer w, w)
  | submitValidation _ _ _ => (submitValidation_answer w, w)
  | getClaim _ _ => (getClaim_answer w, w)
  | axios_get _ _ _ => (axios_answer w, w)
  | setTimeout _ => (Val tt, w)
  end.

Definition scripted_clock (w : script) : N * script := (now w, w).

(** ** Example data *)

Module Example.

(** the operator's address, as the wallet prints it *)
Definition me : jsstring := js "0xAbCdEf0000000000000000000000000000000001".

Definition prContext : jsstring :=
  js "{'extractedParameters':{'merged':'true','login':'bob','id':'42'}}".

Definition userContext : jsstring :=
  js "{'extractedParameters':{'login':'bob','id':'42'}}".

Definition proof_with (context : jsstring) : json :=
  JObj [(js "claimData", JObj [(js "context", JStr context)])].

Definition prProofData : json := proof_with prContext.
Definition userProofData : json := proof_with userContext.

Definition serialized (prProofData userProofData : json) : jsstring :=
  JSON_stringify (JObj [(js "prProofData", prProofData);
                        (js "userProofData", userProofData)]).

Definition matches : list rmatch :=
  Eval vm_compute in String_matchAll (serialized prProofData userProofData) contextRegex.

Definition payload : HttpResponse :=
  {| http_status := 200;
     data := JObj [(js "prProofData", prProofData); (js "userProofData", userProofData)] |}.

(** a PR whose title holds a quotation mark *)
Definition quotedContext : jsstring :=
  js "{'extractedParameters':{'merged':'true','login':'bob','id':'42','title':'Fix \'it\''}}".

Definition quotedProofData : json := proof_with quotedContext.

Definition quotedMatches : list rmatch :=
  Eval vm_compute in
    String_matchAll (serialized quotedProofData userProofData) contextRegex.

(** a context in which another entity comes before the author of the PR *)
Definition pr_head : jsstring :=
  js "{'merged':'true','base':{'user':{'login':'upstream','id':'9'}},".

Definition pr_more : jsstring := js "'user':{'login':'bob','id':'42'}}".

Definition user_only : jsstring := js "{'login':'bob','id':'42'}".

Definition task1 : Task.t :=
  {| Task.taskId := 1; Task.issueId := 5; Task.claimIndex := 0;
     Task.prLink := js "https://github.com/zkPull/contracts/pull/12";
     Task.developer := js "0x00000000000000000000000000000000000000d1";
     Task.createdAt := 1700000000;
     Task.status := TASK_STATUS.ASSIGNED;
     Task.assignedOperator := js "0xabcdef0000000000000000000000000000000001";
     Task.zkProof := js "0x" |}.

Definition pending1 : Task.t :=
  {| Task.taskId := 1; Task.issueId := 5; Task.claimIndex := 0;
     Task.prLink := js "https://github.com/zkPull/contracts/pull/12";
     Task.developer := js "0x00000000000000000000000000000000000000d1";
     Task.createdAt := 1700000000;
     Task.status := TASK_STATUS.PENDING;
     Task.assignedOperator := js "0x0000000000000000000000000000000000000000";
     Task.zkProof := js "0x" |}.

Definition claim1 : Claim.t :=
  {| Claim._0 := js "https://github.com/zkPull/contracts/pull/12";
     Claim._1 := false;
     Claim._2 := js "0x00000000000000000000000000000000000000d1";
     Claim._3 := false;
     Claim._4 := 1700000000;
     Claim._5 := js "ghp_token" |}.

Definition world : script :=
  {| getTask_answers := [Val task1];
     getClaim_answer := Val claim1;
     pickTask_answer := Val {| transactionHash := js "0x01" |};
     submitValidation_answer := Val {| transactionHash := js "0x02" |};
     axios_answer := Val payload;
     getOperatorTasks_answer := Val [1];
     now := 1700000100000 |}.

(** the proof service does not answer in time *)
Definition world_timeout : script :=
  {| getTask_answers := [Val task1];
     getClaim_answer := Val claim1;
     pickTask_answer := Val {| transactionHash := js "0x01" |};
     submitValidation_answer := Val {| transactionHash := js "0x02" |};
     axios_answer := Exn (js "timeout of 120000ms exceeded");
     getOperatorTasks_answer := Val [1];
     now := 1700000100000 |}.

(** the task in the hands of another operator *)
Definition task_other : Task.t :=
  {| Task.taskId := 1; Task.issueId := 5; Task.claimIndex := 0;
     Task.prLink := js "https://github.com/zkPull/contracts/pull/12";
     Task.developer := js "0x00000000000000000000000000000000000000d1";
     Task.createdAt := 1700000000;
     Task.status := TASK_STATUS.ASSIGNED;
     Task.assignedOperator := js "0x00000000000000000000000000000000000000b2";
     Task.zkProof := js "0x" |}.

Definition world_other : script :=
  {| getTask_answers := [Val task_other];
     getClaim_answer := Val claim1;
     pickTask_answer := Val {| transactionHash := js "0x01" |};
     submitValidation_answer := Val {| transactionHash := js "0x02" |};
     axios_answer := Val payload;
     getOperatorTasks_answer := Val [1];
     now := 1700000100000 |}.


(** a PR context without a [merged] field, in which another entity comes
    before the author *)
Definition pr_unmerged : jsstring :=
  js "{'base':{'user':{'login':'upstream','id':'9'}},".

(** another operator wins the race, then the task turns out to be ours *)
Definition world_conflict : script :=
  {| getTask_answers := [Val pending1; Val task1];
     getClaim_answer := Val claim1;
     pickTask_answer := Exn (js "execution reverted: TaskAlreadyAssigned()");
     submitValidation_answer := Val {| transactionHash := js "0x02" |};
     axios_answer := Val payload;
     getOperatorTasks_answer := Val [1];
     now := 1700000100000 |}.

End Example.

(** [a || b] on strings; [None] is [undefined] *)
Definition js_or (a : option jsstring) (b : jsstring) : jsstring :=
  match a with
  | Some (c :: s) => c :: s
  | Some [] | None => b
  end.

(** What [pickUpTask] returns; [shouldProcess] is [undefined] after a
    successful pick. *)
Record PickResult : Type := {
  picked : bool;
  shouldProcess : option bool
}.

Section Operator.

(** The platform. *)
Variable JSON_parse : jsstring -> option json.
Variable toLowerCase : jsstring -> jsstring.
Variable encodeURIComponent : jsstring -> result jsstring.
(** [ethers.utils.hexlify(ethers.utils.toUtf8Bytes(s))] *)
Variable hexlify_toUtf8Bytes : jsstring -> result jsstring.
(** the message of the [TypeError] for a property of [null] *)
Variable TypeError_null : error.

(** [process.env] *)
Variable ZKTLS_API_URL : option jsstring.
Variable ZKTLS_ACCESS_TOKEN : option jsstring.

(** [wallet.address], which the controller passes to the service as
    [operatorAddress] *)
Variable operatorAddress : jsstring.

(** The outside world the programs run against. *)
Variable World : Type.
Variable oracle : forall c : call, World -> result (response c) * World.
Variable clock : World -> N * World.

Definition CONFIG_zkTLSApiUrl : jsstring :=
  js_or ZKTLS_API_URL (js "https://zkpull-services.up.railway.app").

(** *** ZKTLSValidator *)

(** The request [_callZKTLSAPI] sends for a link whose encoding is
    [encoded]. *)
Definition zkTLS_request (accessToken encoded : jsstring) : call :=
  axios_get (CONFIG_zkTLSApiUrl ++ js "/generate-proof?url=" ++ encoded)
    [(js "Authorization",
      js "Bearer " ++ js_or (Some accessToken) (js_or ZKTLS_ACCESS_TOKEN []))]
    (Some TIMEOUTS.ZKTLS_API).

(** What [_callZKTLSAPI] does with [response.data]: the destructuring
    throws on [null], the check on a falsy proof. *)
Definition proofData_of (d : json) : result (json * json) :=
  match d with
  | JNull => Exn TypeError_null
  | _ =>
      let prProofData := get_prop d (js "prProofData") in
      let userProofData := get_prop d (js "userProofData") in
      match prProofData, userProofData with
      | Some pr, Some user =>
          if negb (truthy prProofData) || negb (truthy userProofData)
          then Exn (js "Invalid response format from zkTLS API")
          else Val (pr, user)
      | _, _ => Exn (js "Invalid response format from zkTLS API")
      end
  end.

(** Call zkTLS API to generate proof *)
Definition _callZKTLSAPI (prLink accessToken : jsstring) : prog (json * json) :=
  let* encoded := lift (encodeURIComponent prLink) in
  let* response := await (zkTLS_request accessToken encoded) in
  lift (proofData_of (data response)).

(** Parse JSON string safely with escaped quotes handling *)
Definition _parseJSONSafely (jsonString : jsstring) : json :=
  let cleanedString := String_replace jsonString escapedQuoteRegex (js "'") in
  match JSON_parse cleanedString with
  | Some v => v
  | None => JObj []
  end.

(** Extract and verify proof data *)
Definition _extractAndVerifyProof (prProofData userProofData : json)
  : result Verification.t :=
  let proofString :=
    JSON_stringify (JObj [(js "prProofData", prProofData);
                          (js "userProofData", userProofData)]) in
  let matches := String_matchAll proofString contextRegex in
  match matches with
  | m0 :: m1 :: _ =>
      let prProofDataContext := _parseJSONSafely (group1 m0) in
      let userProofDataContext := _parseJSONSafely (group1 m1) in
      let prProofString := JSON_stringify prProofDataContext in
      let userProofString := JSON_stringify userProofDataContext in
      Val (_verifyProofData prProofString userProofString)
  | _ => Exn (js "Could not extract context from proof data")
  end.

(** The object [_createZKProof] serializes. *)
Definition zkProof_document (prProofData userProofData : json)
    (verificationResult : Verification.t) (timestamp : N) : json :=
  JObj
    [(js "prProof", prProofData);
     (js "userProof", userProofData);
     (js "verified", JObj
        [(js "isMerged", JBool (Verification.isMerged verificationResult));
         (js "isValidUser", JBool (Verification.isValidUser verificationResult));
         (js "isValidId", JBool (Verification.isValidId verificationResult));
         (js "githubUsername", JStr (Verification.githubUsername verificationResult));
         (js "githubUserId", JStr (Verification.githubUserId verificationResult));
         (js "userLogin", JStr (Verification.userLogin verificationResult));
         (js "userId", JStr (Verification.userId verificationResult));
         (js "timestamp", JNum (toString timestamp))])].

(** Create zkProof bytes from verification data *)
Definition _createZKProof (prProofData userProofData : json)
    (verificationResult : Verification.t) : prog jsstring :=
  DateNow (fun now =>
    lift (hexlify_toUtf8Bytes
            (JSON_stringify
               (zkProof_document prProofData userProofData verificationResult now)))).

(** The object [verifyPR] returns. *)
Definition verdict_of (verificationResult : Verification.t) (zkProof : jsstring)
  : Verdict.t :=
  {| Verdict.isValid := Verification.isValid verificationResult;
     Verdict.zkProof := zkProof;
     Verdict.metadata := Some
       {| Metadata.isMerged := Verification.isMerged verificationResult;
          Metadata.isValidUser := Verification.isValidUser verificationResult;
          Metadata.isValidId := Verification.isValidId verificationResult;
          Metadata.githubUsername := Verification.githubUsername verificationResult;
          Metadata.githubUserId := Verification.githubUserId verificationResult |} |}.

(** Verify PR merge status using zkTLS *)
Definition verifyPR (prLink accessToken : jsstring) : prog Verdict.t :=
  try_catch
    (let* _ := lift (_validatePRLink prLink) in
     let* proofs := _callZKTLSAPI prLink accessToken in
     let prProofData := fst proofs in
     let userProofData := snd proofs in
     let* verificationResult := lift (_extractAndVerifyProof prProofData userProofData) in
     let* zkProof := _createZKProof prProofData userProofData verificationResult in
     Ret (verdict_of verificationResult zkProof))
    (fun error => Throw (js "zkTLS verification failed: " ++ error)).

(** The request [fallbackVerification] sends to the GitHub API. *)
Definition fallback_request (owner repo prNumber : jsstring) : call :=
  axios_get
    (js "https://api.github.com/repos/" ++ owner ++ js "/" ++ repo
        ++ js "/pulls/" ++ prNumber)
    [(js "Accept", js "application/vnd.github.v3+json");
     (js "User-Agent", js "zkPull-Operator-Bot")]
    None.

(** Fallback verification using GitHub API.
    Kept for backward compatibility but should not be used in production *)
Definition fallbackVerification (prLink : jsstring) : prog Verdict.t :=
  try_catch
    (match String_match prLink prLinkRegex with
     | None => Ret {| Verdict.isValid := false; Verdict.zkProof := js "0x";
                      Verdict.metadata := None |}
     | Some m =>
         let owner := nth 0 (groups m) [] in
         let repo := nth 1 (groups m) [] in
         let prNumber := nth 2 (groups m) [] in
         let* response := await (fallback_request owner repo prNumber) in
         match data response with
         | JNull => Throw TypeError_null
         | d =>
             let merged := match get_prop d (js "merged") with
                           | Some (JBool true) => true
                           | _ => false
                           end in
             let* zkProof :=
               lift (hexlify_toUtf8Bytes (JSON_stringify (JObj
                 [(js "fallback", JBool true); (js "merged", JBool merged)]))) in
             Ret {| Verdict.isValid := merged; Verdict.zkProof := zkProof;
                    Verdict.metadata := None |}
         end
     end)
    (fun error => Ret {| Verdict.isValid := false; Verdict.zkProof := js "0x";
                         Verdict.metadata := None |}).

(** *** OperatorService *)

(** Check if task is assigned to this operator *)
Definition isAssignedToMe (task : Task.t) : bool :=
  jsstring_eqb (toLowerCase (Task.assignedOperator task)) (toLowerCase operatorAddress).

(** Extract access token from claim data.  The ABI names no output of
    [claims], so [claimResult.accessToken] is [undefined]. *)
Definition _getAccessToken (task : Task.t) : prog jsstring :=
  let issueId := Task.issueId task in
  let claimIndex := Task.claimIndex task in
  let* claimResult := await (getClaim issueId claimIndex) in
  Ret (js_or (Some (Claim._5 claimResult)) (js_or None [])).

(** Submit validation result to AVS *)
Definition _submitValidation (taskId : N) (isValid : bool) (zkProof : jsstring)
  : prog unit :=
  let* receipt := await (submitValidation taskId isValid zkProof) in
  Ret tt.

(** Handle task that is not in pending status *)
Definition _handleNonPendingTask (taskId : N) (task : Task.t) : prog PickResult :=
  if isAssignedToMe task && (Task.status task =? TASK_STATUS.ASSIGNED)
  then Ret {| picked := false; shouldProcess := Some true |}
  else Ret {| picked := false; shouldProcess := Some false |}.

(** Handle errors when picking up a task *)
Definition _handlePickTaskError (taskId : N) (error : error) : prog PickResult :=
  let isAlreadyAssigned :=
    existsb (fun code => includes error code) ERROR_CODES.TASK_ALREADY_ASSIGNED in
  if isAlreadyAssigned then
    let* returned :=
      try_catch
        (let* task := await (getTask taskId) in
         if isAssignedToMe task
         then Ret (Some {| picked := false; shouldProcess := Some true |})
         else Ret None)
        (fun checkError => Ret None) in
    match returned with
    | Some r => Ret r
    | None => Ret {| picked := false; shouldProcess := Some false |}
    end
  else Throw error.

(** Pick up a pending task *)
Definition pickUpTask (taskId : N) : prog PickResult :=
  let* task := await (getTask taskId) in
  if negb (Task.status task =? TASK_STATUS.PENDING)
  then _handleNonPendingTask taskId task
  else
    try_catch
      (let* _ := await (pickTask taskId) in
       Ret {| picked := true; shouldProcess := None |})
      (fun error => _handlePickTaskError taskId error).

(** Process a validation task *)
Definition processTask (taskId : N) : prog unit :=
  let taskIdStr := toString taskId in
  Has taskIdStr (fun present =>
  if present then Ret tt
  else
    Add taskIdStr
      (try_finally
         (try_catch
            (let* task := await (getTask taskId) in
             let* accessToken := _getAccessToken task in
             let* verdict := verifyPR (Task.prLink task) accessToken in
             let* _ := _submitValidation taskId (Verdict.isValid verdict)
                         (Verdict.zkProof verdict) in
             Ret tt)
            (fun error => Throw error))
         (Delete taskIdStr (Ret tt)))).

(** Poll for assigned tasks *)
Fixpoint pollAssignedTasks_loop (tasks pendingTasks : list N) : prog (list N) :=
  match tasks with
  | [] => Ret pendingTasks
  | taskId :: rest =>
      Has (toString taskId) (fun present =>
      if negb present then
        let* task := await (getTask taskId) in
        if Task.status task =? TASK_STATUS.ASSIGNED
        then pollAssignedTasks_loop rest (pendingTasks ++ [taskId])
        else pollAssignedTasks_loop rest pendingTasks
      else pollAssignedTasks_loop rest pendingTasks)
  end.

Definition pollAssignedTasks : prog (list N) :=
  let* tasks := await (getOperatorTasks operatorAddress) in
  pollAssignedTasks_loop tasks [].

(** Wait for auto-assignment to complete *)
Definition waitForAutoAssignment : prog unit :=
  await (setTimeout TIMEOUTS.AUTO_ASSIGNMENT_WAIT).

(** *** ZKTLSOperatorBot *)

(** Handle TaskCreated event *)
Definition _handleTaskCreated (taskId issueId claimIndex : N) : prog unit :=
  let* _ := waitForAutoAssignment in
  try_catch
    (let* task := await (getTask taskId) in
     if isAssignedToMe task then processTask taskId
     else if Task.status task =? 0 then
       let* result := pickUpTask taskId in
       if picked result || default false (shouldProcess result)
       then processTask taskId
       else Ret tt
     else Ret tt)
    (fun error => Ret tt).

(** Handle TaskAssigned event *)
Definition _handleTaskAssigned (taskId : N) (operator : jsstring) : prog unit :=
  if jsstring_eqb (toLowerCase operator) (toLowerCase operatorAddress) then
    Has (toString taskId) (fun present =>
    if negb present then processTask taskId else Ret tt)
  else Ret tt.




(** *** The bot before it was split into layers

    [src/unnamed/part_001] holds the whole bot in one class.  Its
    verification runs the same steps as [verifyPR], inline, and its reads
    of the task and of the claim are the calls [getTask] and [getClaim]. *)

(** Verify PR merge status using zkTLS *)
Definition legacy_verifyPRWithZKTLS (prLink accessToken : jsstring) : prog Verdict.t :=
  try_catch
    (let* _ := lift (_validatePRLink prLink) in
     let* proofs := _callZKTLSAPI prLink accessToken in
     let prProofData := fst proofs in
     let userProofData := snd proofs in
     let* verificationResult := lift (_extractAndVerifyProof prProofData userProofData) in
     let* zkProof := _createZKProof prProofData userProofData verificationResult in
     Ret (verdict_of verificationResult zkProof))
    (fun error => fallbackVerification prLink).

(** Submit validation result to AVS *)
Definition legacy_submitValidation (taskId : N) (isValid : bool) (zkProof : jsstring)
  : prog unit :=
  try_catch
    (let* receipt := await (submitValidation taskId isValid zkProof) in
     Ret tt)
    (fun error => Throw error).

(** Process a validation task *)
Definition legacy_processTask (taskId : N) : prog unit :=
  let taskIdStr := toString taskId in
  Has taskIdStr (fun present =>
  if present then Ret tt
  else
    Add taskIdStr
      (try_finally
         (try_catch
            (let* task := await (getTask taskId) in
             let* claimResult :=
               await (getClaim (Task.issueId task) (Task.claimIndex task)) in
             let accessToken := js_or (Some (Claim._5 claimResult)) (js_or None []) in
             let* verdict := legacy_verifyPRWithZKTLS (Task.prLink task) accessToken in
             let* _ := legacy_submitValidation taskId (Verdict.isValid verdict)
                         (Verdict.zkProof verdict) in
             Ret tt)
            (fun error => Ret tt))
         (Delete taskIdStr (Ret tt)))).

(** Pick up a task *)
Definition legacy_pickUpTask (taskId : N) : prog unit :=
  try_catch
    (let* task := await (getTask taskId) in
     if negb (Task.status task =? 0) then
       if jsstring_eqb (toLowerCase (Task.assignedOperator task))
            (toLowerCase operatorAddress)
          && (Task.status task =? 1)
       then legacy_processTask taskId
       else Ret tt
     else
       let* _ := await (pickTask taskId) in
       legacy_processTask taskId)
    (fun error =>
       if includes error (js "TaskAlreadyAssigned")
          || includes error (js "0x48780f5a")
          || includes error (js "0x27e1f1e5")
       then
         try_catch
           (let* task := await (getTask taskId) in
            if jsstring_eqb (toLowerCase (Task.assignedOperator task))
                 (toLowerCase operatorAddress)
            then legacy_processTask taskId
            else Ret tt)
           (fun checkError => Ret tt)
       else Ret tt).

(** *** Vocabulary for the properties *)

(** A step of [verifyPR] fails in the world [w]: the link is invalid, the
    call of the proof service is rejected, its response lacks
    [prProofData] or [userProofData], or the extraction throws. *)
Inductive verifyPR_step_fails (prLink accessToken : jsstring) (w : World) : Prop :=
| invalid_link :
    String_match prLink prLinkRegex = None ->
    verifyPR_step_fails prLink accessToken w
| transport_failure encoded e :
    encodeURIComponent prLink = Val encoded ->
    (oracle (zkTLS_request accessToken encoded) w).1 = Exn e ->
    verifyPR_step_fails prLink accessToken w
| missing_proof_data encoded response :
    encodeURIComponent prLink = Val encoded ->
    (oracle (zkTLS_request accessToken encoded) w).1 = Val response ->
    truthy (get_prop (data response) (js "prProofData")) = false \/
    truthy (get_prop (data response) (js "userProofData")) = false ->
    verifyPR_step_fails prLink accessToken w
| extraction_failure encoded response prProofData userProofData e :
    encodeURIComponent prLink = Val encoded ->
    (oracle (zkTLS_request accessToken encoded) w).1 = Val response ->
    get_prop (data response) (js "prProofData") = Some prProofData ->
    get_prop (data response) (js "userProofData") = Some userProofData ->
    _extractAndVerifyProof prProofData userProofData = Exn e ->
    verifyPR_step_fails prLink accessToken w.

(** The run of [verifyPR], step by step ([exec_verifyPR]). *)
Definition verifyPR_outcome (prLink accessToken : jsstring)
    (processingTasks : gset jsstring) (w : World) : outcome World Verdict.t :=
  let failed (e : error) (w' : World) (cs : list call) :=
    Outcome (Exn (js "zkTLS verification failed: " ++ e)) processingTasks w' cs in
  match _validatePRLink prLink with
  | Exn e => failed e w []
  | Val _ =>
  match encodeURIComponent prLink with
  | Exn e => failed e w []
  | Val encoded =>
  let c := zkTLS_request accessToken encoded in
  let w1 := (oracle c w).2 in
  match (oracle c w).1 with
  | Exn e => failed e w1 [c]
  | Val response =>
  match proofData_of (data response) with
  | Exn e => failed e w1 [c]
  | Val (prProofData, userProofData) =>
  match _extractAndVerifyProof prProofData userProofData with
  | Exn e => failed e w1 [c]
  | Val v =>
  let w2 := (clock w1).2 in
  match hexlify_toUtf8Bytes
          (JSON_stringify (zkProof_document prProofData userProofData v (clock w1).1)) with
  | Exn e => failed e w2 [c]
  | Val zkProof => Outcome (Val (verdict_of v zkProof)) processingTasks w2 [c]
  end end end end end end.

Definition is_submitValidation (c : call) : bool :=
  match c with
  | submitValidation _ _ _ => true
  | _ => false
  end.

Definition is_pickTask (c : call) : bool :=
  match c with
  | pickTask _ => true
  | _ => false
  end.

(** The run of [processTask] for a task that is not being processed
    ([exec_processTask]). *)
Definition processTask_outcome (taskId : N)
    (processingTasks : gset jsstring) (w : World) : outcome World unit :=
  let taskIdStr := toString taskId in
  let c1 := getTask taskId in
  let w1 := (oracle c1 w).2 in
  match (oracle c1 w).1 with
  | Exn e => Outcome (Exn e) processingTasks w1 [c1]
  | Val task =>
  let c2 := getClaim (Task.issueId task) (Task.claimIndex task) in
  let w2 := (oracle c2 w1).2 in
  match (oracle c2 w1).1 with
  | Exn e => Outcome (Exn e) processingTasks w2 [c1; c2]
  | Val claimResult =>
  let accessToken := js_or (Some (Claim._5 claimResult)) (js_or None []) in
  let ov := exec oracle clock (verifyPR (Task.prLink task) accessToken)
              ({[taskIdStr]} ∪ processingTasks) w2 in
  match ended ov with
  | Exn e => Outcome (Exn e) processingTasks (world_after ov) (c1 :: c2 :: calls ov)
  | Val verdict =>
  let c3 := submitValidation taskId (Verdict.isValid verdict) (Verdict.zkProof verdict) in
  let w3 := (oracle c3 (world_after ov)).2 in
  match (oracle c3 (world_after ov)).1 with
  | Exn e => Outcome (Exn e) processingTasks w3 (c1 :: c2 :: calls ov ++ [c3])
  | Val _ => Outcome (Val tt) processingTasks w3 (c1 :: c2 :: calls ov ++ [c3])
  end end end end.


(** A code unit that [JSON.stringify] copies into a string as it is, or
    a quotation mark, which it escapes with one backslash: anything from
    U+0020 on but the backslash, the surrogates and the two line
    separators. *)
Definition embeddable (c : N) : bool :=
  (32 <=? c) && negb (c =? 92) && negb (is_high_surrogate c)
  && negb (is_low_surrogate c) && negb (c =? 8232) && negb (c =? 8233).

(** The text a [context] property with the string value [context] takes
    in a serialized payload. *)
Definition embedded (context : jsstring) : jsstring :=
  js "'context':" ++ QuoteJSONString context.

(** The text ['context':] begins nowhere in [pre], when [pre] is followed
    by it. *)
Fixpoint key_free (pre : jsstring) : bool :=
  match pre with
  | [] => true
  | _ :: pre' =>
      negb (starts_with (js "'context':") (pre ++ js "'context':")) && key_free pre'
  end.

(** * Properties *)

(** ** The matcher *)

Lemma star_rests_spec p s rest :
  In rest (star_rests p s) <->
  exists xs, s = xs ++ rest /\ Forall (fun c => p c = true) xs.
Proof.
  revert rest. induction s as [|c s IH]; intros rest; simpl.
  - split.
    + intros [<-|[]]. exists []. auto.
    + intros (xs & E & _). symmetry in E. apply app_eq_nil in E as [_ ->]. auto.
  - split.
    + intros [<-|H].
      * exists []. auto.
      * destruct (p c) eqn:Hp; [|destruct H].
        apply IH in H as (xs & -> & Hxs). exists (c :: xs). auto.
    + intros (xs & E & Hxs). destruct xs as [|x xs]; simpl in E.
      * left. auto.
      * injection E as <- ->. inversion Hxs; subst.
        right. rewrite H1. apply IH. eauto.
Qed.

Lemma run_spec r : forall s caps caps' rest,
  In (caps', rest) (run r s caps) <->
  exists xs, s = xs ++ rest /\ matches r xs caps caps'.
Proof.
  induction r as [|p|r1 IH1 r2 IH2|greedy p|r IH]; intros s caps caps' rest; simpl.
  - split.
    + intros [E|[]]. injection E as <- <-. exists []. split; [done|constructor].
    + intros (xs & -> & H). inversion H; subst. left. done.
  - split.
    + destruct s as [|c s]; [intros []|]. destruct (p c) eqn:Hp; [|intros []].
      intros [E|[]]. injection E as <- <-. exists [c]. split; [done|by constructor].
    + intros (xs & -> & H). inversion H; subst. simpl. rewrite H1. left. done.
  - rewrite in_flat_map. split.
    + intros ([caps1 s1] & H1 & H2). simpl in H2.
      apply IH1 in H1 as (xs & -> & Hx). apply IH2 in H2 as (ys & -> & Hy).
      exists (xs ++ ys). rewrite <- app_assoc. split; [done|]. econstructor; eauto.
    + intros (zs & -> & H). inversion H; subst.
      exists (caps1, ys ++ rest). split.
      * apply IH1. exists xs. rewrite <- app_assoc. done.
      * simpl. apply IH2. eauto.
  - rewrite in_map_iff. split.
    + intros (rest' & E & H). injection E as <- <-.
      assert (In rest' (star_rests p s)) as H'.
      { destruct greedy; [by apply in_rev|done]. }
      apply star_rests_spec in H' as (xs & -> & Hxs).
      exists xs. split; [done|by constructor].
    + intros (xs & -> & H). inversion H; subst.
      exists rest. split; [done|].
      assert (In rest (star_rests p (xs ++ rest))) as H'.
      { apply star_rests_spec. eauto. }
      destruct greedy; [by apply in_rev in H'|done].
  - rewrite in_map_iff. split.
    + intros ([caps1 s1] & E & H). simpl in E. injection E as <- <-.
      apply IH in H as (xs & -> & Hx). exists xs. split; [done|].
      replace (take _ _) with xs; [by constructor|].
      rewrite length_app, Nat.add_sub. by rewrite take_app_length.
    + intros (xs & -> & H). inversion H; subst.
      exists (caps1, rest). simpl. split.
      * f_equal. f_equal. f_equal.
        rewrite length_app, Nat.add_sub. by rewrite take_app_length.
      * apply IH. eauto.
Qed.

Lemma match_at_Some r s m :
  match_at r s = Some m ->
  s = whole m ++ after m /\ matches r (whole m) [] (groups m).
Proof.
  unfold match_at. destruct (run r s []) as [|[caps rest] l] eqn:E; [done|].
  intros [= <-]. simpl.
  assert (In (caps, rest) (run r s [])) as H by (rewrite E; by left).
  apply run_spec in H as (xs & -> & H).
  rewrite length_app, Nat.add_sub, take_app_length. done.
Qed.

Lemma match_at_None r s :
  match_at r s = None <->
  forall xs rest caps, s = xs ++ rest -> ~ matches r xs [] caps.
Proof.
  unfold match_at. split.
  - destruct (run r s []) as [|[caps rest] l] eqn:E; [|done].
    intros _ xs rest caps -> H.
    assert (In (caps, rest) (run r (xs ++ rest) [])) as H' by (apply run_spec; eauto).
    rewrite E in H'. destruct H'.
  - intros H. destruct (run r s []) as [|[caps rest] l] eqn:E; [done|].
    assert (In (caps, rest) (run r s [])) as H' by (rewrite E; by left).
    apply run_spec in H' as (xs & -> & H'). by destruct (H _ _ _ eq_refl H').
Qed.

Lemma search_Some r s m :
  search r s = Some m <->
  exists pre t, s = pre ++ t /\ match_at r t = Some m /\
    forall pre1 pre2, pre = pre1 ++ pre2 -> pre2 <> [] ->
      match_at r (pre2 ++ t) = None.
Proof.
  induction s as [|c s IH]; simpl.
  - split.
    + destruct (match_at r []) eqn:E; [|done]. intros [= <-].
      exists [], []. split; [done|]. split; [done|].
      intros pre1 pre2 E' Hne. symmetry in E'. apply app_eq_nil in E' as [_ ->]. done.
    + intros (pre & t & E & Hm & _). symmetry in E. apply app_eq_nil in E as [-> ->].
      by rewrite Hm.
  - destruct (match_at r (c :: s)) as [m0|] eqn:E0.
    + split.
      * intros [= <-]. exists [], (c :: s). split; [done|]. split; [done|].
        intros pre1 pre2 E' Hne. symmetry in E'. apply app_eq_nil in E' as [_ ->]. done.
      * intros (pre & t & E & Hm & Hleft). destruct pre as [|x pre]; simpl in E.
        -- subst t. congruence.
        -- specialize (Hleft [] (x :: pre) eq_refl ltac:(done)).
           simpl in Hleft. rewrite <- E in Hleft. congruence.
    + rewrite IH. split.
      * intros (pre & t & -> & Hm & Hleft). exists (c :: pre), t.
        split; [done|]. split; [done|].
        intros pre1 pre2 E' Hne. destruct pre1 as [|y pre1]; simpl in E'.
        -- subst pre2. done.
        -- injection E' as <- ->. by eapply Hleft.
      * intros (pre & t & E & Hm & Hleft). destruct pre as [|x pre]; simpl in E.
        -- subst t. congruence.
        -- injection E as <- ->. exists pre, t. split; [done|]. split; [done|].
           intros pre1 pre2 -> Hne. by apply (Hleft (c :: pre1) pre2).
Qed.

Lemma search_None r s :
  search r s = None <-> forall pre t, s = pre ++ t -> match_at r t = None.
Proof.
  induction s as [|c s IH]; simpl.
  - split.
    + destruct (match_at r []) eqn:E; [done|]. intros _ pre t E'.
      symmetry in E'. apply app_eq_nil in E' as [_ ->]. done.
    + intros H. by rewrite (H [] []).
  - split.
    + destruct (match_at r (c :: s)) eqn:E; [done|]. intros H pre t E'.
      destruct pre as [|x pre]; simpl in E'.
      * by subst t.
      * injection E' as <- ->. rewrite IH in H. by eapply H.
    + intros H. rewrite (H [] (c :: s)) by done. apply IH.
      intros pre t ->. by apply (H (c :: pre)).
Qed.

(** *** The fuel of [matchAll] and [replace] is enough *)

Lemma search_splits r s m :
  search r s = Some m -> exists pre, s = pre ++ whole m ++ after m.
Proof.
  intros H. apply search_Some in H as (pre & t & -> & Hm & _).
  apply match_at_Some in Hm as [-> _]. eauto.
Qed.

Lemma matchAll_fuel_enough r fuel1 : forall fuel2 s,
  (length s < fuel1)%nat -> (length s < fuel2)%nat ->
  matchAll_fuel fuel1 r s = matchAll_fuel fuel2 r s.
Proof.
  induction fuel1 as [|fuel1 IH]; intros [|fuel2] s H1 H2; try lia.
  cbn [matchAll_fuel]. destruct (search r s) as [m|] eqn:Hs; [|done].
  apply search_splits in Hs as [pre E].
  assert (length s = length pre + (length (whole m) + length (after m)))%nat as Hlen
    by (rewrite E, !length_app; done).
  clear E. f_equal. revert Hlen.
  destruct (whole m) as [|x xs], (after m) as [|c rest]; cbn [length]; intros Hlen;
    try done; apply IH; cbn [length]; lia.
Qed.

Lemma String_matchAll_unfold r s :
  String_matchAll s r =
  match search r s with
  | None => []
  | Some m =>
      m :: match whole m, after m with
           | [], [] => []
           | [], _ :: rest => String_matchAll rest r
           | _ :: _, rest => String_matchAll rest r
           end
  end.
Proof.
  unfold String_matchAll at 1. cbn [matchAll_fuel].
  destruct (search r s) as [m|] eqn:Hs; [|done].
  apply search_splits in Hs as [pre E].
  assert (length s = length pre + (length (whole m) + length (after m)))%nat as Hlen
    by (rewrite E, !length_app; done).
  clear E. f_equal. revert Hlen.
  destruct (whole m) as [|x xs], (after m) as [|c rest]; cbn [length]; intros Hlen;
    try done; unfold String_matchAll; apply matchAll_fuel_enough; cbn [length]; lia.
Qed.

Lemma replace_fuel_enough r by_ fuel1 : forall fuel2 s,
  (length s < fuel1)%nat -> (length s < fuel2)%nat ->
  replace_fuel fuel1 r by_ s = replace_fuel fuel2 r by_ s.
Proof.
  induction fuel1 as [|fuel1 IH]; intros [|fuel2] s H1 H2; try lia.
  cbn [replace_fuel]. destruct (match_at r s) as [m|] eqn:Hm.
  - apply match_at_Some in Hm as [E _].
    assert (length s = length (whole m) + length (after m))%nat as Hlen
      by (rewrite E at 1; apply length_app).
    clear E. revert Hlen.
    destruct (whole m) as [|x xs], (after m) as [|c rest]; cbn [length]; intros Hlen;
      try done; rewrite (IH fuel2) by (cbn [length]; lia); done.
  - destruct s as [|c rest]; [done|]. f_equal. apply IH; cbn [length] in *; lia.
Qed.

Lemma starts_with_spec (sub s : jsstring) :
  starts_with sub s = true <-> exists post, s = sub ++ post.
Proof.
  revert s. induction sub as [|a sub IH]; intros s; simpl.
  - split; eauto.
  - destruct s as [|b s]; simpl.
    + split; [done|]. intros [post [=]].
    + rewrite andb_true_iff, N.eqb_eq, IH. split.
      * intros [-> [post ->]]. eauto.
      * intros [post [= -> ->]]. eauto.
Qed.

Lemma run_Lit l : forall s caps,
  run (Lit l) s caps = if starts_with l s then [(caps, drop (length l) s)] else [].
Proof.
  induction l as [|a l IH]; intros s caps; [done|].
  cbn [Lit run starts_with]. destruct s as [|b s]; [done|].
  unfold only. destruct (a =? b); cbn [flat_map andb fst snd]; [|done].
  rewrite IH, app_nil_r. done.
Qed.

Lemma match_at_Lit l s :
  match_at (Lit l) s =
  if starts_with l s then Some (RMatch l [] (drop (length l) s)) else None.
Proof.
  unfold match_at. rewrite run_Lit. destruct (starts_with l s) eqn:E; [|done].
  apply starts_with_spec in E as [post ->].
  rewrite drop_app_length, length_app.
  replace (length l + length post - length post)%nat with (length l) by lia.
  by rewrite take_app_length.
Qed.

Lemma String_replace_escaped_quotes s :
  String_replace s escapedQuoteRegex (js "'") = unescape_quotes s.
Proof.
  unfold String_replace.
  assert (forall fuel s, (length s < fuel)%nat ->
            replace_fuel fuel escapedQuoteRegex (js "'") s = unescape_quotes s) as H;
    [|apply H; lia].
  clear s. induction fuel as [|fuel IH]; intros s Hlen; [lia|].
  cbn [replace_fuel].
  change (match_at escapedQuoteRegex s) with (match_at (Lit [92; 34]) s).
  rewrite match_at_Lit.
  destruct s as [|c [|d s]]; cbn [starts_with unescape_quotes length drop] in *.
  - done.
  - rewrite andb_false_r, IH by (cbn [length]; lia). done.
  - rewrite andb_true_r, (N.eqb_sym 92 c), (N.eqb_sym 34 d).
    destruct (c =? 92); cbn [andb].
    + destruct (d =? 34); cbn [whole after].
      * change (js "'") with [34]. cbn [app]. f_equal. apply IH. lia.
      * f_equal. apply IH. cbn [length]. lia.
    + f_equal. apply IH. cbn [length]. lia.
Qed.

Lemma matches_Seq_inv r1 r2 zs caps caps2 :
  matches (Seq r1 r2) zs caps caps2 ->
  exists xs ys caps1,
    zs = xs ++ ys /\ matches r1 xs caps caps1 /\ matches r2 ys caps1 caps2.
Proof. inversion 1; subst. eauto 10. Qed.

Lemma matches_Chr_inv p xs caps caps' :
  matches (Chr p) xs caps caps' -> exists c, xs = [c] /\ p c = true /\ caps' = caps.
Proof. inversion 1; subst. eauto. Qed.

Lemma matches_Star_inv greedy p xs caps caps' :
  matches (Star greedy p) xs caps caps' ->
  Forall (fun c => p c = true) xs /\ caps' = caps.
Proof. inversion 1; subst. eauto. Qed.

Lemma matches_Group_inv r xs caps caps' :
  matches (Group r) xs caps caps' ->
  exists caps1, matches r xs caps caps1 /\ caps' = caps1 ++ [xs].
Proof. inversion 1; subst. eauto. Qed.

Lemma matches_Lit l xs caps caps' :
  matches (Lit l) xs caps caps' <-> xs = l /\ caps' = caps.
Proof.
  revert xs caps caps'. induction l as [|c l IH]; intros xs caps caps'; simpl.
  - split; [by inversion 1|]. intros [-> ->]. constructor.
  - split.
    + intros H. apply matches_Seq_inv in H as (x & y & c1 & -> & H1 & H2).
      apply matches_Chr_inv in H1 as (c0 & -> & Hc & ->).
      apply IH in H2 as [-> ->]. unfold only in Hc. apply N.eqb_eq in Hc as <-. done.
    + intros [-> ->]. apply (matches_Seq _ _ [c] l caps caps caps).
      * constructor. apply N.eqb_refl.
      * by apply IH.
Qed.

Lemma matches_Plus p xs caps caps' :
  matches (Plus p) xs caps caps' <->
  xs <> [] /\ Forall (fun c => p c = true) xs /\ caps' = caps.
Proof.
  unfold Plus. split.
  - intros H. apply matches_Seq_inv in H as (x & y & c1 & -> & H1 & H2).
    apply matches_Chr_inv in H1 as (c0 & -> & Hc & ->).
    apply matches_Star_inv in H2 as [Hall ->].
    split; [done|]. split; [|done]. constructor; done.
  - intros (Hne & Hall & ->). destruct xs as [|c xs]; [done|].
    inversion Hall; subst.
    apply (matches_Seq _ _ [c] xs caps caps caps); by constructor.
Qed.

Lemma matches_keyRegex key cls xs caps :
  matches (keyRegex key cls) xs [] caps <->
  exists v, occurrence key cls v xs /\ caps = [v].
Proof.
  unfold keyRegex, occurrence, field_text. cbn [Cat]. split.
  - intros H.
    apply matches_Seq_inv in H as (x1 & y1 & c1 & -> & H1 & H).
    apply matches_Lit in H1 as [-> ->].
    apply matches_Seq_inv in H as (x2 & y2 & c2 & -> & H2 & H).
    apply matches_Star_inv in H2 as [Hws1 ->].
    apply matches_Seq_inv in H as (x3 & y3 & c3 & -> & H3 & H).
    apply matches_Lit in H3 as [-> ->].
    apply matches_Seq_inv in H as (x4 & y4 & c4 & -> & H4 & H).
    apply matches_Star_inv in H4 as [Hws2 ->].
    apply matches_Seq_inv in H as (x5 & y5 & c5 & -> & H5 & H).
    apply matches_Lit in H5 as [-> ->].
    apply matches_Seq_inv in H as (x6 & y6 & c6 & -> & H6 & H).
    apply matches_Lit in H as [-> ->].
    apply matches_Group_inv in H6 as (c7 & H6 & ->).
    apply matches_Plus in H6 as (Hne & Hall & ->).
    exists x6. split; [|done]. exists x2, x4.
    split; [|done]. simpl. rewrite <- !app_assoc. simpl. done.
  - intros (v & (ws1 & ws2 & -> & H1 & H2 & Hne & Hv) & ->).
    replace (34 :: key ++ 34 :: ws1 ++ 58 :: ws2 ++ 34 :: v ++ [34])
      with ((34 :: key ++ [34]) ++ ws1 ++ [58] ++ ws2 ++ [34] ++ v ++ [34])
      by (simpl; rewrite <- !app_assoc; done).
    eapply matches_Seq; [by apply matches_Lit|].
    eapply matches_Seq; [by constructor|].
    eapply matches_Seq; [by apply matches_Lit|].
    eapply matches_Seq; [by constructor|].
    eapply matches_Seq; [by apply matches_Lit|].
    eapply matches_Seq; [|by apply matches_Lit].
    apply (matches_Group _ v [] []). by apply matches_Plus.
Qed.

Lemma run_then_stop (p : N -> bool) xs c t xs' c' t' :
  Forall (fun x => p x = true) xs -> Forall (fun x => p x = true) xs' ->
  p c = false -> p c' = false ->
  xs ++ c :: t = xs' ++ c' :: t' -> xs = xs' /\ c = c' /\ t = t'.
Proof.
  revert xs'. induction xs as [|x xs IH]; intros [|x' xs'] H1 H2 Hc Hc' E; simpl in E.
  - injection E; auto.
  - injection E as E1 E2. subst. inversion H2; congruence.
  - injection E as E1 E2. subst. inversion H1; congruence.
  - injection E as E1 E2. inversion H1; inversion H2; subst.
    destruct (IH xs') as (-> & -> & ->); auto.
Qed.

Lemma field_text_app key ws1 ws2 v rest :
  field_text key ws1 ws2 v ++ rest =
  34 :: key ++ 34 :: ws1 ++ 58 :: ws2 ++ 34 :: v ++ 34 :: rest.
Proof.
  unfold field_text. simpl. f_equal.
  rewrite <- app_assoc. simpl. do 2 f_equal.
  rewrite <- app_assoc. simpl. do 2 f_equal.
  rewrite <- app_assoc. simpl. do 2 f_equal.
  rewrite <- app_assoc. done.
Qed.

Lemma occurrence_unique key cls v v' t t' rest rest' :
  cls 34 = false ->
  occurrence key cls v t -> occurrence key cls v' t' ->
  t ++ rest = t' ++ rest' -> v = v' /\ t = t' /\ rest = rest'.
Proof.
  intros Hq (ws1 & ws2 & -> & H1 & H2 & _ & Hv) (ws1' & ws2' & -> & H1' & H2' & _ & Hv') E.
  rewrite !field_text_app in E. injection E as E. apply app_inv_head in E.
  injection E as E.
  apply run_then_stop with (p := re_s) in E as (-> & _ & E); [|done..].
  apply run_then_stop with (p := re_s) in E as (-> & _ & E); [|done..].
  apply run_then_stop with (p := cls) in E as (-> & _ & E); [|done..].
  done.
Qed.

Lemma match_at_keyRegex key cls s m :
  cls 34 = false ->
  match_at (keyRegex key cls) s = Some m <->
  exists v, occurrence key cls v (whole m) /\ s = whole m ++ after m /\ groups m = [v].
Proof.
  intros Hq. split.
  - intros H. apply match_at_Some in H as [E H].
    apply matches_keyRegex in H as (v & Hocc & Hg). eauto.
  - intros (v & Hocc & E & Hg).
    destruct (match_at (keyRegex key cls) s) as [m'|] eqn:Hm.
    + apply match_at_Some in Hm as [E' H'].
      apply matches_keyRegex in H' as (v' & Hocc' & Hg').
      rewrite E in E'.
      destruct (occurrence_unique _ _ _ _ _ _ _ _ Hq Hocc Hocc' E') as (-> & Hw & Ha).
      destruct m, m'; simpl in *; congruence.
    + exfalso. eapply match_at_None; [exact Hm|exact E|].
      apply matches_keyRegex. eauto.
Qed.

Lemma match_at_keyRegex_None key cls s :
  match_at (keyRegex key cls) s = None <-> forall v, ~ occurs_at key cls v s.
Proof.
  rewrite match_at_None. split.
  - intros H v (t & rest & -> & Hocc). eapply H; [done|].
    apply matches_keyRegex. eauto.
  - intros H xs rest caps -> Hm. apply matches_keyRegex in Hm as (v & Hocc & _).
    apply (H v). by exists xs, rest.
Qed.

Lemma quotes_app s t : quotes (s ++ t) = (quotes s + quotes t)%nat.
Proof. apply count_occ_app. Qed.

Lemma quotes_class (p : N -> bool) s :
  p 34 = false -> Forall (fun c => p c = true) s -> quotes s = 0%nat.
Proof.
  intros Hp H. apply count_occ_not_In. intros Hin.
  rewrite Forall_forall in H. specialize (H _ ltac:(by apply list_elem_of_In)). congruence.
Qed.

Lemma quote_free_quotes s : quote_free s = true -> quotes s = 0%nat.
Proof.
  intros H. apply (quotes_class (except 34)); [done|].
  unfold quote_free in H. rewrite forallb_forall in H.
  apply Forall_forall. intros c Hc. apply H. by apply list_elem_of_In.
Qed.

Lemma occurrence_quotes key cls v t :
  quote_free key = true -> cls 34 = false -> occurrence key cls v t ->
  quotes t = 4%nat /\ exists t0, t = t0 ++ [34].
Proof.
  intros Hk Hq (ws1 & ws2 & -> & H1 & H2 & _ & Hv). split.
  - unfold field_text.
    change (34 :: key ++ 34 :: ws1 ++ 58 :: ws2 ++ 34 :: v ++ [34])
      with ([34] ++ key ++ [34] ++ ws1 ++ [58] ++ ws2 ++ [34] ++ v ++ [34]).
    rewrite !quotes_app, (quote_free_quotes key), (quotes_class re_s ws1),
      (quotes_class re_s ws2), (quotes_class cls v); done.
  - exists (34 :: key ++ 34 :: ws1 ++ 58 :: ws2 ++ 34 :: v).
    unfold field_text. simpl. f_equal.
    repeat (rewrite <- app_assoc; simpl; do 2 f_equal).
Qed.

Lemma earlier_occurrence_local key cls v v' t pre rest :
  quote_free key = true -> cls 34 = false -> occurrence key cls v t ->
  occurs_at key cls v' (pre ++ t ++ rest) -> occurs_at key cls v' (pre ++ t).
Proof.
  intros Hk Hq Hocc (t' & rest' & E & Hocc').
  rewrite app_assoc in E. symmetry in E.
  apply app_eq_app in E as [z [[E1 E2]|[E1 E2]]].
  - destruct (occurrence_quotes _ _ _ _ Hk Hq Hocc) as [Q _].
    destruct (occurrence_quotes _ _ _ _ Hk Hq Hocc') as [Q' [t0 E0]].
    destruct z as [|c z] using rev_ind.
    + rewrite app_nil_r in E1. subst t'. exists (pre ++ t), []. by rewrite app_nil_r.
    + exfalso. clear IHz. rewrite E1, !app_assoc in E0.
      apply app_inj_tail in E0 as [_ ->].
      rewrite E1, !quotes_app, Q in Q'. unfold quotes at 3 in Q'. simpl in Q'. lia.
  - exists t', z. done.
Qed.

(** ** Fields of a context *)

Lemma field_first_occurrence key cls v pre t rest :
  quote_free key = true -> cls 34 = false ->
  first_occurrence key cls v pre t ->
  field (pre ++ t ++ rest) (keyRegex key cls) = Some v.
Proof.
  intros Hk Hq [Hocc Hfirst]. unfold field.
  assert (search (keyRegex key cls) (pre ++ t ++ rest) = Some (RMatch t [v] rest)) as ->;
    [|done].
  apply search_Some. exists pre, (t ++ rest). split; [done|]. split.
  - apply match_at_keyRegex; [done|]. exists v. done.
  - intros pre1 pre2 E Hne. apply match_at_keyRegex_None. intros v' H.
    apply (Hfirst pre1 pre2 E Hne v'). by eapply earlier_occurrence_local.
Qed.

Lemma field_Some key cls s v :
  cls 34 = false ->
  field s (keyRegex key cls) = Some v ->
  exists pre t rest, s = pre ++ t ++ rest /\ first_occurrence key cls v pre t.
Proof.
  intros Hq. unfold field.
  destruct (search (keyRegex key cls) s) as [m|] eqn:Hs; [|done].
  simpl. intros [= <-].
  apply search_Some in Hs as (pre & t0 & -> & Hm & Hleft).
  apply match_at_keyRegex in Hm as (v & Hocc & -> & Hg); [|done].
  exists pre, (whole m), (after m). split; [done|]. rewrite Hg. simpl.
  split; [done|].
  intros pre1 pre2 E Hne v' (t' & rest' & E' & Hocc').
  specialize (Hleft pre1 pre2 E Hne).
  rewrite match_at_keyRegex_None in Hleft. apply (Hleft v').
  exists t', (rest' ++ after m). split; [|done].
  rewrite !app_assoc, E', <- !app_assoc. done.
Qed.

Lemma field_None key cls s :
  field s (keyRegex key cls) = None <->
  forall pre t v, s = pre ++ t -> ~ occurs_at key cls v t.
Proof.
  unfold field. split.
  - destruct (search (keyRegex key cls) s) as [m|] eqn:Hs; [done|]. intros _.
    rewrite search_None in Hs. intros pre t v E.
    specialize (Hs pre t E). rewrite match_at_keyRegex_None in Hs. apply Hs.
  - intros H.
    assert (search (keyRegex key cls) s = None) as ->; [|done].
    apply search_None. intros pre t E. apply match_at_keyRegex_None.
    intros v. by apply (H pre).
Qed.

Lemma field_app key cls s more v :
  quote_free key = true -> cls 34 = false ->
  field s (keyRegex key cls) = Some v ->
  field (s ++ more) (keyRegex key cls) = Some v.
Proof.
  intros Hk Hq H. apply field_Some in H as (pre & t & rest & -> & Hfirst); [|done].
  rewrite <- !app_assoc. by apply field_first_occurrence.
Qed.

Lemma search_field r s :
  field s r = option_map group1 (String_match s r).
Proof. done. Qed.

Lemma field_has_field key cls ctx v :
  quote_free key = true -> cls 34 = false ->
  field ctx (keyRegex key cls) = Some v <-> has_field key cls ctx v.
Proof.
  intros Hk Hq. split.
  - by apply field_Some.
  - intros (pre & t & rest & -> & H). by apply field_first_occurrence.
Qed.

Lemma mergedRegex_key : mergedRegex = keyRegex (js "merged") re_w.
Proof. reflexivity. Qed.

Lemma loginRegex_key : loginRegex = keyRegex (js "login") (except 34).
Proof. reflexivity. Qed.

Lemma idRegex_key : idRegex = keyRegex (js "id") re_d.
Proof. reflexivity. Qed.

Lemma field_merged ctx v :
  field ctx mergedRegex = Some v <-> has_field (js "merged") re_w ctx v.
Proof. rewrite mergedRegex_key. by apply field_has_field. Qed.

Lemma field_login ctx v :
  field ctx loginRegex = Some v <-> has_field (js "login") (except 34) ctx v.
Proof. rewrite loginRegex_key. by apply field_has_field. Qed.

Lemma field_id ctx v :
  field ctx idRegex = Some v <-> has_field (js "id") re_d ctx v.
Proof. rewrite idRegex_key. by apply field_has_field. Qed.

Lemma jsstring_eqb_true a b : jsstring_eqb a b = true <-> a = b.
Proof. unfold jsstring_eqb. apply bool_decide_eq_true. Qed.

(** The verdict in terms of the extracted fields. *)
Lemma verifyProofData_fields pr user :
  _verifyProofData pr user =
  let unknown_or (o : option jsstring) := default (js "unknown") o in
  let same (a b : option jsstring) :=
    match a, b with
    | Some x, Some y => jsstring_eqb x y
    | _, _ => false
    end in
  let isMerged := same (field pr mergedRegex) (Some (js "true")) in
  let isValidUser := same (field pr loginRegex) (field user loginRegex) in
  let isValidId := same (field pr idRegex) (field user idRegex) in
  {| Verification.isMerged := isMerged;
     Verification.isValidUser := isValidUser;
     Verification.isValidId := isValidId;
     Verification.githubUsername := unknown_or (field pr loginRegex);
     Verification.githubUserId := unknown_or (field pr idRegex);
     Verification.userLogin := unknown_or (field user loginRegex);
     Verification.userId := unknown_or (field user idRegex);
     Verification.isValid := isMerged && isValidUser && isValidId |}.
Proof.
  unfold _verifyProofData, field, String_match, group1.
  destruct (search mergedRegex pr), (search loginRegex pr), (search idRegex pr),
    (search loginRegex user), (search idRegex user); reflexivity.
Qed.

Lemma verifyProofData_spec pr user :
  let v := _verifyProofData pr user in
  (Verification.isMerged v = true <->
     has_field (js "merged") re_w pr (js "true")) /\
  (Verification.isValidUser v = true <->
     exists login, has_field (js "login") (except 34) pr login /\
                   has_field (js "login") (except 34) user login) /\
  (Verification.isValidId v = true <->
     exists id, has_field (js "id") re_d pr id /\ has_field (js "id") re_d user id) /\
  Verification.isValid v =
    Verification.isMerged v && Verification.isValidUser v && Verification.isValidId v.
Proof.
  rewrite verifyProofData_fields. cbv zeta. cbn [Verification.isMerged
    Verification.isValidUser Verification.isValidId Verification.isValid].
  split; [|split; [|split; [|done]]].
  - rewrite <- field_merged. destruct (field pr mergedRegex) as [x|]; [|done].
    rewrite jsstring_eqb_true. split; congruence.
  - setoid_rewrite <- field_login.
    destruct (field pr loginRegex) as [x|], (field user loginRegex) as [y|];
      try (split; [done|intros (? & ? & ?); done]).
    rewrite jsstring_eqb_true. split.
    + intros ->. eauto.
    + intros (l & [= ->] & [= ->]). done.
  - setoid_rewrite <- field_id.
    destruct (field pr idRegex) as [x|], (field user idRegex) as [y|];
      try (split; [done|intros (? & ? & ?); done]).
    rewrite jsstring_eqb_true. split.
    + intros ->. eauto.
    + intros (l & [= ->] & [= ->]). done.
Qed.

(** C1.  When a PR context (first match) and a user context (second
    match) are extracted from a payload, the verdict is computed, and in
    it: [isMerged] holds exactly when the PR context has a [merged] field
    whose quoted value is [true]; [isValidUser] exactly when both contexts
    have a quoted [login] and the two are equal; [isValidId] exactly when
    both have a quoted numeric [id] and the two are equal; and [isValid] is
    the conjunction of the three.  The field of a context is the one its
    pattern search finds, the first in the text. *)
Theorem verdict_of_extracted_contexts
    (prProofData userProofData : json) (m0 m1 : rmatch) (more : list rmatch) :
  String_matchAll
    (JSON_stringify (JObj [(js "prProofData", prProofData);
                           (js "userProofData", userProofData)]))
    contextRegex = m0 :: m1 :: more ->
  let prContext := JSON_stringify (_parseJSONSafely (group1 m0)) in
  let userContext := JSON_stringify (_parseJSONSafely (group1 m1)) in
  exists v,
    _extractAndVerifyProof prProofData userProofData = Val v /\
    v = _verifyProofData prContext userContext /\
    (Verification.isMerged v = true <->
       has_field (js "merged") re_w prContext (js "true")) /\
    (Verification.isValidUser v = true <->
       exists login, has_field (js "login") (except 34) prContext login /\
                     has_field (js "login") (except 34) userContext login) /\
    (Verification.isValidId v = true <->
       exists id, has_field (js "id") re_d prContext id /\
                  has_field (js "id") re_d userContext id) /\
    Verification.isValid v =
      Verification.isMerged v && Verification.isValidUser v && Verification.isValidId v.
Proof.
  intros Hm prContext userContext.
  exists (_verifyProofData prContext userContext).
  split; [|split; [done|apply verifyProofData_spec]].
  unfold _extractAndVerifyProof. rewrite Hm. done.
Qed.

(** ** Runs of programs *)

Lemma after_calls_nil {A} (o : outcome World A) : after_calls [] o = o.
Proof. by destruct o. Qed.

Lemma after_calls_app {A} (cs1 cs2 : list call) (o : outcome World A) :
  after_calls cs1 (after_calls cs2 o) = after_calls (cs1 ++ cs2) o.
Proof. unfold after_calls. simpl. by rewrite app_assoc. Qed.

Lemma exec_Await {A} c (cont : result (response c) -> prog A) S w :
  exec oracle clock (Await c cont) S w =
  after_calls [c] (exec oracle clock (cont (oracle c w).1) S (oracle c w).2).
Proof. simpl. destruct (oracle c w) as [r w']. done. Qed.

Lemma exec_DateNow {A} (cont : N -> prog A) S w :
  exec oracle clock (DateNow cont) S w =
  exec oracle clock (cont (clock w).1) S (clock w).2.
Proof. simpl. destruct (clock w) as [t w']. done. Qed.

Lemma and_then_after_calls {A B} (cs : list call) (o : outcome World A)
    (k : A -> gset jsstring -> World -> outcome World B) :
  and_then (after_calls cs o) k = after_calls cs (and_then o k).
Proof.
  destruct o as [[a|e] S w cs']; unfold and_then, after_calls; simpl; [|done].
  by rewrite app_assoc.
Qed.

Lemma or_catch_after_calls {A} (cs : list call) (o : outcome World A) h :
  or_catch (after_calls cs o) h = after_calls cs (or_catch o h).
Proof.
  destruct o as [[a|e] S w cs']; unfold or_catch, after_calls; simpl; [done|].
  by rewrite app_assoc.
Qed.

Lemma and_finally_after_calls {A} (cs : list call) (o : outcome World A) f :
  and_finally (after_calls cs o) f = after_calls cs (and_finally o f).
Proof.
  destruct o as [r S w cs']; unfold and_finally, after_calls; simpl.
  destruct (ended (f S w)); simpl; by rewrite app_assoc.
Qed.

Lemma exec_bind {A B} (p : prog A) (f : A -> prog B) S w :
  exec oracle clock (bind p f) S w =
  and_then (exec oracle clock p S w) (fun a S' w' => exec oracle clock (f a) S' w').
Proof.
  revert S w. induction p as [a|e|k cont IH|k cont IH|k cont IH|cont IH|c cont IH];
    intros S w; cbn [bind].
  - simpl. unfold and_then. simpl. by rewrite after_calls_nil.
  - done.
  - simpl. apply IH.
  - simpl. apply IH.
  - simpl. apply IH.
  - rewrite !exec_DateNow. apply IH.
  - rewrite !exec_Await, IH. by rewrite and_then_after_calls.
Qed.

Lemma exec_try_catch {A} (p : prog A) (h : error -> prog A) S w :
  exec oracle clock (try_catch p h) S w =
  or_catch (exec oracle clock p S w) (fun e S' w' => exec oracle clock (h e) S' w').
Proof.
  revert S w. induction p as [a|e|k cont IH|k cont IH|k cont IH|cont IH|c cont IH];
    intros S w; cbn [try_catch].
  - done.
  - simpl. unfold or_catch. simpl. by rewrite after_calls_nil.
  - simpl. apply IH.
  - simpl. apply IH.
  - simpl. apply IH.
  - rewrite !exec_DateNow. apply IH.
  - rewrite !exec_Await, IH. by rewrite or_catch_after_calls.
Qed.

Lemma exec_try_finally {A} (p : prog A) (f : prog unit) S w :
  exec oracle clock (try_finally p f) S w =
  and_finally (exec oracle clock p S w) (fun S' w' => exec oracle clock f S' w').
Proof.
  revert S w. induction p as [a|e|k cont IH|k cont IH|k cont IH|cont IH|c cont IH];
    intros S w; cbn [try_finally].
  - rewrite exec_bind. unfold and_then, and_finally, after_calls. simpl.
    destruct (exec oracle clock f S w) as [[[]|e'] S' w' cs]; simpl;
      rewrite ?app_nil_r; done.
  - rewrite exec_bind. unfold and_then, and_finally, after_calls. simpl.
    destruct (exec oracle clock f S w) as [[[]|e'] S' w' cs]; simpl;
      rewrite ?app_nil_r; done.
  - simpl. apply IH.
  - simpl. apply IH.
  - simpl. apply IH.
  - rewrite !exec_DateNow. apply IH.
  - rewrite !exec_Await, IH. by rewrite and_finally_after_calls.
Qed.

Lemma exec_await c S w :
  exec oracle clock (await c) S w = Outcome (oracle c w).1 S (oracle c w).2 [c].
Proof. unfold await. rewrite exec_Await. by destruct (oracle c w).1. Qed.

Lemma exec_lift {A} (r : result A) S w :
  exec oracle clock (lift r) S w = Outcome r S w [].
Proof. by destruct r. Qed.

Lemma leaves_guard_alone_bind {A B} (p : prog A) (f : A -> prog B) :
  leaves_guard_alone p -> (forall a, leaves_guard_alone (f a)) ->
  leaves_guard_alone (bind p f).
Proof. induction 1; intros Hf; simpl; auto; constructor; auto. Qed.

Lemma leaves_guard_alone_try_catch {A} (p : prog A) (h : error -> prog A) :
  leaves_guard_alone p -> (forall e, leaves_guard_alone (h e)) ->
  leaves_guard_alone (try_catch p h).
Proof. induction 1; intros Hh; simpl; auto; constructor; auto. Qed.

Lemma leaves_guard_alone_await c : leaves_guard_alone (await c).
Proof. constructor. intros [a|e]; constructor. Qed.

Lemma leaves_guard_alone_lift {A} (r : result A) : leaves_guard_alone (lift r).
Proof. destruct r; constructor. Qed.

Lemma exec_leaves_guard_alone {A} (p : prog A) S w :
  leaves_guard_alone p -> tasks_after (exec oracle clock p S w) = S.
Proof.
  intros H. revert w. induction H as [a|e|cont _ IH|c cont _ IH]; intros w.
  - done.
  - done.
  - rewrite exec_DateNow. apply IH.
  - rewrite exec_Await. simpl. apply IH.
Qed.

Lemma releases_try_finally (p : prog unit) k :
  leaves_guard_alone p -> releases k (try_finally p (Delete k (Ret tt))).
Proof. induction 1 as [[]| | |]; simpl; constructor; auto. Qed.

(** ** verifyPR *)

Ltac exec_steps :=
  repeat first
    [ rewrite exec_try_catch | rewrite exec_bind | rewrite exec_lift
    | rewrite exec_await | rewrite exec_DateNow | rewrite after_calls_nil
    | progress unfold and_then | progress unfold or_catch
    | progress unfold and_finally
    | progress cbn [ended tasks_after world_after calls fst snd exec after_calls app] ].

Lemma exec_verifyPR prLink accessToken S w :
  exec oracle clock (verifyPR prLink accessToken) S w =
  verifyPR_outcome prLink accessToken S w.
Proof.
  unfold verifyPR, verifyPR_outcome, _callZKTLSAPI, _createZKProof.
  exec_steps.
  destruct (_validatePRLink prLink) as [m|e]; exec_steps; [|done].
  destruct (encodeURIComponent prLink) as [encoded|e]; exec_steps; [|done].
  destruct (oracle (zkTLS_request accessToken encoded) w) as [[response|e] w1];
    exec_steps; [|done].
  destruct (proofData_of (data response)) as [[pr user]|e]; exec_steps; [|done].
  destruct (_extractAndVerifyProof pr user) as [v|e]; exec_steps; [|done].
  destruct (clock w1) as [now w2]; exec_steps.
  destruct (hexlify_toUtf8Bytes _) as [zk|e]; exec_steps; done.
Qed.

Lemma verifyPR_leaves_guard_alone prLink accessToken :
  leaves_guard_alone (verifyPR prLink accessToken).
Proof.
  unfold verifyPR. apply leaves_guard_alone_try_catch; [|constructor].
  apply leaves_guard_alone_bind; [apply leaves_guard_alone_lift|]. intros _.
  apply leaves_guard_alone_bind.
  - unfold _callZKTLSAPI.
    apply leaves_guard_alone_bind; [apply leaves_guard_alone_lift|]. intros encoded.
    apply leaves_guard_alone_bind; [apply leaves_guard_alone_await|]. intros response.
    apply leaves_guard_alone_lift.
  - intros proofs. cbv zeta.
    apply leaves_guard_alone_bind; [apply leaves_guard_alone_lift|]. intros v.
    apply leaves_guard_alone_bind; [|constructor].
    unfold _createZKProof. constructor. intros now. apply leaves_guard_alone_lift.
Qed.

Lemma verifyPR_outcome_spec prLink accessToken S w :
  let ov := verifyPR_outcome prLink accessToken S w in
  tasks_after ov = S /\
  (calls ov = [] \/ exists encoded, calls ov = [zkTLS_request accessToken encoded]) /\
  (forall e, ended ov = Exn e ->
     exists e', e = js "zkTLS verification failed: " ++ e') /\
  (forall verdict, ended ov = Val verdict ->
     exists encoded response prProofData userProofData v,
       String_match prLink prLinkRegex <> None /\
       encodeURIComponent prLink = Val encoded /\
       (oracle (zkTLS_request accessToken encoded) w).1 = Val response /\
       proofData_of (data response) = Val (prProofData, userProofData) /\
       _extractAndVerifyProof prProofData userProofData = Val v /\
       Verdict.isValid verdict = Verification.isValid v).
Proof.
  unfold verifyPR_outcome, _validatePRLink.
  destruct (String_match prLink prLinkRegex) as [m|] eqn:Hm.
  2:{ cbn. split; [done|]. split; [by left|]. split; [|done].
      intros ? [= <-]. by eexists. }
  destruct (encodeURIComponent prLink) as [encoded|e] eqn:Henc.
  2:{ cbn. split; [done|]. split; [by left|]. split; [|done].
      intros ? [= <-]. by eexists. }
  cbv zeta.
  destruct (oracle (zkTLS_request accessToken encoded) w) as [[response|e] w1] eqn:Ho;
    cbn [fst snd].
  2:{ cbn. split; [done|]. split; [right; by eexists|]. split; [|done].
      intros ? [= <-]. by eexists. }
  destruct (proofData_of (data response)) as [[pr user]|e] eqn:Hp.
  2:{ cbn. split; [done|]. split; [right; by eexists|]. split; [|done].
      intros ? [= <-]. by eexists. }
  destruct (_extractAndVerifyProof pr user) as [v|e] eqn:Hv.
  2:{ cbn. split; [done|]. split; [right; by eexists|]. split; [|done].
      intros ? [= <-]. by eexists. }
  destruct (hexlify_toUtf8Bytes _) as [zk|e] eqn:Hz.
  2:{ cbn. split; [done|]. split; [right; by eexists|]. split; [|done].
      intros ? [= <-]. by eexists. }
  cbn. split; [done|]. split; [right; by eexists|]. split; [done|].
  intros verdict [= <-]. exists encoded, response, pr, user, v.
  rewrite Ho. done.
Qed.

Lemma verifyPR_fails prLink accessToken S w :
  verifyPR_step_fails prLink accessToken w ->
  exists e, ended (exec oracle clock (verifyPR prLink accessToken) S w)
            = Exn (js "zkTLS verification failed: " ++ e).
Proof.
  intros Hfail. rewrite exec_verifyPR.
  destruct (ended (verifyPR_outcome prLink accessToken S w)) as [verdict|e] eqn:He.
  - exfalso.
    apply verifyPR_outcome_spec in He
      as (encoded & response & pr & user & v & Hlink & Henc & Ho & Hp & Hv & Hval).
    destruct Hfail as [Hl|enc' e Henc' Ho'|enc' r' Henc' Ho' Ht|enc' r' pr' user' e Henc' Ho' Hpr Hus He'].
    + done.
    + rewrite Henc in Henc'. injection Henc' as <-. rewrite Ho in Ho'. done.
    + rewrite Henc in Henc'. injection Henc' as <-.
      rewrite Ho in Ho'. injection Ho' as <-.
      unfold proofData_of in Hp.
      destruct (data response); try done; cbn [get_prop] in *;
        destruct (assoc (js "prProofData") props) eqn:E1; try done;
        destruct (assoc (js "userProofData") props) eqn:E2; try done;
        destruct Ht as [Ht|Ht]; rewrite Ht in Hp; cbn [negb orb] in Hp;
        rewrite ?orb_true_r in Hp; done.
    + rewrite Henc in Henc'. injection Henc' as <-.
      rewrite Ho in Ho'. injection Ho' as <-.
      unfold proofData_of in Hp.
      destruct (data response); try done; cbn [get_prop] in *;
        rewrite Hpr, Hus in Hp;
        destruct (negb _ || negb _); try done; congruence.
  - apply verifyPR_outcome_spec in He as [e' ->]. eauto.
Qed.

Lemma exec_processTask_present taskId S w :
  toString taskId ∈ S ->
  exec oracle clock (processTask taskId) S w = Outcome (Val tt) S w [].
Proof. intros H. unfold processTask. cbn [exec]. by rewrite bool_decide_eq_true_2. Qed.

Lemma guard_restored (k : jsstring) (S : gset jsstring) :
  k ∉ S -> ({[k]} ∪ S) ∖ {[k]} = S.
Proof. clear. set_solver. Qed.

Lemma exec_processTask taskId S w :
  toString taskId ∉ S ->
  exec oracle clock (processTask taskId) S w = processTask_outcome taskId S w.
Proof.
  intros H. unfold processTask, processTask_outcome. cbn [exec].
  rewrite bool_decide_eq_false_2 by done.
  pose proof (guard_restored _ _ H) as HS.
  exec_steps. rewrite exec_try_finally.
  exec_steps.
  destruct (oracle (getTask taskId) w) as [[task|e] w1]; exec_steps;
    [|f_equal; exact HS].
  unfold _getAccessToken. exec_steps.
  destruct (oracle (getClaim _ _) w1) as [[claimResult|e] w2]; exec_steps;
    [|f_equal; exact HS].
  pose proof (exec_leaves_guard_alone
                (verifyPR (Task.prLink task)
                   (js_or (Some (Claim._5 claimResult)) (js_or None [])))
                ({[toString taskId]} ∪ S) w2
                (verifyPR_leaves_guard_alone _ _)) as Hg.
  destruct (exec oracle clock (verifyPR _ _) _ w2) as [[verdict|e] S' w' cs] eqn:Hv;
    exec_steps; cbn in Hg; subst S';
    [|f_equal; first [exact HS|by rewrite ?app_nil_r]].
  unfold _submitValidation. exec_steps.
  destruct (oracle (submitValidation _ _ _) w') as [[receipt|e] w3]; exec_steps;
    f_equal; first [exact HS|by rewrite ?app_nil_r].
Qed.

(** ** Claims about extraction and decision *)

Lemma field_lacks key cls ctx :
  quote_free key = true -> cls 34 = false ->
  ~ (exists v, has_field key cls ctx v) -> field ctx (keyRegex key cls) = None.
Proof.
  intros Hk Hq H. destruct (field ctx (keyRegex key cls)) as [v|] eqn:E; [|done].
  destruct H. exists v. by apply field_has_field.
Qed.

(** C9.  Each of the three patterns contributes the value of its first
    occurrence in a context and nothing else.  Whatever follows the first
    [merged] field of the PR context, [isMerged] tells whether its value
    is [true]; whatever follows the first [login] field of a context,
    further [login] fields included, that first value is the one reported
    and compared, and likewise for [id]; each of these holds whether or
    not the other fields are there.  A pattern that occurs nowhere in a
    context yields [unknown] and makes its flag false. *)
Theorem first_occurrence_decides (pr user pr_more user_more : jsstring) :
  let v := _verifyProofData (pr ++ pr_more) (user ++ user_more) in
  (forall merged, has_field (js "merged") re_w pr merged ->
     (Verification.isMerged v = true <-> merged = js "true")) /\
  (forall login, has_field (js "login") (except 34) pr login ->
     Verification.githubUsername v = login) /\
  (forall id, has_field (js "id") re_d pr id ->
     Verification.githubUserId v = id) /\
  (forall login, has_field (js "login") (except 34) user login ->
     Verification.userLogin v = login) /\
  (forall id, has_field (js "id") re_d user id ->
     Verification.userId v = id) /\
  (forall prLogin userLogin,
     has_field (js "login") (except 34) pr prLogin ->
     has_field (js "login") (except 34) user userLogin ->
     (Verification.isValidUser v = true <-> prLogin = userLogin)) /\
  (forall prId userId,
     has_field (js "id") re_d pr prId ->
     has_field (js "id") re_d user userId ->
     (Verification.isValidId v = true <-> prId = userId)) /\
  (~ (exists merged, has_field (js "merged") re_w (pr ++ pr_more) merged) ->
     Verification.isMerged v = false) /\
  (~ (exists login, has_field (js "login") (except 34) (pr ++ pr_more) login) ->
     Verification.githubUsername v = js "unknown" /\ Verification.isValidUser v = false) /\
  (~ (exists id, has_field (js "id") re_d (pr ++ pr_more) id) ->
     Verification.githubUserId v = js "unknown" /\ Verification.isValidId v = false) /\
  (~ (exists login, has_field (js "login") (except 34) (user ++ user_more) login) ->
     Verification.userLogin v = js "unknown" /\ Verification.isValidUser v = false) /\
  (~ (exists id, has_field (js "id") re_d (user ++ user_more) id) ->
     Verification.userId v = js "unknown" /\ Verification.isValidId v = false) /\
  Verification.isValid v =
    Verification.isMerged v && Verification.isValidUser v && Verification.isValidId v.
Proof.
  cbv zeta. rewrite verifyProofData_fields. cbv zeta.
  cbn [Verification.isMerged Verification.isValidUser Verification.isValidId
       Verification.githubUsername Verification.githubUserId Verification.userLogin
       Verification.userId Verification.isValid].
  rewrite mergedRegex_key, loginRegex_key, idRegex_key.
  assert (forall key cls ctx more x,
            quote_free key = true -> cls 34 = false ->
            has_field key cls ctx x ->
            field (ctx ++ more) (keyRegex key cls) = Some x) as Hfirst.
  { intros key cls ctx more x Hk Hq H. apply field_app; [done|done|].
    by apply field_has_field. }
  split; [|split; [|split; [|split; [|split; [|split; [|split; [|split;
    [|split; [|split; [|split; [|split; [|done]]]]]]]]]]]].
  - intros merged H. rewrite (Hfirst _ _ _ _ merged) by done. apply jsstring_eqb_true.
  - intros login H. by rewrite (Hfirst _ _ _ _ login).
  - intros id H. by rewrite (Hfirst _ _ _ _ id).
  - intros login H. by rewrite (Hfirst _ _ _ _ login).
  - intros id H. by rewrite (Hfirst _ _ _ _ id).
  - intros prLogin userLogin H1 H2.
    rewrite (Hfirst _ _ pr _ prLogin), (Hfirst _ _ user _ userLogin) by done.
    apply jsstring_eqb_true.
  - intros prId userId H1 H2.
    rewrite (Hfirst _ _ pr _ prId), (Hfirst _ _ user _ userId) by done.
    apply jsstring_eqb_true.
  - intros H. by rewrite field_lacks.
  - intros H. by rewrite field_lacks.
  - intros H. by rewrite field_lacks.
  - intros H. rewrite (field_lacks (js "login") _ (user ++ user_more)) by done.
    split; [done|]. by destruct (field _ _).
  - intros H. rewrite (field_lacks (js "id") _ (user ++ user_more)) by done.
    split; [done|]. by destruct (field _ _).
Qed.

Lemma empty_record_fields :
  field (js "{}") mergedRegex = None /\
  field (js "{}") loginRegex = None /\
  field (js "{}") idRegex = None.
Proof. by vm_compute. Qed.

(** C7.  A context fragment whose un-escaped text does not parse yields
    the empty record, nothing is thrown, and the decision completes with
    every fact drawn from that fragment false: all three for the PR
    fragment, the login and id comparisons for the user fragment. *)
Theorem unparsable_fragment_degrades (fragment : jsstring) :
  JSON_parse (String_replace fragment escapedQuoteRegex (js "'")) = None ->
  _parseJSONSafely fragment = JObj [] /\
  forall (prProofData userProofData : json) (m0 m1 : rmatch) (more : list rmatch),
    String_matchAll
      (JSON_stringify (JObj [(js "prProofData", prProofData);
                             (js "userProofData", userProofData)]))
      contextRegex = m0 :: m1 :: more ->
    exists v,
      _extractAndVerifyProof prProofData userProofData = Val v /\
      (group1 m0 = fragment ->
         Verification.isMerged v = false /\ Verification.isValidUser v = false /\
         Verification.isValidId v = false /\ Verification.isValid v = false) /\
      (group1 m1 = fragment ->
         Verification.isValidUser v = false /\ Verification.isValidId v = false /\
         Verification.isValid v = false).
Proof.
  intros Hparse.
  assert (_parseJSONSafely fragment = JObj []) as Hempty.
  { unfold _parseJSONSafely. by rewrite Hparse. }
  split; [done|].
  intros prProofData userProofData m0 m1 more Hm.
  unfold _extractAndVerifyProof. rewrite Hm. eexists. split; [done|].
  destruct empty_record_fields as (Em & El & Ei).
  rewrite verifyProofData_fields. cbv zeta.
  cbn [Verification.isMerged Verification.isValidUser Verification.isValidId
       Verification.isValid].
  split.
  - intros ->. rewrite Hempty.
    change (JSON_stringify (JObj [])) with (js "{}").
    rewrite Em, El, Ei. cbv beta. done.
  - intros ->. rewrite Hempty.
    change (JSON_stringify (JObj [])) with (js "{}").
    rewrite El, Ei. cbv beta. clear Em El Ei.
    destruct (field _ loginRegex), (field _ idRegex);
      rewrite ?andb_false_r; done.
Qed.

(** C4.  A payload whose serialization has fewer than two context
    fragments makes the extraction throw [Could not extract context from
    proof data], and whenever the proof service answers with such a payload
    [verifyPR] throws: it returns no verdict, valid or not. *)
Theorem too_few_contexts (prProofData userProofData : json) :
  (length
     (String_matchAll
        (JSON_stringify (JObj [(js "prProofData", prProofData);
                               (js "userProofData", userProofData)]))
        contextRegex) < 2)%nat ->
  _extractAndVerifyProof prProofData userProofData
    = Exn (js "Could not extract context from proof data") /\
  forall (prLink accessToken encoded : jsstring) (response : HttpResponse)
         (S : gset jsstring) (w : World),
    encodeURIComponent prLink = Val encoded ->
    (oracle (zkTLS_request accessToken encoded) w).1 = Val response ->
    get_prop (data response) (js "prProofData") = Some prProofData ->
    get_prop (data response) (js "userProofData") = Some userProofData ->
    exists e,
      ended (exec oracle clock (verifyPR prLink accessToken) S w)
        = Exn (js "zkTLS verification failed: " ++ e).
Proof.
  intros Hlen.
  assert (_extractAndVerifyProof prProofData userProofData
          = Exn (js "Could not extract context from proof data")) as Hex.
  { unfold _extractAndVerifyProof.
    destruct (String_matchAll _ contextRegex) as [|m0 [|m1 more]]; try done.
    simpl in Hlen. lia. }
  split; [done|].
  intros prLink accessToken encoded response S w Henc Ho Hpr Huser.
  apply verifyPR_fails. eapply extraction_failure; eauto.
Qed.

(** ** The guard of processTask *)

Lemma processTask_body_leaves_guard_alone (taskId : N) :
  leaves_guard_alone
    (try_catch
       (let* task := await (getTask taskId) in
        let* accessToken := _getAccessToken task in
        let* verdict := verifyPR (Task.prLink task) accessToken in
        let* _ := _submitValidation taskId (Verdict.isValid verdict)
                    (Verdict.zkProof verdict) in
        Ret tt)
       (fun error => Throw error)).
Proof.
  apply leaves_guard_alone_try_catch; [|constructor].
  apply leaves_guard_alone_bind; [apply leaves_guard_alone_await|]. intros task.
  apply leaves_guard_alone_bind.
  { unfold _getAccessToken.
    apply leaves_guard_alone_bind; [apply leaves_guard_alone_await|]. constructor. }
  intros accessToken.
  apply leaves_guard_alone_bind; [apply verifyPR_leaves_guard_alone|]. intros verdict.
  apply leaves_guard_alone_bind; [|constructor].
  unfold _submitValidation.
  apply leaves_guard_alone_bind; [apply leaves_guard_alone_await|]. constructor.
Qed.

Lemma run_sync_processTask_present (taskId : N) (g : gset jsstring) (w : World) :
  toString taskId ∈ g ->
  run_sync clock (processTask taskId) g w = (Ret tt, g, w).
Proof. intros H. unfold processTask. cbn [run_sync]. by rewrite bool_decide_eq_true_2. Qed.

Lemma run_sync_processTask_absent (taskId : N) (g : gset jsstring) (w : World) :
  toString taskId ∉ g ->
  exists cont,
    run_sync clock (processTask taskId) g w
      = (Await (getTask taskId) cont, {[toString taskId]} ∪ g, w) /\
    releases (toString taskId) (Await (getTask taskId) cont).
Proof.
  intros H. unfold processTask. cbn [run_sync].
  rewrite bool_decide_eq_false_2 by done.
  pose proof (releases_try_finally _ (toString taskId)
                (processTask_body_leaves_guard_alone taskId)) as Hrel.
  revert Hrel. cbn [bind try_catch try_finally await run_sync]. eauto.
Qed.

Lemma run_sync_releases (k : jsstring) (p : prog unit) (g : gset jsstring) (w : World) :
  releases k p ->
  exists p' w',
    (run_sync clock p g w = (p', g, w') /\ suspended p' = true /\ releases k p') \/
    (run_sync clock p g w = (p', g ∖ {[k]}, w') /\ suspended p' = false /\ finished p').
Proof.
  intros H. revert w. induction H as [|e|cont _ IH|c cont Hc _]; intros w.
  - exists (Ret tt), w. right. split; [done|]. split; [done|]. by left.
  - exists (Throw e), w. right. split; [done|]. split; [done|]. right. eauto.
  - cbn [run_sync]. destruct (clock w) as [t w1]. apply IH.
  - exists (Await c cont), w. left. split; [done|]. split; [done|]. by constructor.
Qed.

Lemma in_flight_app (g g0 : gset jsstring) (l : list (N * prog unit)) (tid : N)
    (p : prog unit) (w w0 : World) (a a0 : list (nat * call)) (i : nat) (k : jsstring) :
  in_flight (Pool g (l ++ [(tid, p)]) w a) i k <->
  in_flight (Pool g0 l w0 a0) i k \/
  (i = length l /\ suspended p = true /\ toString tid = k).
Proof.
  unfold in_flight. cbn [attempts]. split.
  - intros (t & q & H & Hs & Hk). apply lookup_app_Some in H as [H|[Hle H]].
    + left. eauto.
    + apply list_lookup_singleton_Some in H as [H0 [= <- <-]].
      right. split; [lia|done].
  - intros [(t & q & H & Hs & Hk)|(-> & Hs & Hk)].
    + exists t, q. split; [|done]. by apply lookup_app_l_Some.
    + exists tid, p. split; [|done]. apply lookup_app_Some. right.
      split; [done|]. by rewrite Nat.sub_diag.
Qed.

Lemma in_flight_insert (g g0 : gset jsstring) (l : list (N * prog unit)) (tid : N)
    (p p0 : prog unit) (w w0 : World) (a a0 : list (nat * call))
    (i j : nat) (k : jsstring) :
  l !! i = Some (tid, p0) ->
  in_flight (Pool g (<[i := (tid, p)]> l) w a) j k <->
  (j = i /\ suspended p = true /\ toString tid = k) \/
  (j <> i /\ in_flight (Pool g0 l w0 a0) j k).
Proof.
  intros Hi. unfold in_flight. cbn [attempts]. split.
  - intros (t & q & H & Hs & Hk).
    apply list_lookup_insert_Some in H as [(-> & [= <- <-] & _)|[Hne H]].
    + by left.
    + right. split; [done|]. eauto.
  - intros [(-> & Hs & Hk)|(Hne & t & q & H & Hs & Hk)].
    + exists tid, p. split; [|done]. apply list_lookup_insert_eq.
      by eapply lookup_lt_Some.
    + exists t, q. split; [|done]. by rewrite list_lookup_insert_ne.
Qed.

Lemma guard_invariant_init (w : World) : guard_invariant (pool_init w).
Proof.
  constructor; unfold in_flight, pool_init; cbn.
  - intros k. split; [set_solver|]. intros (i & taskId & p & H & _). done.
  - intros i j k (taskId & p & H & _). done.
  - intros i taskId p H. done.
Qed.

Lemma guard_invariant_Call (st : pool World) (taskId : N) :
  guard_invariant st ->
  guard_invariant (pool_step oracle clock processTask st (Call taskId)).
Proof.
  intros [Hholds Hexcl Hrel]. cbn [pool_step].
  destruct (decide (toString taskId ∈ guard st)) as [Hin|Hnot].
  - rewrite run_sync_processTask_present by done.
    constructor; cbn [guard attempts].
    + intros k. rewrite Hholds. split.
      * intros [i Hi]. exists i.
        apply (in_flight_app _ (guard st) _ _ _ _ (pool_world st) _ (awaited st)).
        left. by destruct st.
      * intros [i Hi].
        apply (in_flight_app _ (guard st) _ _ _ _ (pool_world st) _ (awaited st)) in Hi
          as [Hi|(_ & Hs & _)]; [|done].
        exists i. by destruct st.
    + intros i j k Hi Hj.
      apply (in_flight_app _ (guard st) _ _ _ _ (pool_world st) _ (awaited st)) in Hi
        as [Hi|(_ & Hs & _)]; [|done].
      apply (in_flight_app _ (guard st) _ _ _ _ (pool_world st) _ (awaited st)) in Hj
        as [Hj|(_ & Hs & _)]; [|done].
      apply (Hexcl i j k); by destruct st.
    + intros i tid p H. apply lookup_app_Some in H as [H|[_ H]].
      * by apply (Hrel i).
      * apply list_lookup_singleton_Some in H as [_ [= <- <-]]. by left.
  - destruct (run_sync_processTask_absent taskId (guard st) (pool_world st) Hnot)
      as (cont & -> & Hreleases).
    constructor; cbn [guard attempts].
    + intros k. split.
      * intros Hk. apply elem_of_union in Hk as [Hk|Hk].
        -- apply elem_of_singleton in Hk as ->. exists (length (attempts st)).
           apply (in_flight_app _ (guard st) _ _ _ _ (pool_world st) _ (awaited st)).
           by right.
        -- apply Hholds in Hk as [i Hi]. exists i.
           apply (in_flight_app _ (guard st) _ _ _ _ (pool_world st) _ (awaited st)).
           left. by destruct st.
      * intros [i Hi].
        apply (in_flight_app _ (guard st) _ _ _ _ (pool_world st) _ (awaited st)) in Hi
          as [Hi|(_ & _ & <-)].
        -- apply elem_of_union. right. apply Hholds. exists i. by destruct st.
        -- apply elem_of_union. left. by apply elem_of_singleton.
    + intros i j k Hi Hj.
      apply (in_flight_app _ (guard st) _ _ _ _ (pool_world st) _ (awaited st)) in Hi
        as [Hi|(-> & _ & <-)];
      apply (in_flight_app _ (guard st) _ _ _ _ (pool_world st) _ (awaited st)) in Hj
        as [Hj|(-> & _ & Hk)].
      * apply (Hexcl i j k); by destruct st.
      * subst k. exfalso. apply Hnot, Hholds. exists i. by destruct st.
      * exfalso. apply Hnot, Hholds. exists j. by destruct st.
      * done.
    + intros i tid p H. apply lookup_app_Some in H as [H|[_ H]].
      * by apply (Hrel i).
      * apply list_lookup_singleton_Some in H as [_ [= <- <-]]. done.
Qed.

Lemma releases_Await_inv (k : jsstring) (c : call)
    (cont : result (response c) -> prog unit) :
  releases k (Await c cont) -> forall r, releases k (cont r).
Proof.
  intros H.
  refine (match H in releases _ p
                return match p with
                       | Await c' cont' => forall r, releases k (cont' r)
                       | _ => True
                       end
          with
          | releases_return _ => I
          | releases_throw _ _ => I
          | releases_DateNow _ _ _ => I
          | releases_Await _ _ _ Hc => Hc
          end).
Qed.

Lemma guard_invariant_Settle (st : pool World) (i : nat) :
  guard_invariant st ->
  guard_invariant (pool_step oracle clock processTask st (Settle i)).
Proof.
  intros Hinv. pose proof Hinv as [Hholds Hexcl Hrel]. cbn [pool_step].
  destruct (attempts st !! i) as [[taskId p]|] eqn:Hi; [|done].
  destruct p as [| | | | | |c cont]; try done.
  destruct (oracle c (pool_world st)) as [r w1].
  pose proof (Hrel i taskId _ Hi) as Hr. cbn [suspended] in Hr.
  pose proof (releases_Await_inv _ _ _ Hr r) as Hr'.
  assert (in_flight st i (toString taskId)) as Hfly.
  { exists taskId, (Await c cont). done. }
  destruct (run_sync_releases (toString taskId) (cont r) (guard st) w1 Hr')
    as (p' & w' & [(-> & Hs & Hrel')|(-> & Hs & Hfin)]).
  - constructor; cbn [guard attempts].
    + intros k. rewrite Hholds. split.
      * intros [j Hj]. exists j.
        apply (in_flight_insert _ (guard st) _ _ _ _ _ (pool_world st) _ (awaited st)
                 _ _ _ Hi).
        destruct (decide (j = i)) as [->|Hne].
        -- left. split; [done|]. split; [done|].
           destruct Hj as (t & q & Hq & _ & <-). rewrite Hi in Hq.
           by injection Hq as <- <-.
        -- right. split; [done|]. by destruct st.
      * intros [j Hj].
        apply (in_flight_insert _ (guard st) _ _ _ _ _ (pool_world st) _ (awaited st)
                 _ _ _ Hi) in Hj as [(-> & _ & <-)|(_ & Hj)].
        -- by exists i.
        -- exists j. by destruct st.
    + intros j1 j2 k Hj1 Hj2.
      apply (in_flight_insert _ (guard st) _ _ _ _ _ (pool_world st) _ (awaited st)
               _ _ _ Hi) in Hj1 as [(-> & _ & <-)|(Hne1 & Hj1)];
      apply (in_flight_insert _ (guard st) _ _ _ _ _ (pool_world st) _ (awaited st)
               _ _ _ Hi) in Hj2 as [(-> & _ & Hk)|(Hne2 & Hj2)].
      * done.
      * apply (Hexcl i j2 (toString taskId)); [done|by destruct st].
      * subst k. apply (Hexcl j1 i (toString taskId)); [by destruct st|done].
      * apply (Hexcl j1 j2 k); by destruct st.
    + intros j tid p H.
      apply list_lookup_insert_Some in H as [(-> & [= <- <-] & _)|[Hne H]].
      * by rewrite Hs.
      * by apply (Hrel j).
  - constructor; cbn [guard attempts].
    + intros k. split.
      * intros Hk. apply elem_of_difference in Hk as [Hk Hne].
        apply Hholds in Hk as [j Hj]. exists j.
        apply (in_flight_insert _ (guard st) _ _ _ _ _ (pool_world st) _ (awaited st)
                 _ _ _ Hi).
        right. split; [|by destruct st].
        intros ->. apply Hne. apply elem_of_singleton.
        destruct Hj as (t & q & Hq & _ & <-). rewrite Hi in Hq. by injection Hq as <- <-.
      * intros [j Hj].
        apply (in_flight_insert _ (guard st) _ _ _ _ _ (pool_world st) _ (awaited st)
                 _ _ _ Hi) in Hj as [(_ & Hs' & _)|(Hne & Hj)]; [congruence|].
        apply elem_of_difference. split.
        -- apply Hholds. exists j. by destruct st.
        -- intros Hk. apply elem_of_singleton in Hk as ->.
           apply Hne. apply (Hexcl j i (toString taskId)); [by destruct st|done].
    + intros j1 j2 k Hj1 Hj2.
      apply (in_flight_insert _ (guard st) _ _ _ _ _ (pool_world st) _ (awaited st)
               _ _ _ Hi) in Hj1 as [(_ & Hs' & _)|(Hne1 & Hj1)]; [congruence|].
      apply (in_flight_insert _ (guard st) _ _ _ _ _ (pool_world st) _ (awaited st)
               _ _ _ Hi) in Hj2 as [(_ & Hs' & _)|(Hne2 & Hj2)]; [congruence|].
      apply (Hexcl j1 j2 k); by destruct st.
    + intros j tid p H.
      apply list_lookup_insert_Some in H as [(-> & [= <- <-] & _)|[Hne H]].
      * by rewrite Hs.
      * by apply (Hrel j).
Qed.

Lemma guard_invariant_run (st : pool World) (evs : list event) :
  guard_invariant st ->
  guard_invariant (pool_run oracle clock processTask st evs).
Proof.
  revert st. induction evs as [|ev evs IH]; intros st Hinv; [done|].
  cbn [pool_run fold_left]. apply IH.
  destruct ev; [by apply guard_invariant_Call|by apply guard_invariant_Settle].
Qed.

(** An attempt run alone in a pool, settled until it is over, does what
    [exec] says: the two semantics agree where they overlap. *)
Lemma lone_attempt_run (taskId : N) (p : prog unit) :
  forall (S : gset jsstring) (w : World) (aw : list (nat * call)) (method : N -> prog unit),
  exists n,
    let '(p', g, w') := run_sync clock p S w in
    let o := exec oracle clock p S w in
    pool_run oracle clock method (Pool g [(taskId, p')] w' aw) (repeat (Settle 0%nat) n) =
    Pool (tasks_after o)
         [(taskId, match ended o with Val _ => Ret tt | Exn e => Throw e end)]
         (world_after o)
         (aw ++ map (pair 0%nat) (calls o)).
Proof.
  induction p as [[]|e|k cont IH|k cont IH|k cont IH|cont IH|c cont IH];
    intros S w aw method; cbn [run_sync exec].
  - exists 0%nat. cbn. by rewrite app_nil_r.
  - exists 0%nat. cbn. by rewrite app_nil_r.
  - apply IH.
  - apply IH.
  - apply IH.
  - destruct (clock w) as [t w']. apply IH.
  - destruct (oracle c w) as [r w1] eqn:Hc.
    destruct (IH r S w1 (aw ++ [(0%nat, c)]) method) as [n Hn].
    exists (Datatypes.S n). cbn [repeat pool_run fold_left pool_step attempts lookup].
    change (fold_left (pool_step oracle clock method) ?evs ?st)
      with (pool_run oracle clock method st evs).
    cbn [list_lookup pool_world guard awaited]. rewrite Hc.
    destruct (run_sync clock (cont r) S w1) as [[p' g] w2].
    cbn [insert list_insert]. rewrite Hn.
    cbn [ended tasks_after world_after calls map]. by rewrite <- app_assoc.
Qed.

Lemma lone_attempt (method : N -> prog unit) (taskId : N) (w : World) :
  exists n,
    let o := exec oracle clock (method taskId) ∅ w in
    pool_run oracle clock method (pool_init w) (Call taskId :: repeat (Settle 0%nat) n) =
    Pool (tasks_after o)
         [(taskId, match ended o with Val _ => Ret tt | Exn e => Throw e end)]
         (world_after o)
         (map (pair 0%nat) (calls o)).
Proof.
  destruct (lone_attempt_run taskId (method taskId) ∅ w [] method) as [n Hn].
  exists n. cbn [pool_run fold_left pool_step pool_init guard pool_world attempts awaited].
  destruct (run_sync clock (method taskId) ∅ w) as [[p' g] w'].
  cbn [app]. exact Hn.
Qed.

(** ** Claims about the pipeline of one task *)

(** C3.  A call of [processTask] for an id already in [processingTasks]
    returns at once: it awaits nothing and leaves the set as it is.
    Otherwise the id is in the set before the first call is awaited, and
    out of it again when [processTask] is over, returned or thrown.  In
    every interleaving of any number of attempts, an id is in the set
    exactly while one attempt for it is suspended between these two points,
    and no two attempts for one id are. *)
Theorem processTask_guard (taskId : N) :
  (forall (S : gset jsstring) (w : World),
     toString taskId ∈ S ->
     exec oracle clock (processTask taskId) S w = Outcome (Val tt) S w [] /\
     run_sync clock (processTask taskId) S w = (Ret tt, S, w)) /\
  (forall (S : gset jsstring) (w : World),
     toString taskId ∉ S ->
     (exists cont,
        run_sync clock (processTask taskId) S w
          = (Await (getTask taskId) cont, {[toString taskId]} ∪ S, w)) /\
     tasks_after (exec oracle clock (processTask taskId) S w) = S) /\
  (forall (w : World) (evs : list event),
     guard_invariant (pool_run oracle clock processTask (pool_init w) evs)).
Proof.
  split; [|split].
  - intros S w H. split.
    + by apply exec_processTask_present.
    + by apply run_sync_processTask_present.
  - intros S w H. split.
    + destruct (run_sync_processTask_absent taskId S w H) as (cont & E & _). eauto.
    + rewrite exec_processTask by done. unfold processTask_outcome.
      destruct (oracle (getTask taskId) w).1; [|done].
      destruct (oracle (getClaim _ _) _).1; [|done].
      destruct (ended (exec oracle clock (verifyPR _ _) _ _)); [|done].
      destruct (oracle (submitValidation _ _ _) _).1; done.
  - intros w evs. apply guard_invariant_run, guard_invariant_init.
Qed.

(** C2.  When a step of [verifyPR] fails for the task being processed (an
    invalid link, a rejected or timed-out call of the proof service, a
    response without [prProofData] or [userProofData], a failed
    extraction), [verifyPR] throws, [processTask] throws the same error
    without calling [submitValidation], the fallback request is never
    sent, and the guard is released. *)
Theorem verification_fails_closed (taskId : N) (S : gset jsstring) (w : World)
    (task : Task.t) (claimResult : Claim.t) :
  toString taskId ∉ S ->
  (oracle (getTask taskId) w).1 = Val task ->
  let w1 := (oracle (getTask taskId) w).2 in
  (oracle (getClaim (Task.issueId task) (Task.claimIndex task)) w1).1
    = Val claimResult ->
  let w2 := (oracle (getClaim (Task.issueId task) (Task.claimIndex task)) w1).2 in
  let accessToken := js_or (Some (Claim._5 claimResult)) (js_or None []) in
  verifyPR_step_fails (Task.prLink task) accessToken w2 ->
  let ov := exec oracle clock (verifyPR (Task.prLink task) accessToken)
              ({[toString taskId]} ∪ S) w2 in
  let o := exec oracle clock (processTask taskId) S w in
  (exists e, ended ov = Exn (js "zkTLS verification failed: " ++ e) /\
             ended o = Exn (js "zkTLS verification failed: " ++ e)) /\
  Forall (fun c => is_submitValidation c = false) (calls o) /\
  (forall owner repo prNumber, ~ In (fallback_request owner repo prNumber) (calls o)) /\
  tasks_after o = S.
Proof.
  intros Hnot Htask w1 Hclaim w2 accessToken Hfail ov o.
  destruct (verifyPR_fails _ _ ({[toString taskId]} ∪ S) _ Hfail) as [e He].
  fold ov in He.
  assert (calls ov = [] \/ exists encoded, calls ov = [zkTLS_request accessToken encoded])
    as Hcalls.
  { unfold ov. rewrite exec_verifyPR. apply verifyPR_outcome_spec. }
  assert (o = Outcome (Exn (js "zkTLS verification failed: " ++ e)) S (world_after ov)
                (getTask taskId
                   :: getClaim (Task.issueId task) (Task.claimIndex task) :: calls ov))
    as ->.
  { unfold o. rewrite exec_processTask by done. unfold processTask_outcome.
    rewrite Htask. fold w1. rewrite Hclaim. fold w2. fold accessToken. fold ov.
    by rewrite He. }
  cbn [ended calls tasks_after].
  split; [eauto|]. split; [|split; [|done]].
  - destruct Hcalls as [->|[encoded ->]]; repeat constructor.
  - intros owner repo prNumber Hin.
    destruct Hcalls as [Hc|[encoded Hc]]; rewrite Hc in Hin.
    + destruct Hin as [Hin|[Hin|[]]]; discriminate Hin.
    + destruct Hin as [Hin|[Hin|[Hin|[]]]]; discriminate Hin.
Qed.

(** ** Claims about acquisition *)

Lemma includes_spec (s sub : jsstring) :
  includes s sub = true <-> exists pre post, s = pre ++ sub ++ post.
Proof.
  induction s as [|c s IH]; simpl.
  - rewrite orb_false_r, starts_with_spec. split.
    + intros [post E]. exists [], post. done.
    + intros (pre & post & E). symmetry in E.
      apply app_eq_nil in E as [-> E]. apply app_eq_nil in E as [-> ->]. by exists [].
  - rewrite orb_true_iff, starts_with_spec, IH. split.
    + intros [[post E]|(pre & post & ->)].
      * exists [], post. done.
      * exists (c :: pre), post. done.
    + intros (pre & post & E). destruct pre as [|x pre]; simpl in E.
      * left. eauto.
      * injection E as <- ->. right. eauto.
Qed.

Lemma conflict_signature_spec (e : error) :
  existsb (fun code => includes e code) ERROR_CODES.TASK_ALREADY_ASSIGNED = true
  <-> conflict_signature e.
Proof.
  unfold conflict_signature. rewrite existsb_exists. split.
  - intros (code & Hin & Hinc). apply includes_spec in Hinc as (pre & post & ->). eauto.
  - intros (code & pre & post & Hin & ->). exists code. split; [done|].
    apply includes_spec. eauto.
Qed.

Lemma isAssignedToMe_lower (task : Task.t) :
  isAssignedToMe task = true <->
  toLowerCase (Task.assignedOperator task) = toLowerCase operatorAddress.
Proof. apply jsstring_eqb_true. Qed.

Lemma isAssignedToMe_other (task : Task.t) :
  isAssignedToMe task = false <->
  toLowerCase (Task.assignedOperator task) <> toLowerCase operatorAddress.
Proof.
  rewrite <- isAssignedToMe_lower. destruct (isAssignedToMe task).
  - split; [done|]. intros H. by destruct H.
  - split; [|done]. by intros _ H.
Qed.


Lemma exec_pickUpTask_not_pending (taskId : N) (S : gset jsstring) (w : World)
    (task : Task.t) :
  (oracle (getTask taskId) w).1 = Val task ->
  Task.status task <> TASK_STATUS.PENDING ->
  exec oracle clock (pickUpTask taskId) S w =
  Outcome
    (Val {| picked := false;
            shouldProcess := Some (isAssignedToMe task
                                   && (Task.status task =? TASK_STATUS.ASSIGNED)) |})
    S (oracle (getTask taskId) w).2 [getTask taskId].
Proof.
  intros Htask Hstatus. unfold pickUpTask. exec_steps. rewrite Htask. exec_steps.
  apply N.eqb_neq in Hstatus. rewrite Hstatus. cbn [negb].
  unfold _handleNonPendingTask.
  destruct (isAssignedToMe task && (Task.status task =? TASK_STATUS.ASSIGNED)); done.
Qed.

(** C6.  For a task whose status is not Pending, [pickUpTask] reads the
    task and calls nothing else, [pickTask] in particular: it returns
    [{picked: false, shouldProcess: true}] when the status is Assigned and
    the task's [assignedOperator] equals, lower-cased, this operator's
    lower-cased address, and [{picked: false, shouldProcess: false}] for
    every other such task, one assigned to another address included.
    However often it is called while the task is not Pending, no
    acquisition write is sent. *)
Theorem pickUpTask_not_pending (taskId : N) :
  (forall (S : gset jsstring) (w : World) (task : Task.t),
     (oracle (getTask taskId) w).1 = Val task ->
     Task.status task <> TASK_STATUS.PENDING ->
     let o := exec oracle clock (pickUpTask taskId) S w in
     calls o = [getTask taskId] /\
     (Task.status task = TASK_STATUS.ASSIGNED ->
      toLowerCase (Task.assignedOperator task) = toLowerCase operatorAddress ->
        ended o = Val {| picked := false; shouldProcess := Some true |}) /\
     (Task.status task <> TASK_STATUS.ASSIGNED \/
      toLowerCase (Task.assignedOperator task) <> toLowerCase operatorAddress ->
        ended o = Val {| picked := false; shouldProcess := Some false |})) /\
  (forall stable : World -> Prop,
     (forall w, stable w ->
        exists task, (oracle (getTask taskId) w).1 = Val task /\
                     Task.status task <> TASK_STATUS.PENDING /\
                     stable (oracle (getTask taskId) w).2) ->
     forall (n : nat) (S : gset jsstring) (w : World),
       stable w ->
       calls (exec oracle clock (times n (pickUpTask taskId)) S w)
         = repeat (getTask taskId) n).
Proof.
  split.
  - intros S w task Htask Hstatus o. unfold o.
    rewrite (exec_pickUpTask_not_pending _ _ _ _ Htask Hstatus).
    cbn [calls ended]. split; [done|]. split.
    + intros -> Hmine. apply isAssignedToMe_lower in Hmine. by rewrite Hmine.
    + intros [Hst|Hother].
      * apply N.eqb_neq in Hst. rewrite Hst. by rewrite andb_false_r.
      * apply isAssignedToMe_other in Hother. by rewrite Hother.
  - intros stable Hstable n. induction n as [|n IH]; intros S w Hw; [done|].
    cbn [times]. rewrite exec_bind.
    destruct (Hstable w Hw) as (task & Htask & Hstatus & Hw').
    rewrite (exec_pickUpTask_not_pending _ _ _ _ Htask Hstatus).
    unfold and_then. cbn [ended calls tasks_after world_after after_calls app repeat].
    by rewrite IH.
Qed.

(** ** Claims about addresses and about the task read *)

Lemma same_letter_lower (x y : N) : same_letter x y <-> ascii_lower x = ascii_lower y.
Proof.
  unfold same_letter, ascii_lower.
  destruct (N.leb_spec 65 x), (N.leb_spec x 90), (N.leb_spec 65 y), (N.leb_spec y 90);
    cbn [andb]; lia.
Qed.

Lemma differ_only_in_case_lower (a b : jsstring) :
  differ_only_in_case a b <-> map ascii_lower a = map ascii_lower b.
Proof.
  unfold differ_only_in_case. revert b. induction a as [|x a IH]; intros [|y b]; simpl.
  - split; [done|constructor].
  - split; [inversion 1|done].
  - split; [inversion 1|done].
  - split.
    + inversion 1; subst. f_equal; [by apply same_letter_lower|by apply IH].
    + intros [= Hx Hab]. constructor; [by apply same_letter_lower|by apply IH].
Qed.

(** On a string of ASCII characters [toLowerCase] maps the letters A to Z
    to a to z and leaves the rest. *)
Hypothesis toLowerCase_ascii :
  forall s : jsstring, ascii_only s -> toLowerCase s = map ascii_lower s.

(** C8.  [getTask] races the read against a timer of 10000 ms.  If the
    read has not settled when the timer fires, never settling included,
    [getTask] rejects with [Timeout getting task details]; if the read
    settles before, [getTask] settles as the read did, its value unchanged.
    In no case does [getTask] stay pending. *)
Theorem getTask_deadline (late : N) (taskPromise : OperatorRepository.promise Task.t) :
  TIMEOUTS.TASK_DETAILS = 10000 /\
  (match taskPromise with
   | None => True
   | Some (t, _) => TIMEOUTS.TASK_DETAILS + late < t
   end ->
   OperatorRepository.getTask late taskPromise
     = Some (TIMEOUTS.TASK_DETAILS + late, Exn (js "Timeout getting task details"))) /\
  (forall (t : N) (r : result Task.t),
     taskPromise = Some (t, r) -> t < TIMEOUTS.TASK_DETAILS + late ->
     OperatorRepository.getTask late taskPromise = Some (t, r)) /\
  OperatorRepository.getTask late taskPromise <> None.
Proof.
  unfold OperatorRepository.getTask, OperatorRepository.rejectAfter,
    OperatorRepository.Promise_race, OperatorRepository.first_settled.
  split; [done|]. split; [|split].
  - destruct taskPromise as [[t r]|]; [|done]. intros Ht.
    destruct (_ <=? _) eqn:E; [apply N.leb_le in E; lia|done].
  - intros t r -> Ht.
    destruct (_ <=? _) eqn:E; [done|apply N.leb_gt in E; lia].
  - destruct taskPromise as [[t r]|]; [|done].
    destruct (_ <=? _); done.
Qed.

(** ** The link of a pull request *)




(** ** The call of the proof service and the verdict of verifyPR *)

Lemma proofData_of_Val (d : json) (pr user : json) :
  proofData_of d = Val (pr, user) <->
  get_prop d (js "prProofData") = Some pr /\
  get_prop d (js "userProofData") = Some user /\
  truthy (Some pr) = true /\ truthy (Some user) = true.
Proof.
  unfold proofData_of.
  destruct d as [|b|n|s|l|props];
    try (cbn [get_prop]; split; [done|by intros [? _]]).
  destruct (get_prop (JObj props) (js "prProofData")) as [pr'|] eqn:E1;
    [|split; [done|by intros [? _]]].
  destruct (get_prop (JObj props) (js "userProofData")) as [user'|] eqn:E2;
    [|split; [done|by intros (_ & ? & _)]].
  destruct (truthy (Some pr')) eqn:T1, (truthy (Some user')) eqn:T2; cbn [negb orb].
  - split; [intros [= <- <-]; done|]. intros ([= ->] & [= ->] & _). done.
  - split; [done|]. intros ([= ->] & [= ->] & _ & ?). congruence.
  - split; [done|]. intros ([= ->] & [= ->] & ? & _). congruence.
  - split; [done|]. intros ([= ->] & [= ->] & ? & _). congruence.
Qed.

Lemma proofData_of_Exn (d : json) (e : error) :
  proofData_of d = Exn e ->
  e = TypeError_null \/ e = js "Invalid response format from zkTLS API".
Proof.
  unfold proofData_of.
  destruct d as [|b|n|s|l|props]; cbn [get_prop]; try (intros [= <-]; by auto).
  destruct (assoc (js "prProofData") props), (assoc (js "userProofData") props);
    try (intros [= <-]; by auto).
  destruct (negb _ || negb _); intros [= <-]; auto.
Qed.


Lemma exec_callZKTLSAPI prLink accessToken S w :
  exec oracle clock (_callZKTLSAPI prLink accessToken) S w =
  match encodeURIComponent prLink with
  | Exn e => Outcome (Exn e) S w []
  | Val encoded =>
      let c := zkTLS_request accessToken encoded in
      match (oracle c w).1 with
      | Exn e => Outcome (Exn e) S (oracle c w).2 [c]
      | Val response => Outcome (proofData_of (data response)) S (oracle c w).2 [c]
      end
  end.
Proof.
  unfold _callZKTLSAPI. exec_steps.
  destruct (encodeURIComponent prLink) as [encoded|e]; exec_steps; [|done].
  destruct (oracle (zkTLS_request accessToken encoded) w) as [[response|e] w1];
    exec_steps; [|done].
  by destruct (proofData_of (data response)).
Qed.

(** X2.  [_callZKTLSAPI] sends one GET request and nothing else: to
    [/generate-proof] of the configured service with the encoded link,
    bounded by 120000 ms, under the claim's token, or the environment's
    when the claim has none, or none.  It returns the two proofs of the
    answer untouched exactly when the answer has both and both are
    truthy; a rejected request is thrown on as it is, and an answer
    without truthy proofs is refused. *)
Theorem callZKTLSAPI_request (prLink accessToken encoded : jsstring)
    (S : gset jsstring) (w : World) :
  encodeURIComponent prLink = Val encoded ->
  let token :=
    match accessToken, ZKTLS_ACCESS_TOKEN with
    | _ :: _, _ => accessToken
    | [], Some fromEnv => fromEnv
    | [], None => []
    end in
  let service := default (js "https://zkpull-services.up.railway.app")
                   (if ZKTLS_API_URL is Some [] then None else ZKTLS_API_URL) in
  let request := zkTLS_request accessToken encoded in
  let o := exec oracle clock (_callZKTLSAPI prLink accessToken) S w in
  request =
    axios_get (service ++ js "/generate-proof?url=" ++ encoded)
      [(js "Authorization", js "Bearer " ++ token)] (Some 120000) /\
  calls o = [request] /\
  tasks_after o = S /\
  (forall prProofData userProofData,
     ended o = Val (prProofData, userProofData) <->
     exists response,
       (oracle request w).1 = Val response /\
       get_prop (data response) (js "prProofData") = Some prProofData /\
       get_prop (data response) (js "userProofData") = Some userProofData /\
       truthy (Some prProofData) = true /\ truthy (Some userProofData) = true) /\
  (forall e, (oracle request w).1 = Exn e -> ended o = Exn e) /\
  (forall response,
     (oracle request w).1 = Val response ->
     truthy (get_prop (data response) (js "prProofData")) = false \/
     truthy (get_prop (data response) (js "userProofData")) = false ->
     ended o = Exn TypeError_null \/
     ended o = Exn (js "Invalid response format from zkTLS API")).
Proof.
  intros Henc token service request o.
  split.
  { unfold request, zkTLS_request, CONFIG_zkTLSApiUrl, service, token, js_or.
    f_equal.
    - f_equal. by destruct ZKTLS_API_URL as [[|c u]|].
    - do 3 f_equal. destruct accessToken as [|c t]; [|done].
      by destruct ZKTLS_ACCESS_TOKEN as [[|c u]|]. }
  unfold o. rewrite exec_callZKTLSAPI, Henc. cbv zeta. fold request.
  destruct (oracle request w) as [[response|e] w1]; cbn [fst snd calls tasks_after ended].
  - split; [done|]. split; [done|]. split; [|split; [done|]].
    + intros pr user. rewrite proofData_of_Val. split.
      * intros H. exists response. done.
      * intros (response' & [= <-] & H). done.
    + intros response' [= <-] Hfalsy.
      destruct (proofData_of (data response)) as [[pr user]|e] eqn:Hp.
      * apply proofData_of_Val in Hp as (H1 & H2 & T1 & T2).
        rewrite H1, H2 in Hfalsy. destruct Hfalsy; congruence.
      * apply proofData_of_Exn in Hp as [->| ->]; auto.
  - split; [done|]. split; [done|]. split; [|split].
    + intros pr user. split; [done|]. by intros (? & ? & _).
    + by intros ? [= <-].
    + done.
Qed.


(** ** The fallback on the GitHub API *)


Lemma exec_fallbackVerification (prLink : jsstring) (S : gset jsstring) (w : World) :
  exec oracle clock (fallbackVerification prLink) S w =
  let refused := {| Verdict.isValid := false; Verdict.zkProof := js "0x";
                    Verdict.metadata := None |} in
  match String_match prLink prLinkRegex with
  | None => Outcome (Val refused) S w []
  | Some m =>
      let c := fallback_request (nth 0 (groups m) []) (nth 1 (groups m) [])
                 (nth 2 (groups m) []) in
      let w1 := (oracle c w).2 in
      match (oracle c w).1 with
      | Exn e => Outcome (Val refused) S w1 [c]
      | Val response =>
          match data response with
          | JNull => Outcome (Val refused) S w1 [c]
          | d =>
              let merged := match get_prop d (js "merged") with
                            | Some (JBool true) => true
                            | _ => false
                            end in
              match hexlify_toUtf8Bytes (JSON_stringify (JObj
                      [(js "fallback", JBool true); (js "merged", JBool merged)])) with
              | Val zkProof =>
                  Outcome (Val {| Verdict.isValid := merged; Verdict.zkProof := zkProof;
                                  Verdict.metadata := None |}) S w1 [c]
              | Exn e => Outcome (Val refused) S w1 [c]
              end
          end
      end
  end.
Proof.
  unfold fallbackVerification. exec_steps.
  destruct (String_match prLink prLinkRegex) as [m|]; exec_steps; [|done].
  destruct (oracle (fallback_request _ _ _) w) as [[response|e] w1]; exec_steps; [|done].
  destruct (data response) as [|b|n|s|l|props]; exec_steps; try done;
    destruct (hexlify_toUtf8Bytes _) as [zk|e]; exec_steps; done.
Qed.


(** ** What processTask submits *)

Lemma only_last {A} (P : A -> bool) (l : list A) (x : A) (pre : list A) (c : A)
    (post : list A) :
  Forall (fun y => P y = false) l ->
  l ++ [x] = pre ++ c :: post -> P c = true ->
  pre = l /\ c = x /\ post = [].
Proof.
  intros Hl. revert pre. induction Hl as [|y l Hy Hl IH]; intros pre E Hc.
  - destruct pre as [|p pre]; cbn in E.
    + injection E as <- <-. done.
    + injection E as _ E. by destruct pre.
  - destruct pre as [|p pre]; cbn in E.
    + injection E as <- _. congruence.
    + injection E as <- E. destruct (IH _ E Hc) as (-> & -> & ->). done.
Qed.

Lemma none_such {A} (P : A -> bool) (l pre : list A) (c : A) (post : list A) :
  Forall (fun y => P y = false) l -> l = pre ++ c :: post -> P c = true -> False.
Proof.
  intros Hl -> Hc. apply Forall_app in Hl as [_ Hl]. inversion Hl; subst. congruence.
Qed.

Lemma verifyPR_calls (prLink accessToken : jsstring) (S : gset jsstring) (w : World) :
  Forall (fun c => negb (is_submitValidation c) && negb (is_pickTask c) = true)
    (calls (exec oracle clock (verifyPR prLink accessToken) S w)).
Proof.
  rewrite exec_verifyPR.
  destruct (verifyPR_outcome_spec prLink accessToken S w) as (_ & [->|[enc ->]] & _);
    repeat constructor.
Qed.

(** X5.  In a run of [processTask] for an id that is not being
    processed, [submitValidation] is called at most once and as the last
    call, for this task and with the [isValid] and [zkProof] of the
    verdict that [verifyPR] returned for the task's link and the claim's
    token; [pickTask] is never called.  The run returns normally exactly
    when that submission was made and confirmed; every failure before or
    in it is thrown on. *)
Theorem processTask_submission (taskId : N) (S : gset jsstring) (w : World) :
  toString taskId ∉ S ->
  let o := exec oracle clock (processTask taskId) S w in
  Forall (fun c => is_pickTask c = false) (calls o) /\
  (forall pre c post,
     calls o = pre ++ c :: post -> is_submitValidation c = true ->
     post = [] /\ Forall (fun c' => is_submitValidation c' = false) pre /\
     exists task claimResult verdict,
       (oracle (getTask taskId) w).1 = Val task /\
       let w1 := (oracle (getTask taskId) w).2 in
       let read := getClaim (Task.issueId task) (Task.claimIndex task) in
       (oracle read w1).1 = Val claimResult /\
       let ov := exec oracle clock
                   (verifyPR (Task.prLink task) (Claim._5 claimResult))
                   ({[toString taskId]} ∪ S) (oracle read w1).2 in
       ended ov = Val verdict /\
       c = submitValidation taskId (Verdict.isValid verdict) (Verdict.zkProof verdict) /\
       (ended o = Val tt <-> exists receipt, (oracle c (world_after ov)).1 = Val receipt) /\
       (forall e, (oracle c (world_after ov)).1 = Exn e -> ended o = Exn e)) /\
  (ended o = Val tt ->
     exists pre c, calls o = pre ++ [c] /\ is_submitValidation c = true).
Proof.
  intros Hnot o. unfold o. rewrite exec_processTask by done.
  unfold processTask_outcome.
  destruct (oracle (getTask taskId) w).1 as [task|e] eqn:Htask.
  2:{ cbn [calls ended]. split; [repeat constructor|]. split; [|done].
      intros pre c post E Hc. exfalso.
      eapply (none_such is_submitValidation); [|exact E|exact Hc]. repeat constructor. }
  destruct (oracle (getClaim (Task.issueId task) (Task.claimIndex task))
              (oracle (getTask taskId) w).2).1 as [claimResult|e] eqn:Hclaim.
  2:{ cbn [calls ended]. split; [repeat constructor|]. split; [|done].
      intros pre c post E Hc. exfalso.
      eapply (none_such is_submitValidation); [|exact E|exact Hc]. repeat constructor. }
  assert (js_or (Some (Claim._5 claimResult)) (js_or None []) = Claim._5 claimResult)
    as -> by (by destruct (Claim._5 claimResult)).
  pose proof (verifyPR_calls (Task.prLink task) (Claim._5 claimResult)
                ({[toString taskId]} ∪ S)
                (oracle (getClaim (Task.issueId task) (Task.claimIndex task))
                   (oracle (getTask taskId) w).2).2) as Hcalls.
  set (ov := exec oracle clock (verifyPR (Task.prLink task) (Claim._5 claimResult)) _ _)
    in *.
  assert (Forall (fun c => is_submitValidation c = false)
            (getTask taskId
               :: getClaim (Task.issueId task) (Task.claimIndex task) :: calls ov))
    as Hnone.
  { do 2 (constructor; [done|]). eapply Forall_impl; [exact Hcalls|].
    intros c Hc. apply andb_true_iff in Hc as [Hc _]. by apply negb_true_iff in Hc. }
  assert (Forall (fun c => is_pickTask c = false)
            (getTask taskId
               :: getClaim (Task.issueId task) (Task.claimIndex task) :: calls ov))
    as Hpick.
  { do 2 (constructor; [done|]). eapply Forall_impl; [exact Hcalls|].
    intros c Hc. apply andb_true_iff in Hc as [_ Hc]. by apply negb_true_iff in Hc. }
  destruct (ended ov) as [verdict|e] eqn:Hv.
  2:{ cbn [calls ended]. split; [done|]. split; [|done].
      intros pre c post E Hc. exfalso.
      eapply (none_such is_submitValidation); [exact Hnone|exact E|exact Hc]. }
  set (c3 := submitValidation taskId (Verdict.isValid verdict) (Verdict.zkProof verdict)).
  assert (forall r : result unit,
            let cs := getTask taskId
                        :: getClaim (Task.issueId task) (Task.claimIndex task)
                        :: calls ov ++ [c3] in
            Forall (fun c => is_pickTask c = false) cs /\
            (forall pre c post, cs = pre ++ c :: post -> is_submitValidation c = true ->
               post = [] /\ Forall (fun c' => is_submitValidation c' = false) pre /\
               c = c3) /\
            exists pre c, cs = pre ++ [c] /\ is_submitValidation c = true) as Hshape.
  { intros r cs. split; [|split].
    - unfold cs. rewrite !app_comm_cons. apply Forall_app. split; [done|].
      by repeat constructor.
    - intros pre c post E Hc. unfold cs in E. rewrite !app_comm_cons in E.
      destruct (only_last is_submitValidation _ _ _ _ _ Hnone E Hc) as (-> & -> & ->).
      done.
    - unfold cs. rewrite !app_comm_cons. eauto. }
  destruct (Hshape (Val tt)) as (Hp & Hlast & Hex).
  destruct (oracle c3 (world_after ov)).1 as [receipt|e] eqn:Hsubmit;
    cbn [calls ended]; (split; [exact Hp|]); (split; [|by intros; exact Hex]);
    intros pre c post E Hc; destruct (Hlast pre c post E Hc) as (-> & Hpre & ->);
    (split; [done|]); (split; [done|]);
    exists task, claimResult, verdict; cbv zeta; fold ov; fold c3; rewrite Hsubmit;
    (split; [done|]); (split; [done|]); (split; [done|]); (split; [done|]).
  - split; [|done]. split; [eauto|done].
  - split; [|by intros ? [= <-]]. split; [done|]. by intros [? ?].
Qed.

(** ** The calls of pickUpTask *)

Lemma exec_pickUpTask (taskId : N) (S : gset jsstring) (w : World) :
  exec oracle clock (pickUpTask taskId) S w =
  let c1 := getTask taskId in
  let w1 := (oracle c1 w).2 in
  match (oracle c1 w).1 with
  | Exn e => Outcome (Exn e) S w1 [c1]
  | Val task =>
      if negb (Task.status task =? TASK_STATUS.PENDING) then
        Outcome
          (Val {| picked := false;
                  shouldProcess :=
                    Some (isAssignedToMe task
                          && (Task.status task =? TASK_STATUS.ASSIGNED)) |})
          S w1 [c1]
      else
        let c2 := pickTask taskId in
        let w2 := (oracle c2 w1).2 in
        match (oracle c2 w1).1 with
        | Val _ => Outcome (Val {| picked := true; shouldProcess := None |}) S w2 [c1; c2]
        | Exn e =>
            if existsb (fun code => includes e code) ERROR_CODES.TASK_ALREADY_ASSIGNED
            then
              Outcome
                (Val {| picked := false;
                        shouldProcess := Some
                          match (oracle c1 w2).1 with
                          | Val task' => isAssignedToMe task'
                          | Exn _ => false
                          end |})
                S (oracle c1 w2).2 [c1; c2; c1]
            else Outcome (Exn e) S w2 [c1; c2]
        end
  end.
Proof.
  unfold pickUpTask. exec_steps.
  destruct (oracle (getTask taskId) w) as [[task|e] w1]; exec_steps; [|done].
  destruct (Task.status task =? TASK_STATUS.PENDING); cbn [negb].
  - exec_steps.
    destruct (oracle (pickTask taskId) w1) as [[receipt|e] w2]; exec_steps; [done|].
    unfold _handlePickTaskError.
    destruct (existsb _ ERROR_CODES.TASK_ALREADY_ASSIGNED); [|done].
    exec_steps.
    destruct (oracle (getTask taskId) w2) as [[task'|e'] w3]; exec_steps; [|done].
    destruct (isAssignedToMe task'); exec_steps; done.
  - unfold _handleNonPendingTask.
    destruct (isAssignedToMe task && (Task.status task =? TASK_STATUS.ASSIGNED)); done.
Qed.


(** ** Polling *)

Lemma exec_poll_step (taskId : N) (rest pendingTasks : list N)
    (S : gset jsstring) (w : World) :
  exec oracle clock (pollAssignedTasks_loop (taskId :: rest) pendingTasks) S w =
  if bool_decide (toString taskId ∈ S)
  then exec oracle clock (pollAssignedTasks_loop rest pendingTasks) S w
  else
    let c := getTask taskId in
    match (oracle c w).1 with
    | Exn e => Outcome (Exn e) S (oracle c w).2 [c]
    | Val task =>
        after_calls [c]
          (exec oracle clock
             (pollAssignedTasks_loop rest
                (if Task.status task =? TASK_STATUS.ASSIGNED
                 then pendingTasks ++ [taskId] else pendingTasks))
             S (oracle c w).2)
    end.
Proof.
  cbn [pollAssignedTasks_loop exec].
  destruct (bool_decide (toString taskId ∈ S)); cbn [negb]; [done|].
  exec_steps.
  destruct (oracle (getTask taskId) w) as [[task|e] w1]; exec_steps; [|done].
  destruct (Task.status task =? TASK_STATUS.ASSIGNED);
    by destruct (exec oracle clock _ S w1).
Qed.

Lemma poll_loop_stable (stable : World -> Prop) (task_of : N -> Task.t) :
  (forall w taskId, stable w ->
     (oracle (getTask taskId) w).1 = Val (task_of taskId) /\
     stable (oracle (getTask taskId) w).2) ->
  forall (tasks pendingTasks : list N) (S : gset jsstring) (w : World),
    stable w ->
    let o := exec oracle clock (pollAssignedTasks_loop tasks pendingTasks) S w in
    ended o =
      Val (pendingTasks ++
           filter (fun taskId => (toString taskId ∉ S) /\
                     Task.status (task_of taskId) = TASK_STATUS.ASSIGNED) tasks) /\
    calls o = map getTask (filter (fun taskId => toString taskId ∉ S) tasks) /\
    tasks_after o = S.
Proof.
  intros Hstable tasks. induction tasks as [|taskId rest IH]; intros pending S w Hw.
  - cbn. by rewrite app_nil_r.
  - cbv zeta. rewrite exec_poll_step.
    destruct (decide (toString taskId ∈ S)) as [Hin|Hin].
    + rewrite bool_decide_eq_true_2 by done.
      rewrite filter_cons_False by (intros [H _]; by apply H).
      rewrite filter_cons_False by (intros H; by apply H).
      by apply IH.
    + rewrite bool_decide_eq_false_2 by done. cbv zeta.
      destruct (Hstable w taskId Hw) as [-> Hw'].
      rewrite (filter_cons_True (fun taskId => toString taskId ∉ S)) by done.
      destruct (IH (if Task.status (task_of taskId) =? TASK_STATUS.ASSIGNED
                    then pending ++ [taskId] else pending) S _ Hw')
        as (He & Hc & Ht).
      cbn [after_calls ended calls tasks_after]. rewrite He, Hc, Ht.
      split; [|done].
      destruct (N.eqb_spec (Task.status (task_of taskId)) TASK_STATUS.ASSIGNED) as [E|E].
      * rewrite filter_cons_True by done. by rewrite <- app_assoc.
      * rewrite filter_cons_False by (intros [_ ?]; done). done.
Qed.

(** X7.  Against an oracle whose task reads succeed and show, while the
    poll lasts, one record per id, [pollAssignedTasks] returns the ids
    listed for this operator that are not in the guard set and whose
    status is Assigned, in the order of the list and with its
    repetitions.  It reads exactly the ids that are not guarded, one
    after the other, and leaves the guard set as it was. *)
Theorem pollAssignedTasks_filter (stable : World -> Prop) (task_of : N -> Task.t)
    (tasks : list N) (S : gset jsstring) (w : World) :
  (forall w' taskId, stable w' ->
     (oracle (getTask taskId) w').1 = Val (task_of taskId) /\
     stable (oracle (getTask taskId) w').2) ->
  (oracle (getOperatorTasks operatorAddress) w).1 = Val tasks ->
  stable (oracle (getOperatorTasks operatorAddress) w).2 ->
  let o := exec oracle clock pollAssignedTasks S w in
  ended o =
    Val (filter (fun taskId => (toString taskId ∉ S) /\
                   Task.status (task_of taskId) = TASK_STATUS.ASSIGNED) tasks) /\
  calls o =
    getOperatorTasks operatorAddress
      :: map getTask (filter (fun taskId => toString taskId ∉ S) tasks) /\
  tasks_after o = S.
Proof.
  intros Hstable Htasks Hw o. unfold o, pollAssignedTasks. exec_steps.
  rewrite Htasks. exec_steps.
  destruct (poll_loop_stable stable task_of Hstable tasks [] S _ Hw) as (He & Hc & Ht).
  destruct (exec oracle clock (pollAssignedTasks_loop tasks []) S _) as [r S' w' cs].
  cbn in He, Hc, Ht. subst. done.
Qed.



(** ** The handlers of the two events *)

Lemma processTask_restores (taskId : N) (S : gset jsstring) (w : World) :
  tasks_after (exec oracle clock (processTask taskId) S w) = S.
Proof.
  destruct (decide (toString taskId ∈ S)) as [Hin|Hin].
  - by rewrite exec_processTask_present.
  - rewrite exec_processTask by done. unfold processTask_outcome.
    destruct (oracle (getTask taskId) w).1 as [task|e]; [|done].
    destruct (oracle (getClaim _ _) _).1 as [claimResult|e]; [|done].
    destruct (ended (exec oracle clock (verifyPR _ _) _ _)) as [verdict|e]; [|done].
    by destruct (oracle (submitValidation _ _ _) _).1.
Qed.

Lemma processTask_never_picks (taskId : N) (S : gset jsstring) (w : World) :
  Forall (fun c => is_pickTask c = false)
    (calls (exec oracle clock (processTask taskId) S w)).
Proof.
  destruct (decide (toString taskId ∈ S)) as [Hin|Hin].
  - rewrite exec_processTask_present by done. constructor.
  - rewrite exec_processTask by done. unfold processTask_outcome.
    destruct (oracle (getTask taskId) w).1 as [task|e]; [|by repeat constructor].
    destruct (oracle (getClaim _ _) _).1 as [claimResult|e]; [|by repeat constructor].
    assert (Forall (fun c => is_pickTask c = false)
              (calls (exec oracle clock
                        (verifyPR (Task.prLink task)
                           (js_or (Some (Claim._5 claimResult)) (js_or None [])))
                        ({[toString taskId]} ∪ S)
                        (oracle (getClaim (Task.issueId task) (Task.claimIndex task))
                           (oracle (getTask taskId) w).2).2))) as Hv.
    { eapply Forall_impl; [apply verifyPR_calls|].
      intros c Hc. apply andb_true_iff in Hc as [_ Hc]. by apply negb_true_iff in Hc. }
    destruct (ended (exec oracle clock (verifyPR _ _) _ _)) as [verdict|e];
      [|by repeat (constructor; [done|])].
    destruct (oracle (submitValidation _ _ _) _).1;
      cbn [calls]; do 2 (constructor; [done|]); apply Forall_app; split; try done;
      by repeat constructor.
Qed.

Lemma swallowed (ob : outcome World unit) :
  or_catch ob (fun _ S' w' => exec oracle clock (Ret tt) S' w') =
  Outcome (Val tt) (tasks_after ob) (world_after ob) (calls ob).
Proof.
  destruct ob as [[[]|e] S' w' cs]; unfold or_catch, after_calls;
    cbn [ended tasks_after world_after calls exec]; [done|].
  by rewrite app_nil_r.
Qed.

Lemma exec_sleep (ms : N) (S : gset jsstring) (w : World) :
  @exec World oracle clock unit (await (setTimeout ms)) S w =
  Outcome (oracle (setTimeout ms) w).1 S (oracle (setTimeout ms) w).2 [setTimeout ms].
Proof. apply (exec_await (setTimeout ms)). Qed.

Lemma exec_handleTaskCreated (taskId issueId claimIndex : N)
    (S : gset jsstring) (w : World) :
  exec oracle clock (_handleTaskCreated taskId issueId claimIndex) S w =
  let wait := setTimeout TIMEOUTS.AUTO_ASSIGNMENT_WAIT in
  let w1 := (oracle wait w).2 in
  match (oracle wait w).1 with
  | Exn e => Outcome (Exn e) S w1 [wait]
  | Val _ =>
      let read := getTask taskId in
      let w2 := (oracle read w1).2 in
      match (oracle read w1).1 with
      | Exn e => Outcome (Val tt) S w2 [wait; read]
      | Val task =>
          if isAssignedToMe task then
            let op := exec oracle clock (processTask taskId) S w2 in
            Outcome (Val tt) S (world_after op) (wait :: read :: calls op)
          else if Task.status task =? 0 then
            let ok := exec oracle clock (pickUpTask taskId) S w2 in
            match ended ok with
            | Exn e => Outcome (Val tt) S (world_after ok) (wait :: read :: calls ok)
            | Val result =>
                if picked result || default false (shouldProcess result) then
                  let op := exec oracle clock (processTask taskId) S (world_after ok) in
                  Outcome (Val tt) S (world_after op)
                    (wait :: read :: calls ok ++ calls op)
                else Outcome (Val tt) S (world_after ok) (wait :: read :: calls ok)
            end
          else Outcome (Val tt) S w2 [wait; read]
      end
  end.
Proof.
  unfold _handleTaskCreated, waitForAutoAssignment. rewrite exec_bind, exec_sleep.
  unfold and_then. cbn [ended calls tasks_after world_after]. cbv zeta.
  destruct (oracle (setTimeout TIMEOUTS.AUTO_ASSIGNMENT_WAIT) w) as [[[]|e] w1];
    cbn [fst snd]; [|done].
  rewrite exec_try_catch, swallowed. rewrite exec_bind, exec_await.
  unfold and_then. cbn [ended calls tasks_after world_after].
  destruct (oracle (getTask taskId) w1) as [[task|e] w2]; cbn [fst snd];
    [|unfold after_calls; cbn [ended calls tasks_after world_after app]; done].
  destruct (isAssignedToMe task).
  { pose proof (processTask_restores taskId S w2) as Hp.
    destruct (exec oracle clock (processTask taskId) S w2) as [r S' w' cs].
    cbn [tasks_after] in Hp. subst S'.
    unfold after_calls; cbn [ended calls tasks_after world_after app]. done. }
  destruct (Task.status task =? 0);
    [|unfold after_calls; cbn [ended calls tasks_after world_after app exec]; done].
  rewrite exec_bind. unfold and_then.
  assert (tasks_after (exec oracle clock (pickUpTask taskId) S w2) = S) as Hk.
  { rewrite exec_pickUpTask. cbv zeta.
    destruct (oracle (getTask taskId) w2).1; [|done].
    destruct (negb _); [done|].
    destruct (oracle (pickTask taskId) _).1; [done|].
    by destruct (existsb _ _). }
  destruct (exec oracle clock (pickUpTask taskId) S w2) as [[result|e] S' w' cs];
    cbn [tasks_after] in Hk; subst S'; cbn [ended calls tasks_after world_after].
  2:{ unfold after_calls; cbn [ended calls tasks_after world_after app].
      by rewrite ?app_nil_r. }
  destruct (picked result || default false (shouldProcess result)).
  - pose proof (processTask_restores taskId S w') as Hp.
    destruct (exec oracle clock (processTask taskId) S w') as [r S' w'' cs'].
    cbn [tasks_after] in Hp. subst S'.
    unfold after_calls; cbn [ended calls tasks_after world_after app]. done.
  - unfold after_calls; cbn [ended calls tasks_after world_after app exec].
    by rewrite ?app_nil_r.
Qed.

(** X9.  The handler of [TaskCreated] first waits 3000 ms and then reads
    the task.  Once the wait is over it never throws: a failed read, a
    failed acquisition and a failed processing all end the handler
    normally, with the guard set as it was.  A task that is neither
    assigned to this operator nor Pending, and a task whose read fails,
    get no further call.  A task whose [assignedOperator] equals,
    lower-cased, this operator's lower-cased address is processed whatever
    its status, without any acquisition write; a Pending task of another
    address is processed exactly when [pickUpTask] returns [picked] or
    [shouldProcess]. *)
Theorem handleTaskCreated_isolated (taskId issueId claimIndex : N)
    (S : gset jsstring) (w : World) :
  let o := exec oracle clock (_handleTaskCreated taskId issueId claimIndex) S w in
  let wait := setTimeout 3000 in
  let w1 := (oracle wait w).2 in
  let w2 := (oracle (getTask taskId) w1).2 in
  tasks_after o = S /\
  (exists rest, calls o = wait :: rest) /\
  (forall e, (oracle wait w).1 = Exn e -> ended o = Exn e /\ calls o = [wait]) /\
  ((oracle wait w).1 = Val tt ->
     ended o = Val tt /\
     (forall e, (oracle (getTask taskId) w1).1 = Exn e ->
        calls o = [wait; getTask taskId]) /\
     (forall task, (oracle (getTask taskId) w1).1 = Val task ->
        (toLowerCase (Task.assignedOperator task) = toLowerCase operatorAddress ->
           calls o = wait :: getTask taskId
                       :: calls (exec oracle clock (processTask taskId) S w2) /\
           Forall (fun c => is_pickTask c = false) (calls o)) /\
        (toLowerCase (Task.assignedOperator task) <> toLowerCase operatorAddress ->
         Task.status task <> 0 ->
           calls o = [wait; getTask taskId]) /\
        (toLowerCase (Task.assignedOperator task) <> toLowerCase operatorAddress ->
         Task.status task = 0 ->
           let ok := exec oracle clock (pickUpTask taskId) S w2 in
           let wanted :=
             match ended ok with
             | Val result => picked result || default false (shouldProcess result)
             | Exn _ => false
             end in
           calls o = wait :: getTask taskId :: calls ok ++
                     (if wanted
                      then calls (exec oracle clock (processTask taskId) S (world_after ok))
                      else [])))).
Proof.
  intros o wait w1 w2. unfold o. rewrite exec_handleTaskCreated. cbv zeta.
  change (setTimeout TIMEOUTS.AUTO_ASSIGNMENT_WAIT) with wait. fold w1.
  destruct (oracle wait w).1 as [[]|e] eqn:Hwait.
  2:{ cbn [ended calls tasks_after]. split; [done|]. split; [by eexists|].
      split; [|done]. by intros ? [= <-]. }
  destruct (oracle (getTask taskId) w1).1 as [task|e] eqn:Hread.
  2:{ cbn [ended calls tasks_after]. split; [done|]. split; [by eexists|].
      split; [done|]. intros _. split; [done|]. split; [done|]. done. }
  fold w2.
  destruct (isAssignedToMe task) eqn:Hme.
  { cbn [ended calls tasks_after]. split; [done|]. split; [by eexists|].
    split; [done|]. intros _. split; [done|]. split; [done|].
    intros task' [= <-].
    rewrite <- isAssignedToMe_other, <- isAssignedToMe_lower, Hme. split; [|split; done].
    intros _. split; [done|]. do 2 (constructor; [done|]).
    apply processTask_never_picks. }
  destruct (N.eqb_spec (Task.status task) 0) as [Hst|Hst].
  2:{ cbn [ended calls tasks_after]. split; [done|]. split; [by eexists|].
      split; [done|]. intros _. split; [done|]. split; [done|].
      intros task' [= <-].
    rewrite <- isAssignedToMe_other, <- isAssignedToMe_lower, Hme. split; [done|]. split; done. }
  destruct (ended (exec oracle clock (pickUpTask taskId) S w2)) as [result|e] eqn:Hk.
  2:{ cbn [ended calls tasks_after]. split; [done|]. split; [by eexists|].
      split; [done|]. intros _. split; [done|]. split; [done|].
      intros task' [= <-].
    rewrite <- isAssignedToMe_other, <- isAssignedToMe_lower, Hme. split; [done|]. split; [done|].
      intros _ _. cbv zeta. rewrite ?Hk. by rewrite ?app_nil_r. }
  destruct (picked result || default false (shouldProcess result)) eqn:Hwant.
  - cbn [ended calls tasks_after]. split; [done|]. split; [by eexists|].
    split; [done|]. intros _. split; [done|]. split; [done|].
    intros task' [= <-].
    rewrite <- isAssignedToMe_other, <- isAssignedToMe_lower, Hme. split; [done|]. split; [done|].
    intros _ _. cbv zeta. rewrite ?Hk, ?Hwant. done.
  - cbn [ended calls tasks_after]. split; [done|]. split; [by eexists|].
    split; [done|]. intros _. split; [done|]. split; [done|].
    intros task' [= <-].
    rewrite <- isAssignedToMe_other, <- isAssignedToMe_lower, Hme. split; [done|]. split; [done|].
    intros _ _. cbv zeta. rewrite ?Hk, ?Hwant. by rewrite ?app_nil_r.
Qed.

(** ** Letter case at the assigned-to-self checks *)

Lemma isAssignedToMe_case (task : Task.t) :
  ascii_only (Task.assignedOperator task) -> ascii_only operatorAddress ->
  (isAssignedToMe task = true <->
     differ_only_in_case (Task.assignedOperator task) operatorAddress).
Proof.
  intros Ha Hb. unfold isAssignedToMe.
  rewrite jsstring_eqb_true, differ_only_in_case_lower,
    (toLowerCase_ascii _ Ha), (toLowerCase_ascii _ Hb). done.
Qed.

Lemma isAssignedToMe_not_case (task : Task.t) :
  ascii_only (Task.assignedOperator task) -> ascii_only operatorAddress ->
  (isAssignedToMe task = false <->
     ~ differ_only_in_case (Task.assignedOperator task) operatorAddress).
Proof.
  intros Ha Hb. rewrite <- (isAssignedToMe_case task Ha Hb).
  destruct (isAssignedToMe task).
  - split; [done|]. intros H. by destruct H.
  - split; [|done]. by intros _ H.
Qed.

Lemma exec_handleTaskAssigned (taskId : N) (operator : jsstring)
    (S : gset jsstring) (w : World) :
  exec oracle clock (_handleTaskAssigned taskId operator) S w =
  if jsstring_eqb (toLowerCase operator) (toLowerCase operatorAddress)
  then exec oracle clock (processTask taskId) S w
  else Outcome (Val tt) S w [].
Proof.
  unfold _handleTaskAssigned. destruct (jsstring_eqb _ _); [|done].
  cbn [exec]. destruct (decide (toString taskId ∈ S)) as [Hin|Hin].
  - rewrite bool_decide_eq_true_2 by done. cbn [negb].
    by rewrite exec_processTask_present.
  - rewrite bool_decide_eq_false_2 by done. cbn [negb].
    unfold processTask. cbn [exec]. by rewrite bool_decide_eq_false_2.
Qed.

(** C10.  [isAssignedToMe] holds exactly when the task's
    [assignedOperator] and this operator's address are equal once both are
    lower-cased; for addresses, which are ASCII, that is: when the two
    differ at most in the case of letters, so that two tasks whose
    [assignedOperator] differ only in letter case get the same answer.
    Every check of assigned-to-self follows that comparison.  The handler
    of [TaskAssigned] processes the task exactly when the operator of the
    event is this one up to letter case.  In discovery the handler of
    [TaskCreated] processes a task it reads exactly so assigned, and goes
    on to the status and the acquisition otherwise.  In acquisition a task
    that is not Pending gets [shouldProcess] true exactly when it is
    Assigned and so assigned, and in conflict resolution the task read
    again gets [shouldProcess] true exactly when it is so assigned. *)
Theorem assigned_to_self_ignores_case (task : Task.t) :
  ascii_only (Task.assignedOperator task) -> ascii_only operatorAddress ->
  let mine := differ_only_in_case (Task.assignedOperator task) operatorAddress in
  (isAssignedToMe task = true <->
     toLowerCase (Task.assignedOperator task) = toLowerCase operatorAddress) /\
  (isAssignedToMe task = true <-> mine) /\
  (forall task' : Task.t,
     ascii_only (Task.assignedOperator task') ->
     differ_only_in_case (Task.assignedOperator task) (Task.assignedOperator task') ->
     isAssignedToMe task' = isAssignedToMe task) /\
  (forall (taskId : N) (S : gset jsstring) (w : World),
     let o := exec oracle clock
                (_handleTaskAssigned taskId (Task.assignedOperator task)) S w in
     (mine -> o = exec oracle clock (processTask taskId) S w) /\
     (~ mine -> o = Outcome (Val tt) S w [])) /\
  (forall (taskId issueId claimIndex : N) (S : gset jsstring) (w : World),
     let wait := setTimeout TIMEOUTS.AUTO_ASSIGNMENT_WAIT in
     let w1 := (oracle wait w).2 in
     let w2 := (oracle (getTask taskId) w1).2 in
     let o := exec oracle clock (_handleTaskCreated taskId issueId claimIndex) S w in
     (oracle wait w).1 = Val tt ->
     (oracle (getTask taskId) w1).1 = Val task ->
     (mine ->
        calls o = wait :: getTask taskId
                    :: calls (exec oracle clock (processTask taskId) S w2)) /\
     (~ mine -> Task.status task <> TASK_STATUS.PENDING ->
        calls o = [wait; getTask taskId]) /\
     (~ mine -> Task.status task = TASK_STATUS.PENDING ->
        exists rest,
          calls o = wait :: getTask taskId
                      :: calls (exec oracle clock (pickUpTask taskId) S w2) ++ rest)) /\
  (forall (taskId : N) (S : gset jsstring) (w : World),
     (oracle (getTask taskId) w).1 = Val task ->
     Task.status task <> TASK_STATUS.PENDING ->
     let o := exec oracle clock (pickUpTask taskId) S w in
     (Task.status task = TASK_STATUS.ASSIGNED /\ mine ->
        ended o = Val {| picked := false; shouldProcess := Some true |}) /\
     (~ (Task.status task = TASK_STATUS.ASSIGNED /\ mine) ->
        ended o = Val {| picked := false; shouldProcess := Some false |})) /\
  (forall (taskId : N) (S : gset jsstring) (w : World) (pending : Task.t) (e : error),
     (oracle (getTask taskId) w).1 = Val pending ->
     Task.status pending = TASK_STATUS.PENDING ->
     let w1 := (oracle (getTask taskId) w).2 in
     (oracle (pickTask taskId) w1).1 = Exn e ->
     conflict_signature e ->
     let w2 := (oracle (pickTask taskId) w1).2 in
     (oracle (getTask taskId) w2).1 = Val task ->
     let o := exec oracle clock (pickUpTask taskId) S w in
     (mine -> ended o = Val {| picked := false; shouldProcess := Some true |}) /\
     (~ mine -> ended o = Val {| picked := false; shouldProcess := Some false |})).
Proof.
  intros Ha Hb mine.
  pose proof (isAssignedToMe_case task Ha Hb) as Hyes.
  pose proof (isAssignedToMe_not_case task Ha Hb) as Hno.
  fold mine in Hyes, Hno.
  split; [apply isAssignedToMe_lower|]. split; [exact Hyes|].
  split; [|split; [|split; [|split]]].
  - intros task' Ha' Hd. unfold isAssignedToMe.
    apply differ_only_in_case_lower in Hd.
    by rewrite (toLowerCase_ascii _ Ha), (toLowerCase_ascii _ Ha'), Hd.
  - intros taskId S w o. unfold o. rewrite exec_handleTaskAssigned.
    change (jsstring_eqb _ _) with (isAssignedToMe task). split.
    + intros Hm. apply Hyes in Hm. by rewrite Hm.
    + intros Hm. apply Hno in Hm. by rewrite Hm.
  - intros taskId issueId claimIndex S w wait w1 w2 o Hwait Hread. unfold o.
    rewrite exec_handleTaskCreated. cbv zeta. fold wait. rewrite Hwait. fold w1.
    rewrite Hread. fold w2. split; [|split].
    + intros Hm. apply Hyes in Hm. by rewrite Hm.
    + intros Hm Hst. apply Hno in Hm. rewrite Hm.
      change TASK_STATUS.PENDING with 0 in Hst.
      apply N.eqb_neq in Hst. by rewrite Hst.
    + intros Hm Hst. apply Hno in Hm. rewrite Hm, Hst.
      change (TASK_STATUS.PENDING =? 0) with true. cbv iota.
      destruct (ended (exec oracle clock (pickUpTask taskId) S w2)) as [result|e'].
      * destruct (picked result || default false (shouldProcess result));
          cbn [calls]; [by eexists|]. exists []. by rewrite app_nil_r.
      * cbn [calls]. exists []. by rewrite app_nil_r.
  - intros taskId S w Htask Hstatus o. unfold o.
    rewrite (exec_pickUpTask_not_pending _ _ _ _ Htask Hstatus). cbn [ended]. split.
    + intros [-> Hm]. apply Hyes in Hm. by rewrite Hm.
    + intros Hnot. destruct (isAssignedToMe task) eqn:Hme; [|done].
      destruct (N.eqb_spec (Task.status task) TASK_STATUS.ASSIGNED) as [E|E]; [|done].
      destruct Hnot. split; [done|]. by apply Hyes.
  - intros taskId S w pending e Hpending Hstatus w1 Hpick Hsig w2 Hread o. unfold o.
    rewrite exec_pickUpTask. cbv zeta. rewrite Hpending, Hstatus. cbn [N.eqb negb].
    fold w1. rewrite Hpick. apply conflict_signature_spec in Hsig. rewrite Hsig.
    fold w2. rewrite Hread. cbn [ended]. split.
    + intros Hm. apply Hyes in Hm. by rewrite Hm.
    + intros Hm. apply Hno in Hm. by rewrite Hm.
Qed.

(** ** The polling loop *)







(** ** The bot before it was split into layers *)

Lemma fallbackVerification_returns (prLink : jsstring) (S : gset jsstring) (w : World) :
  tasks_after (exec oracle clock (fallbackVerification prLink) S w) = S /\
  exists verdict, ended (exec oracle clock (fallbackVerification prLink) S w) = Val verdict.
Proof.
  rewrite exec_fallbackVerification. cbv zeta.
  destruct (String_match prLink prLinkRegex) as [m|]; [|by eauto].
  destruct (oracle (fallback_request _ _ _) w).1 as [response|e]; [|by eauto].
  destruct (data response) as [|b|n|s|l|props]; [by eauto|..];
    destruct (hexlify_toUtf8Bytes _); by eauto.
Qed.

Lemma exec_legacy_verifyPRWithZKTLS (prLink accessToken : jsstring)
    (S : gset jsstring) (w : World) :
  let ov := exec oracle clock (verifyPR prLink accessToken) S w in
  exec oracle clock (legacy_verifyPRWithZKTLS prLink accessToken) S w =
  match ended ov with
  | Val _ => ov
  | Exn _ =>
      after_calls (calls ov)
        (exec oracle clock (fallbackVerification prLink) S (world_after ov))
  end.
Proof.
  cbv zeta.
  pose proof (exec_leaves_guard_alone _ S w (verifyPR_leaves_guard_alone prLink accessToken))
    as Hg.
  revert Hg. unfold legacy_verifyPRWithZKTLS, verifyPR. rewrite !exec_try_catch.
  destruct (exec oracle clock _ S w) as [[v|e] S' w' cs] eqn:Hb;
    unfold or_catch; cbn [ended tasks_after world_after calls exec after_calls];
    intros ->; rewrite ?app_nil_r; done.
Qed.

(** X12.  The verification of the bot before it was split,
    [verifyPRWithZKTLS], never throws.  It returns the verdict of the
    same steps as [verifyPR] whenever these return one; whenever they
    fail, at the link, the request, the proofs or the extraction, it goes
    on, from where they failed, with [fallbackVerification] of the link
    and returns its verdict.  The guard set is not touched. *)
Theorem legacy_verification_falls_back (prLink accessToken : jsstring)
    (S : gset jsstring) (w : World) :
  let ov := exec oracle clock (verifyPR prLink accessToken) S w in
  let ol := exec oracle clock (legacy_verifyPRWithZKTLS prLink accessToken) S w in
  (exists verdict, ended ol = Val verdict) /\
  tasks_after ol = S /\
  (forall verdict, ended ov = Val verdict -> ol = ov) /\
  (forall e, ended ov = Exn e ->
     let of_ := exec oracle clock (fallbackVerification prLink) S (world_after ov) in
     ended ol = ended of_ /\
     calls ol = calls ov ++ calls of_ /\
     world_after ol = world_after of_).
Proof.
  intros ov ol. unfold ol. rewrite exec_legacy_verifyPRWithZKTLS. cbv zeta. fold ov.
  pose proof (exec_leaves_guard_alone _ S w (verifyPR_leaves_guard_alone prLink accessToken))
    as Hg. fold ov in Hg.
  destruct (fallbackVerification_returns prLink S (world_after ov)) as (Hf & vf & Hvf).
  destruct (ended ov) as [v|e] eqn:Hv.
  - split; [eauto|]. split; [done|]. split; [done|]. done.
  - unfold after_calls. cbn [ended tasks_after world_after calls].
    split; [eauto|]. split; [done|]. split; [done|].
    intros e' _. done.
Qed.

Lemma legacy_verification_guard (prLink accessToken : jsstring)
    (S : gset jsstring) (w : World) :
  tasks_after (exec oracle clock (legacy_verifyPRWithZKTLS prLink accessToken) S w) = S /\
  exists verdict,
    ended (exec oracle clock (legacy_verifyPRWithZKTLS prLink accessToken) S w)
      = Val verdict.
Proof.
  rewrite exec_legacy_verifyPRWithZKTLS. cbv zeta.
  pose proof (exec_leaves_guard_alone _ S w (verifyPR_leaves_guard_alone prLink accessToken))
    as Hg.
  destruct (ended (exec oracle clock (verifyPR prLink accessToken) S w)) as [v|e] eqn:Hv.
  - split; [done|]. eauto.
  - destruct (fallbackVerification_returns prLink S
                (world_after (exec oracle clock (verifyPR prLink accessToken) S w)))
      as (Hf & vf & Hvf).
    unfold after_calls. cbn [ended tasks_after]. split; [done|]. eauto.
Qed.

Lemma exec_legacy_processTask (taskId : N) (S : gset jsstring) (w : World) :
  toString taskId ∉ S ->
  exec oracle clock (legacy_processTask taskId) S w =
  let c1 := getTask taskId in
  let w1 := (oracle c1 w).2 in
  match (oracle c1 w).1 with
  | Exn e => Outcome (Val tt) S w1 [c1]
  | Val task =>
      let c2 := getClaim (Task.issueId task) (Task.claimIndex task) in
      let w2 := (oracle c2 w1).2 in
      match (oracle c2 w1).1 with
      | Exn e => Outcome (Val tt) S w2 [c1; c2]
      | Val claimResult =>
          let ol := exec oracle clock
                      (legacy_verifyPRWithZKTLS (Task.prLink task)
                         (js_or (Some (Claim._5 claimResult)) (js_or None [])))
                      ({[toString taskId]} ∪ S) w2 in
          match ended ol with
          | Exn e => Outcome (Val tt) S (world_after ol) (c1 :: c2 :: calls ol)
          | Val verdict =>
              let c3 := submitValidation taskId (Verdict.isValid verdict)
                          (Verdict.zkProof verdict) in
              Outcome (Val tt) S (oracle c3 (world_after ol)).2
                (c1 :: c2 :: calls ol ++ [c3])
          end
      end
  end.
Proof.
  intros H. unfold legacy_processTask. cbn [exec].
  rewrite bool_decide_eq_false_2 by done.
  pose proof (guard_restored _ _ H) as HS.
  exec_steps. rewrite exec_try_finally.
  exec_steps.
  destruct (oracle (getTask taskId) w) as [[task|e] w1]; exec_steps;
    [|f_equal; exact HS].
  destruct (oracle (getClaim _ _) w1) as [[claimResult|e] w2]; exec_steps;
    [|f_equal; exact HS].
  destruct (legacy_verification_guard (Task.prLink task)
              (js_or (Some (Claim._5 claimResult)) (js_or None []))
              ({[toString taskId]} ∪ S) w2) as (Hg & verdict & Hv).
  destruct (exec oracle clock (legacy_verifyPRWithZKTLS _ _) _ w2) as [r S' w' cs].
  cbn [ended tasks_after] in Hg, Hv. subst S' r.
  exec_steps. unfold legacy_submitValidation. exec_steps.
  destruct (oracle (submitValidation _ _ _) w') as [[receipt|e] w3]; exec_steps;
    f_equal; first [exact HS|by rewrite ?app_nil_r].
Qed.

(** X13.  [processTask] of the bot before it was split never throws:
    every failure, of a read, of the verification or of the submission,
    ends the attempt normally, and the guard set is left as it was.  An
    attempt whose reads of the task and of the claim succeed always ends
    in a submission, of the verdict [verifyPRWithZKTLS] returned, that of
    the fallback included. *)
Theorem legacy_processTask_swallows (taskId : N) (S : gset jsstring) (w : World) :
  let o := exec oracle clock (legacy_processTask taskId) S w in
  ended o = Val tt /\
  tasks_after o = S /\
  (toString taskId ∈ S -> calls o = []) /\
  (toString taskId ∉ S ->
   forall task claimResult,
     (oracle (getTask taskId) w).1 = Val task ->
     let w1 := (oracle (getTask taskId) w).2 in
     let read := getClaim (Task.issueId task) (Task.claimIndex task) in
     (oracle read w1).1 = Val claimResult ->
     let ol := exec oracle clock
                 (legacy_verifyPRWithZKTLS (Task.prLink task) (Claim._5 claimResult))
                 ({[toString taskId]} ∪ S) (oracle read w1).2 in
     exists verdict,
       ended ol = Val verdict /\
       calls o =
         getTask taskId :: read :: calls ol
           ++ [submitValidation taskId (Verdict.isValid verdict)
                 (Verdict.zkProof verdict)]).
Proof.
  intros o. unfold o.
  destruct (decide (toString taskId ∈ S)) as [Hin|Hin].
  { unfold legacy_processTask. cbn [exec]. rewrite bool_decide_eq_true_2 by done.
    cbn [exec ended tasks_after calls]. done. }
  rewrite exec_legacy_processTask by done. cbv zeta.
  destruct (oracle (getTask taskId) w).1 as [task|e] eqn:Htask.
  2:{ cbn [ended tasks_after calls]. split; [done|]. split; [done|].
      split; [done|]. intros _ task' claimResult' [=]. }
  destruct (oracle (getClaim (Task.issueId task) (Task.claimIndex task))
              (oracle (getTask taskId) w).2).1 as [claimResult|e] eqn:Hclaim.
  2:{ cbn [ended tasks_after calls]. split; [done|]. split; [done|].
      split; [done|]. intros _ task' claimResult' [= <-]. cbv zeta.
      rewrite Hclaim. done. }
  assert (js_or (Some (Claim._5 claimResult)) (js_or None []) = Claim._5 claimResult)
    as -> by (by destruct (Claim._5 claimResult)).
  destruct (legacy_verification_guard (Task.prLink task) (Claim._5 claimResult)
              ({[toString taskId]} ∪ S)
              (oracle (getClaim (Task.issueId task) (Task.claimIndex task))
                 (oracle (getTask taskId) w).2).2) as (_ & verdict & Hv).
  rewrite Hv. cbn [ended tasks_after calls]. split; [done|]. split; [done|].
  split; [done|]. intros _ task' claimResult' [= <-]. cbv zeta.
  rewrite Hclaim. intros [= <-]. exists verdict. done.
Qed.

Lemma legacy_processTask_quiet (taskId : N) (S : gset jsstring) (w : World) :
  ended (exec oracle clock (legacy_processTask taskId) S w) = Val tt /\
  tasks_after (exec oracle clock (legacy_processTask taskId) S w) = S.
Proof.
  destruct (decide (toString taskId ∈ S)) as [Hin|Hin].
  { unfold legacy_processTask. cbn [exec]. rewrite bool_decide_eq_true_2 by done.
    cbn [exec ended tasks_after]. done. }
  rewrite exec_legacy_processTask by done. cbv zeta.
  destruct (oracle (getTask taskId) w).1 as [task|e]; [|done].
  destruct (oracle (getClaim _ _) _).1 as [claimResult|e]; [|done].
  by destruct (ended (exec oracle clock (legacy_verifyPRWithZKTLS _ _) _ _)).
Qed.

Lemma restores_bind {A B} (p : prog A) (f : A -> prog B) :
  (forall S w, tasks_after (exec oracle clock p S w) = S) ->
  (forall a S w, tasks_after (exec oracle clock (f a) S w) = S) ->
  forall S w, tasks_after (exec oracle clock (bind p f) S w) = S.
Proof.
  intros Hp Hf S w. rewrite exec_bind. unfold and_then.
  specialize (Hp S w).
  destruct (exec oracle clock p S w) as [[a|e] S' w' cs]; cbn [tasks_after] in Hp;
    subst S'; cbn [ended tasks_after world_after calls]; [|done].
  unfold after_calls. cbn [tasks_after]. apply Hf.
Qed.

Lemma restores_try_catch {A} (p : prog A) (h : error -> prog A) :
  (forall S w, tasks_after (exec oracle clock p S w) = S) ->
  (forall e S w, tasks_after (exec oracle clock (h e) S w) = S) ->
  forall S w, tasks_after (exec oracle clock (try_catch p h) S w) = S.
Proof.
  intros Hp Hh S w. rewrite exec_try_catch. unfold or_catch.
  specialize (Hp S w).
  destruct (exec oracle clock p S w) as [[a|e] S' w' cs]; cbn [tasks_after] in Hp;
    subst S'; cbn [ended tasks_after world_after calls]; [done|].
  unfold after_calls. cbn [tasks_after]. apply Hh.
Qed.

Lemma restores_await (c : call) (S : gset jsstring) (w : World) :
  tasks_after (exec oracle clock (await c) S w) = S.
Proof. by rewrite exec_await. Qed.

Lemma returns_try_catch (p : prog unit) (h : error -> prog unit) :
  (forall e S w, ended (exec oracle clock (h e) S w) = Val tt) ->
  forall S w, ended (exec oracle clock (try_catch p h) S w) = Val tt.
Proof.
  intros Hh S w. rewrite exec_try_catch. unfold or_catch.
  destruct (exec oracle clock p S w) as [[[]|e] S' w' cs];
    cbn [ended tasks_after world_after calls]; [done|].
  unfold after_calls. cbn [ended]. apply Hh.
Qed.

(** X14.  [pickUpTask] of the bot before it was split never throws and
    leaves the guard set as it was: a failed read, a failed write and a
    failed re-read all end it normally.  After a confirmed acquisition it
    goes on to process the task itself. *)
Theorem legacy_pickUpTask_swallows (taskId : N) (S : gset jsstring) (w : World) :
  let o := exec oracle clock (legacy_pickUpTask taskId) S w in
  ended o = Val tt /\
  tasks_after o = S /\
  (forall task receipt,
     (oracle (getTask taskId) w).1 = Val task ->
     Task.status task = 0 ->
     let w1 := (oracle (getTask taskId) w).2 in
     (oracle (pickTask taskId) w1).1 = Val receipt ->
     calls o =
       getTask taskId :: pickTask taskId
         :: calls (exec oracle clock (legacy_processTask taskId) S
                     (oracle (pickTask taskId) w1).2)).
Proof.
  intros o. unfold o.
  assert (forall S w, tasks_after (exec oracle clock (legacy_processTask taskId) S w) = S)
    as Hp by (intros; apply legacy_processTask_quiet).
  split; [|split].
  - unfold legacy_pickUpTask. apply returns_try_catch. intros e S' w'.
    destruct (_ || _); [|done].
    apply returns_try_catch. done.
  - unfold legacy_pickUpTask. apply restores_try_catch.
    + apply restores_bind; [intros; apply restores_await|].
      intros task S' w'. destruct (negb _).
      * destruct (_ && _); [apply Hp|done].
      * apply restores_bind; [intros; apply restores_await|]. intros _. apply Hp.
    + intros e S' w'. destruct (_ || _); [|done].
      apply restores_try_catch; [|done].
      apply restores_bind; [intros; apply restores_await|].
      intros task S'' w''. destruct (jsstring_eqb _ _); [apply Hp|done].
  - intros task receipt Htask Hstatus Hpick.
    set (w1 := (oracle (getTask taskId) w).2) in *.
    unfold legacy_pickUpTask. rewrite exec_try_catch, exec_bind, exec_await.
    unfold and_then. cbn [ended tasks_after world_after calls].
    rewrite Htask, Hstatus. cbn [N.eqb negb].
    rewrite exec_bind, exec_await. unfold and_then.
    cbn [ended tasks_after world_after calls]. fold w1. rewrite Hpick.
    destruct (legacy_processTask_quiet taskId S (oracle (pickTask taskId) w1).2)
      as [He _].
    destruct (exec oracle clock (legacy_processTask taskId) S _) as [r S' w' cs].
    cbn [ended] in He. subst r. unfold or_catch, after_calls.
    cbn [ended tasks_after world_after calls app]. done.
Qed.

(** ** The claims contract of the repository *)

(** X15.  [getClaim] looks the IssuesClaim contract up at most once per
    success: with the field [issuesClaimContract] set, it reads the claim
    from that contract and asks the AVS contract nothing, and the field
    stays as it is, whatever the AVS contract would answer now; with the
    field [null], it asks the AVS contract first, and either sets the
    field to the address answered and reads the claim there, or fails
    with the field still [null] and without reading any claim.  So in
    calls made one after the other, every claim is read from the contract
    found by the first successful lookup. *)
Theorem claims_contract_pinned (Chain : Type)
    (read_issuesClaimContract : Chain -> result jsstring * Chain)
    (read_claims : jsstring -> N -> N -> Chain -> result Claim.t * Chain)
    (issueId claimIndex : N) (chain : Chain) :
  let getClaim := OperatorRepository.getClaim read_issuesClaimContract read_claims in
  let getClaims := OperatorRepository.getClaims read_issuesClaimContract read_claims in
  let claims address (request : N * N) :=
    OperatorRepository.issuesClaim_claims address request.1 request.2 in
  (forall contract,
     let run := getClaim (Some contract) issueId claimIndex chain in
     OperatorRepository.returned run = (read_claims contract issueId claimIndex chain).1 /\
     OperatorRepository.contract_after run = Some contract /\
     OperatorRepository.contract_calls run = [claims contract (issueId, claimIndex)]) /\
  (let run := getClaim None issueId claimIndex chain in
   let chain1 := (read_issuesClaimContract chain).2 in
   match (read_issuesClaimContract chain).1 with
   | Val address =>
       OperatorRepository.returned run
         = (read_claims address issueId claimIndex chain1).1 /\
       OperatorRepository.contract_after run = Some address /\
       OperatorRepository.contract_calls run
         = [OperatorRepository.avs_issuesClaimContract;
            claims address (issueId, claimIndex)]
   | Exn e =>
       OperatorRepository.returned run = Exn e /\
       OperatorRepository.contract_after run = None /\
       OperatorRepository.contract_calls run = [OperatorRepository.avs_issuesClaimContract]
   end) /\
  (forall contract requests chain',
     let run := getClaims (Some contract) requests chain' in
     OperatorRepository.contract_after run = Some contract /\
     OperatorRepository.contract_calls run = map (claims contract) requests) /\
  (forall requests chain',
     let run := getClaims None requests chain' in
     match OperatorRepository.contract_after run with
     | None =>
         OperatorRepository.contract_calls run
           = repeat OperatorRepository.avs_issuesClaimContract (length requests)
     | Some address =>
         exists failed : nat,
           OperatorRepository.contract_calls run
             = repeat OperatorRepository.avs_issuesClaimContract (Datatypes.S failed)
                 ++ map (claims address) (drop failed requests)
     end).
Proof.
  intros getClaim getClaims claims.
  assert (Hset : forall contract i j chain',
            let run := getClaim (Some contract) i j chain' in
            OperatorRepository.returned run = (read_claims contract i j chain').1 /\
            OperatorRepository.contract_after run = Some contract /\
            OperatorRepository.chain_after run = (read_claims contract i j chain').2 /\
            OperatorRepository.contract_calls run = [claims contract (i, j)]).
  { intros contract i j chain'. unfold getClaim, OperatorRepository.getClaim.
    cbn [OperatorRepository.initIssuesClaimContract OperatorRepository.returned
         OperatorRepository.contract_after OperatorRepository.chain_after
         OperatorRepository.contract_calls].
    destruct (read_claims contract i j chain') as [r chain'']. done. }
  assert (Hmany : forall contract requests chain',
            let run := getClaims (Some contract) requests chain' in
            OperatorRepository.contract_after run = Some contract /\
            OperatorRepository.contract_calls run = map (claims contract) requests).
  { intros contract requests. induction requests as [|[i j] later IH]; intros chain'.
    - done.
    - cbv zeta. unfold getClaims. cbn [OperatorRepository.getClaims].
      fold getClaims. fold getClaim.
      destruct (Hset contract i j chain') as (_ & -> & _ & ->).
      cbn [OperatorRepository.contract_after OperatorRepository.contract_calls].
      destruct (IH (OperatorRepository.chain_after (getClaim (Some contract) i j chain')))
        as [-> ->].
      done. }
  assert (Hnull : forall i j chain',
            let run := getClaim None i j chain' in
            match (read_issuesClaimContract chain').1 with
            | Val address =>
                OperatorRepository.returned run
                  = (read_claims address i j (read_issuesClaimContract chain').2).1 /\
                OperatorRepository.contract_after run = Some address /\
                OperatorRepository.contract_calls run
                  = [OperatorRepository.avs_issuesClaimContract; claims address (i, j)]
            | Exn e =>
                OperatorRepository.returned run = Exn e /\
                OperatorRepository.contract_after run = None /\
                OperatorRepository.contract_calls run
                  = [OperatorRepository.avs_issuesClaimContract]
            end).
  { intros i j chain'. unfold getClaim, OperatorRepository.getClaim.
    cbn [OperatorRepository.initIssuesClaimContract].
    destruct (read_issuesClaimContract chain') as [[address|e] chain1];
      cbn [fst snd OperatorRepository.returned OperatorRepository.contract_after
           OperatorRepository.chain_after OperatorRepository.contract_calls]; [|done].
    destruct (read_claims address i j chain1) as [r chain2]. done. }
  split; [|split; [|split]].
  - intros contract. destruct (Hset contract issueId claimIndex chain) as (? & ? & _ & ?).
    done.
  - apply Hnull.
  - apply Hmany.
  - intros requests. induction requests as [|[i j] later IH]; intros chain'.
    + done.
    + cbv zeta. unfold getClaims. cbn [OperatorRepository.getClaims].
      fold getClaims. fold getClaim.
      cbn [OperatorRepository.contract_after OperatorRepository.contract_calls].
      pose proof (Hnull i j chain') as Hfirst. cbv zeta in Hfirst.
      destruct (read_issuesClaimContract chain').1 as [address|e].
      * destruct Hfirst as (_ & Hc & Hcalls). rewrite Hc, Hcalls.
        destruct (Hmany address later
                    (OperatorRepository.chain_after (getClaim None i j chain')))
          as [-> ->].
        exists 0%nat. done.
      * destruct Hfirst as (_ & Hc & Hcalls). rewrite Hc, Hcalls.
        specialize (IH (OperatorRepository.chain_after (getClaim None i j chain'))).
        cbv zeta in IH.
        destruct (OperatorRepository.contract_after (getClaims None later _))
          as [address|].
        -- destruct IH as [failed ->]. exists (Datatypes.S failed). done.
        -- rewrite IH. done.
Qed.

(** ** From the payload to the contexts *)

Lemma embeddable_spec (c : N) :
  embeddable c = true ->
  32 <= c /\ c <> 92 /\ is_high_surrogate c = false /\ is_low_surrogate c = false /\
  c <> 8232 /\ c <> 8233.
Proof.
  unfold embeddable. rewrite !andb_true_iff, !negb_true_iff, !N.eqb_neq, N.leb_le.
  intros [[[[[? ?] ?] ?] ?] ?]. done.
Qed.

Lemma quote_body_cons (c : N) (s : jsstring) :
  embeddable c = true ->
  quote_body (c :: s) = if c =? 34 then 92 :: 34 :: quote_body s else c :: quote_body s.
Proof.
  intros H. apply embeddable_spec in H as (H32 & H92 & Hh & Hl & _).
  cbn [quote_body].
  assert ((c =? 8) = false) as -> by (apply N.eqb_neq; lia).
  assert ((c =? 9) = false) as -> by (apply N.eqb_neq; lia).
  assert ((c =? 10) = false) as -> by (apply N.eqb_neq; lia).
  assert ((c =? 12) = false) as -> by (apply N.eqb_neq; lia).
  assert ((c =? 13) = false) as -> by (apply N.eqb_neq; lia).
  assert ((c =? 92) = false) as -> by (by apply N.eqb_neq).
  assert ((c <? 32) = false) as -> by (apply N.ltb_ge; lia).
  rewrite Hh, Hl. done.
Qed.

Lemma quote_body_app (s t : jsstring) :
  forallb embeddable s = true -> quote_body (s ++ t) = quote_body s ++ quote_body t.
Proof.
  induction s as [|c s IH]; [done|]. cbn [forallb app].
  intros [Hc Hs]%andb_true_iff. rewrite !quote_body_cons by done.
  rewrite IH by done. by destruct (c =? 34).
Qed.

(** Un-escaping gives the context back. *)
Lemma unescape_quote_body (s : jsstring) :
  forallb embeddable s = true -> unescape_quotes (quote_body s) = s.
Proof.
  induction s as [|c s IH]; [done|]. cbn [forallb].
  intros [Hc Hs]%andb_true_iff. rewrite quote_body_cons by done.
  destruct (N.eqb_spec c 34) as [->|Hq].
  - cbn [unescape_quotes]. cbn. by rewrite IH.
  - apply embeddable_spec in Hc as (_ & H92 & _).
    cbn [unescape_quotes]. apply N.eqb_neq in H92. rewrite H92. cbn [andb].
    destruct (quote_body s) as [|d q] eqn:E.
    + specialize (IH Hs). cbn in IH. by subst s.
    + by rewrite IH.
Qed.

Lemma quote_body_dot (s : jsstring) :
  forallb embeddable s = true -> Forall (fun c => re_dot c = true) (quote_body s).
Proof.
  induction s as [|c s IH]; [constructor|]. cbn [forallb].
  intros [Hc Hs]%andb_true_iff. rewrite quote_body_cons by done.
  assert (re_dot c = true) as Hdot.
  { apply embeddable_spec in Hc as (H32 & _ & _ & _ & H1 & H2).
    unfold re_dot. apply negb_true_iff.
    rewrite !orb_false_iff, !N.eqb_neq. repeat split; lia. }
  destruct (c =? 34); repeat constructor; auto.
Qed.

(** In an escaped context no quotation mark follows a closing brace. *)
Lemma quote_body_head (s : jsstring) :
  forallb embeddable s = true -> forall t, starts_with [34] (quote_body s ++ 125 :: t) = false.
Proof.
  destruct s as [|c s]; [done|]. cbn [forallb].
  intros [Hc Hs]%andb_true_iff t. rewrite quote_body_cons by done.
  destruct (N.eqb_spec c 34) as [->|Hq]; [done|].
  cbn [app starts_with]. apply andb_false_iff. left. apply N.eqb_neq. congruence.
Qed.

Lemma quote_body_no_end (s : jsstring) :
  forallb embeddable s = true ->
  forall d1 d2 t, quote_body s = d1 ++ d2 -> d2 <> [] ->
    starts_with [125; 34] (d2 ++ 125 :: t) = false.
Proof.
  induction s as [|c s IH]; cbn [forallb].
  - intros _ d1 d2 t E Hne. cbn in E. symmetry in E.
    apply app_eq_nil in E as [_ ->]. done.
  - intros [Hc Hs]%andb_true_iff d1 d2 t. rewrite quote_body_cons by done.
    destruct (N.eqb_spec c 34) as [->|Hq].
    + intros E Hne. destruct d1 as [|x [|y d1]]; cbn [app] in E.
      * by subst d2.
      * injection E as <- <-. done.
      * injection E as <- <- E. by eapply IH.
    + intros E Hne. destruct d1 as [|x d1]; cbn [app] in E.
      * subst d2. cbn [app starts_with].
        apply andb_false_iff. right.
        pose proof (quote_body_head s Hs t) as Hh. cbn [starts_with] in Hh.
        destruct (quote_body s ++ 125 :: t); [done|].
        by rewrite andb_true_r in Hh |- *.
      * injection E as <- E. by eapply IH.
Qed.

(** The matcher on a literal, on a stopped star and on a lazy star. *)
Lemma run_Seq_Lit (l : jsstring) (r : regex) (s : jsstring) (caps : list jsstring) :
  run (Seq (Lit l) r) s caps =
  if starts_with l s then run r (drop (length l) s) caps else [].
Proof.
  cbn [run]. rewrite run_Lit. destruct (starts_with l s); [|done].
  cbn [flat_map fst snd]. by rewrite app_nil_r.
Qed.

Lemma flat_map_star_rests_skip {B} (g : jsstring -> list B) (p : N -> bool)
    (d t : jsstring) :
  Forall (fun c => p c = true) d ->
  (forall d1 d2, d = d1 ++ d2 -> d2 <> [] -> g (d2 ++ t) = []) ->
  flat_map g (star_rests p (d ++ t)) = flat_map g (star_rests p t).
Proof.
  induction 1 as [|c d Hc Hd IH]; intros Hg; [done|].
  cbn [app star_rests]. rewrite Hc. cbn [flat_map].
  pose proof (Hg [] (c :: d) eq_refl ltac:(done)) as H0. cbn [app] in H0.
  rewrite H0. cbn [app].
  apply IH. intros d1 d2 -> Hne. by apply (Hg (c :: d1) d2).
Qed.

Lemma flat_map_fused {A B C D} (h : C -> list D) (k : B -> C) (j : A -> list B)
    (l : list A) :
  flat_map h (map k (flat_map j l)) = flat_map (fun a => flat_map h (map k (j a))) l.
Proof.
  induction l as [|a l IH]; [done|].
  cbn [flat_map]. by rewrite map_app, flat_map_app, IH.
Qed.

Lemma starts_with_long (l a b : jsstring) :
  (length l <= length a)%nat -> starts_with l (a ++ b) = starts_with l a.
Proof.
  revert a. induction l as [|x l IH]; intros a Hlen; [done|].
  destruct a as [|y a]; cbn [length] in Hlen; [lia|].
  cbn [app starts_with]. rewrite IH by lia. done.
Qed.

Lemma search_here (r : regex) (s : jsstring) (m : rmatch) :
  match_at r s = Some m -> search r s = Some m.
Proof. intros H. destruct s; cbn [search]; by rewrite H. Qed.

Lemma search_skip (r : regex) (pre t : jsstring) :
  (forall p1 p2, pre = p1 ++ p2 -> p2 <> [] -> match_at r (p2 ++ t) = None) ->
  search r (pre ++ t) = search r t.
Proof.
  induction pre as [|c pre IH]; intros H; [done|].
  pose proof (H [] (c :: pre) eq_refl ltac:(done)) as H0. cbn [app] in H0.
  cbn [app search]. rewrite H0.
  apply IH. intros p1 p2 -> Hne. by apply (H (c :: p1) p2).
Qed.

Lemma starts_with_self (l t : jsstring) : starts_with l (l ++ t) = true.
Proof. apply starts_with_spec. eauto. Qed.

Lemma run_context_group (q rest : jsstring) (caps : list jsstring) :
  Forall (fun c => re_dot c = true) q ->
  (forall d1 d2, q = d1 ++ d2 -> d2 <> [] ->
     starts_with [125; 34] (d2 ++ 125 :: 34 :: rest) = false) ->
  exists others,
    run (Seq (Group (Cat [Lit (js "{"); Star false re_dot; Lit (js "}")])) (Lit (js "'")))
      (123 :: q ++ 125 :: 34 :: rest) caps
    = (caps ++ [123 :: q ++ [125]], rest) :: others.
Proof.
  intros Hdot Hend. cbn [Cat].
  change (js "{") with [123]. change (js "}") with [125]. change (js "'") with [34].
  cbn [run].
  rewrite (run_Lit [123]).
  cbn [starts_with]. rewrite N.eqb_refl.
  cbn [andb length drop flat_map fst snd]. rewrite app_nil_r.
  rewrite flat_map_fused.
  set (s2 := 123 :: q ++ 125 :: 34 :: rest).
  set (g := fun u : jsstring =>
              flat_map (fun m : list jsstring * jsstring => run (Lit [34]) m.2 m.1)
                (map (fun m : list jsstring * jsstring =>
                        (m.1 ++ [take (length s2 - length m.2) s2], m.2))
                   (run (Lit [125]) u caps))).
  assert (forall l : list jsstring,
            flat_map (fun a : list jsstring * jsstring =>
                        flat_map (fun m : list jsstring * jsstring => run (Lit [34]) m.2 m.1)
                          (map (fun m : list jsstring * jsstring =>
                                  (m.1 ++ [take (length s2 - length m.2) s2], m.2))
                             (run (Lit [125]) a.2 a.1)))
              (map (pair caps) l)
            = flat_map g l) as ->.
  { induction l as [|u l IH]; [done|]. cbn [map flat_map fst snd]. by rewrite IH. }
  assert (forall u, starts_with [125; 34] u = false -> g u = []) as Hg.
  { intros u Hu. unfold g. rewrite run_Lit.
    destruct u as [|x [|y u]]; [done| |]; cbn [starts_with] in Hu |- *;
      (destruct (125 =? x); cbn [andb] in Hu |- *; [|done]);
      cbn [length drop map flat_map fst snd]; rewrite run_Lit;
      cbn [starts_with]; [done|].
    destruct (34 =? y); [done|]. done. }
  rewrite drop_0.
  rewrite (flat_map_star_rests_skip g re_dot q (125 :: 34 :: rest) Hdot)
    by (intros d1 d2 E Hne; apply Hg; by eapply Hend).
  cbn [star_rests flat_map].
  unfold g at 1. rewrite run_Lit. cbn [starts_with]. rewrite N.eqb_refl.
  cbn [andb length drop map flat_map fst snd]. rewrite run_Lit.
  cbn [starts_with]. rewrite N.eqb_refl.
  cbn [andb length drop map flat_map fst snd app]. rewrite drop_0.
  assert (take (length s2 - Datatypes.S (length rest)) s2 = 123 :: q ++ [125]) as ->.
  { unfold s2.
    replace (123 :: q ++ 125 :: 34 :: rest) with ((123 :: q ++ [125]) ++ 34 :: rest)
      by (cbn [app]; by rewrite <- app_assoc).
    rewrite length_app.
    change (length (34 :: rest)) with (Datatypes.S (length rest)).
    rewrite Nat.add_sub. apply take_app_length. }
  eauto.
Qed.

Lemma match_at_context (q rest : jsstring) :
  Forall (fun c => re_dot c = true) q ->
  (forall d1 d2, q = d1 ++ d2 -> d2 <> [] ->
     starts_with [125; 34] (d2 ++ 125 :: 34 :: rest) = false) ->
  match_at contextRegex (js "'context':" ++ 34 :: 123 :: q ++ 125 :: 34 :: rest) =
  Some (RMatch (js "'context':" ++ 34 :: 123 :: q ++ [125; 34]) [123 :: q ++ [125]] rest).
Proof.
  intros Hdot Hend. unfold match_at, contextRegex. cbn [Cat].
  rewrite run_Seq_Lit, starts_with_self, drop_app_length.
  change (run (Seq (Star true re_s) ?r) (34 :: ?t) ?caps)
    with (flat_map (fun m : list jsstring * jsstring => run r m.2 m.1)
            (map (pair caps) (rev (star_rests re_s (34 :: t))))).
  cbn [star_rests]. change (re_s 34) with false.
  cbn [rev app map flat_map fst snd]. rewrite app_nil_r.
  rewrite run_Seq_Lit. change (js "'") with [34]. cbn [starts_with].
  rewrite N.eqb_refl. cbn [andb length drop].
  destruct (run_context_group q rest [] Hdot Hend) as [others Hrun].
  change (js "'") with [34] in Hrun. cbn [Cat] in Hrun. rewrite Hrun.
  cbn [app]. f_equal. f_equal.
  replace (js "'context':" ++ 34 :: 123 :: q ++ 125 :: 34 :: rest)
    with ((js "'context':" ++ 34 :: 123 :: q ++ [125; 34]) ++ rest).
  - rewrite length_app, Nat.add_sub. apply take_app_length.
  - rewrite <- !app_assoc. cbn [app]. by rewrite <- app_assoc.
Qed.

Lemma match_at_no_key (s : jsstring) :
  starts_with (js "'context':") s = false -> match_at contextRegex s = None.
Proof.
  intros H. unfold match_at, contextRegex. cbn [Cat]. by rewrite run_Seq_Lit, H.
Qed.

Lemma key_free_spec (pre t : jsstring) :
  key_free pre = true ->
  forall p1 p2, pre = p1 ++ p2 -> p2 <> [] ->
    starts_with (js "'context':") (p2 ++ js "'context':" ++ t) = false.
Proof.
  induction pre as [|c pre IH]; cbn [key_free].
  - intros _ p1 p2 E Hne. symmetry in E. apply app_eq_nil in E as [_ ->]. done.
  - intros [Hc Hpre]%andb_true_iff p1 p2 E Hne.
    destruct p1 as [|x p1]; cbn [app] in E.
    + subst p2. apply negb_true_iff in Hc.
      rewrite app_assoc, starts_with_long; [done|].
      rewrite length_app. cbn [length]. lia.
    + injection E as <- E. by eapply IH.
Qed.

Lemma embedded_context (inner rest : jsstring) :
  forallb embeddable inner = true ->
  let context := js "{" ++ inner ++ js "}" in
  quote_body context = 123 :: quote_body inner ++ [125] /\
  match_at contextRegex (embedded context ++ rest) =
  Some (RMatch (embedded context) [quote_body context] rest).
Proof.
  intros Hinner context.
  assert (quote_body context = 123 :: quote_body inner ++ [125]) as Hq.
  { unfold context. change (js "{") with [123]. change (js "}") with [125].
    cbn [app]. rewrite quote_body_cons by done. change (123 =? 34) with false.
    cbv iota. by rewrite quote_body_app. }
  split; [done|].
  unfold embedded, QuoteJSONString. rewrite Hq.
  replace ((js "'context':" ++ 34 :: (123 :: quote_body inner ++ [125]) ++ [34]) ++ rest)
    with (js "'context':" ++ 34 :: 123 :: quote_body inner ++ 125 :: 34 :: rest)
    by (rewrite <- !app_assoc; cbn [app]; by rewrite <- !app_assoc).
  rewrite match_at_context.
  - do 2 f_equal. cbn [app]. by rewrite <- !app_assoc.
  - by apply quote_body_dot.
  - intros d1 d2 E Hne. by eapply quote_body_no_end.
Qed.

Lemma search_embedded (pre inner rest : jsstring) :
  key_free pre = true -> forallb embeddable inner = true ->
  let context := js "{" ++ inner ++ js "}" in
  search contextRegex (pre ++ embedded context ++ rest) =
  Some (RMatch (embedded context) [quote_body context] rest).
Proof.
  intros Hpre Hinner context.
  destruct (embedded_context inner rest Hinner) as [_ Hm]. fold context in Hm.
  rewrite search_skip; [by apply search_here|].
  intros p1 p2 E Hne. apply match_at_no_key.
  unfold embedded. rewrite <- app_assoc. by eapply key_free_spec.
Qed.

(** X16.  The extraction undoes the embedding.  When the serialized
    payload holds two [context] properties whose values are texts in
    braces, made of code units that [JSON.stringify] copies or
    quotation marks, and the text ['context':] begins nowhere before the
    first and nowhere between the two, then the two fragments the
    pattern finds are these texts as escaped, un-escaping gives the texts
    back, and the verdict is that of the two texts parsed and serialized
    again, [{}] standing for a text [JSON.parse] refuses.  If moreover
    each text is the serialization of what it parses to, the verdict is
    that of the texts themselves. *)
Theorem contexts_recovered (prProofData userProofData : json)
    (pre mid post prInner userInner : jsstring) :
  let prContext := js "{" ++ prInner ++ js "}" in
  let userContext := js "{" ++ userInner ++ js "}" in
  let parsed (context : jsstring) :=
    match JSON_parse context with
    | Some v => v
    | None => JObj []
    end in
  forallb embeddable prInner = true ->
  forallb embeddable userInner = true ->
  key_free pre = true ->
  key_free mid = true ->
  JSON_stringify (JObj [(js "prProofData", prProofData);
                        (js "userProofData", userProofData)])
    = pre ++ embedded prContext ++ mid ++ embedded userContext ++ post ->
  (exists m0 m1 more,
     String_matchAll
       (JSON_stringify (JObj [(js "prProofData", prProofData);
                              (js "userProofData", userProofData)]))
       contextRegex = m0 :: m1 :: more /\
     group1 m0 = quote_body prContext /\ group1 m1 = quote_body userContext) /\
  _parseJSONSafely (quote_body prContext) = parsed prContext /\
  _parseJSONSafely (quote_body userContext) = parsed userContext /\
  _extractAndVerifyProof prProofData userProofData
    = Val (_verifyProofData (JSON_stringify (parsed prContext))
                            (JSON_stringify (parsed userContext))) /\
  (forall prJson userJson,
     JSON_parse prContext = Some prJson -> JSON_stringify prJson = prContext ->
     JSON_parse userContext = Some userJson -> JSON_stringify userJson = userContext ->
     _extractAndVerifyProof prProofData userProofData
       = Val (_verifyProofData prContext userContext)).
Proof.
  intros prContext userContext parsed Hpr Huser Hpre Hmid Hser.
  assert (forall inner,
            forallb embeddable inner = true ->
            _parseJSONSafely (quote_body (js "{" ++ inner ++ js "}"))
              = parsed (js "{" ++ inner ++ js "}")) as Hparse.
  { intros inner Hinner. unfold _parseJSONSafely, parsed.
    rewrite String_replace_escaped_quotes, unescape_quote_body; [done|].
    change (js "{") with [123]. change (js "}") with [125]. cbn [app forallb].
    rewrite forallb_app, Hinner. done. }
  assert (String_matchAll
            (JSON_stringify (JObj [(js "prProofData", prProofData);
                                   (js "userProofData", userProofData)]))
            contextRegex
          = RMatch (embedded prContext) [quote_body prContext]
              (mid ++ embedded userContext ++ post)
              :: RMatch (embedded userContext) [quote_body userContext] post
              :: String_matchAll post contextRegex) as Hall.
  { rewrite Hser, String_matchAll_unfold.
    unfold prContext at 1. rewrite (search_embedded pre prInner _ Hpre Hpr).
    fold prContext. cbn [whole after].
    assert (exists x xs, embedded prContext = x :: xs) as (x & xs & Ex) by (cbn; eauto).
    rewrite Ex at 2. f_equal.
    rewrite String_matchAll_unfold.
    unfold userContext at 1. rewrite (search_embedded mid userInner _ Hmid Huser).
    fold userContext. cbn [whole after].
    assert (exists y ys, embedded userContext = y :: ys) as (y & ys & Ey) by (cbn; eauto).
    rewrite Ey at 2. done. }
  split; [eauto 10|].
  split; [by apply Hparse|]. split; [by apply Hparse|].
  assert (_extractAndVerifyProof prProofData userProofData
          = Val (_verifyProofData (JSON_stringify (parsed prContext))
                                  (JSON_stringify (parsed userContext)))) as Hv.
  { unfold _extractAndVerifyProof. rewrite Hall. cbn [group1 groups hd].
    unfold prContext, userContext. by rewrite !Hparse. }
  split; [exact Hv|].
  intros prJson userJson Hp1 Hs1 Hp2 Hs2. rewrite Hv. unfold parsed.
  by rewrite Hp1, Hp2, Hs1, Hs2.
Qed.

End Operator.

(** * The properties at concrete inputs *)

(** The payload of the design document's end-to-end example: merged
    [true], logins [bob], ids [42]. *)
Lemma verdict_of_extracted_contexts_witness :
  String_matchAll (Example.serialized Example.prProofData Example.userProofData)
    contextRegex = Example.matches /\
  exists v,
    _extractAndVerifyProof JSON_parse_ref Example.prProofData Example.userProofData
      = Val v /\
    Verification.isValid v = true.
Proof.
  assert (String_matchAll (Example.serialized Example.prProofData Example.userProofData)
            contextRegex = Example.matches) as H by (vm_compute; reflexivity).
  split; [exact H|].
  destruct (verdict_of_extracted_contexts JSON_parse_ref Example.prProofData
              Example.userProofData _ _ _ H) as (v & Hv & Hd & _).
  exists v. split; [exact Hv|]. rewrite Hd. vm_compute. reflexivity.
Defined.

(** The design document's example on [_verifyProofData], and what each
    flip does. *)
Example alice_7_valid :
  Verification.isValid
    (_verifyProofData (js "{'merged':'true','login':'alice','id':'7'}")
                      (js "{'login':'alice','id':'7'}")) = true.
Proof. vm_compute. reflexivity. Qed.

Example alice_7_flips :
  let verdict (pr user : string) :=
    let v := _verifyProofData (js pr) (js user) in
    (Verification.isMerged v, Verification.isValidUser v, Verification.isValidId v,
     Verification.isValid v) in
  verdict "{'merged':'false','login':'alice','id':'7'}"%string
          "{'login':'alice','id':'7'}"%string
    = (false, true, true, false) /\
  verdict "{'merged':'true','login':'alicia','id':'7'}"%string
          "{'login':'alice','id':'7'}"%string
    = (true, false, true, false) /\
  verdict "{'merged':'true','login':'alice','id':'7'}"%string
          "{'login':'alicia','id':'7'}"%string
    = (true, false, true, false) /\
  verdict "{'merged':'true','login':'alice','id':'8'}"%string
          "{'login':'alice','id':'7'}"%string
    = (true, true, false, false) /\
  verdict "{'merged':'true','login':'alice','id':'7'}"%string
          "{'login':'alice','id':'8'}"%string
    = (true, true, false, false) /\
  verdict "{'merged':true,'login':'alice','id':7}"%string
          "{'login':'alice','id':7}"%string
    = (false, true, false, false).
Proof. vm_compute. repeat split. Qed.

(** The PR context has no [merged] field, and the [login] and [id] of the
    base repository's owner come before the author's: the owner's are the
    ones reported and compared, and the verdict is not merged. *)
Lemma first_occurrence_decides_witness :
  (has_field (js "login") (except 34) Example.pr_unmerged (js "upstream") /\
   has_field (js "id") re_d Example.pr_unmerged (js "9") /\
   has_field (js "login") (except 34) Example.user_only (js "bob") /\
   has_field (js "id") re_d Example.user_only (js "42") /\
   ~ (exists merged,
        has_field (js "merged") re_w (Example.pr_unmerged ++ Example.pr_more) merged)) /\
  let v := _verifyProofData (Example.pr_unmerged ++ Example.pr_more)
             (Example.user_only ++ []) in
  Verification.githubUsername v = js "upstream" /\
  Verification.githubUserId v = js "9" /\
  Verification.userLogin v = js "bob" /\
  Verification.userId v = js "42" /\
  Verification.isValidUser v = false /\
  Verification.isValidId v = false /\
  Verification.isMerged v = false.
Proof.
  assert (has_field (js "login") (except 34) Example.pr_unmerged (js "upstream")) as H1
    by (apply field_login; vm_compute; reflexivity).
  assert (has_field (js "id") re_d Example.pr_unmerged (js "9")) as H2
    by (apply field_id; vm_compute; reflexivity).
  assert (has_field (js "login") (except 34) Example.user_only (js "bob")) as H3
    by (apply field_login; vm_compute; reflexivity).
  assert (has_field (js "id") re_d Example.user_only (js "42")) as H4
    by (apply field_id; vm_compute; reflexivity).
  assert (~ (exists merged,
               has_field (js "merged") re_w (Example.pr_unmerged ++ Example.pr_more)
                 merged)) as H5.
  { intros [merged H]. apply field_merged in H. vm_compute in H. discriminate H. }
  split; [repeat split; assumption|].
  destruct (first_occurrence_decides Example.pr_unmerged Example.user_only
              Example.pr_more [])
    as (_ & Hlogin & Hid & Hulogin & Huid & Hsame & Hsameid & Hmerged & _).
  cbv zeta.
  split; [exact (Hlogin _ H1)|]. split; [exact (Hid _ H2)|].
  split; [exact (Hulogin _ H3)|]. split; [exact (Huid _ H4)|].
  split; [|split; [|exact (Hmerged H5)]].
  - apply not_true_is_false. intros E. apply (Hsame _ _ H1 H3) in E. discriminate E.
  - apply not_true_is_false. intros E. apply (Hsameid _ _ H2 H4) in E. discriminate E.
Defined.

(** A PR title with a quotation mark makes the PR context unparsable: the
    verdict is invalid although the PR is merged and the user matches. *)
Lemma unparsable_fragment_degrades_witness :
  JSON_parse_ref
    (String_replace (group1 (hd (RMatch [] [] []) Example.quotedMatches))
       escapedQuoteRegex (js "'")) = None /\
  _parseJSONSafely JSON_parse_ref (group1 (hd (RMatch [] [] []) Example.quotedMatches))
    = JObj [] /\
  exists v,
    _extractAndVerifyProof JSON_parse_ref Example.quotedProofData Example.userProofData
      = Val v /\
    Verification.isMerged v = false /\ Verification.isValid v = false.
Proof.
  assert (JSON_parse_ref
            (String_replace (group1 (hd (RMatch [] [] []) Example.quotedMatches))
               escapedQuoteRegex (js "'")) = None) as H by (vm_compute; reflexivity).
  split; [exact H|].
  destruct (unparsable_fragment_degrades JSON_parse_ref _ H) as [Hempty Hdecision].
  split; [exact Hempty|].
  assert (String_matchAll
            (JSON_stringify (JObj [(js "prProofData", Example.quotedProofData);
                                   (js "userProofData", Example.userProofData)]))
            contextRegex
          = hd (RMatch [] [] []) Example.quotedMatches
              :: hd (RMatch [] [] []) (tl Example.quotedMatches) :: []) as Hm
    by (vm_compute; reflexivity).
  destruct (Hdecision _ _ _ _ _ Hm) as (v & Hv & Hpr & _).
  exists v. split; [exact Hv|].
  destruct (Hpr eq_refl) as (? & ? & ? & ?). split; assumption.
Defined.

(** The platform and the world of the runs below. *)
Abbreviation run_ref p S w := (exec scripted_oracle scripted_clock p S w).
Abbreviation processTask_ref :=
  (processTask JSON_parse_ref encodeURIComponent_ref hexlify_toUtf8Bytes_ref
     (js "TypeError") None None).
Abbreviation verifyPR_ref :=
  (verifyPR JSON_parse_ref encodeURIComponent_ref hexlify_toUtf8Bytes_ref
     (js "TypeError") None None).
Abbreviation pickUpTask_ref :=
  (pickUpTask toLowerCase_ref Example.me).

(** The proof service times out: nothing is submitted for task 1. *)
Lemma verification_fails_closed_witness :
  ((toString 1 ∉ (∅ : gset jsstring)) /\
   (scripted_oracle (getTask 1) Example.world_timeout).1 = Val Example.task1 /\
   (scripted_oracle (getClaim 5 0) Example.world_timeout).1 = Val Example.claim1 /\
   verifyPR_step_fails JSON_parse_ref encodeURIComponent_ref None None script
     scripted_oracle (Task.prLink Example.task1) (js "ghp_token")
     Example.world_timeout) /\
  let o := run_ref (processTask_ref 1) ∅ Example.world_timeout in
  (exists e, ended o = Exn (js "zkTLS verification failed: " ++ e)) /\
  Forall (fun c => is_submitValidation c = false) (calls o) /\
  tasks_after o = ∅.
Proof.
  assert (toString 1 ∉ (∅ : gset jsstring)) as H1 by apply not_elem_of_empty.
  assert ((scripted_oracle (getTask 1) Example.world_timeout).1 = Val Example.task1)
    as H2 by reflexivity.
  assert ((scripted_oracle (getClaim 5 0) Example.world_timeout).1 = Val Example.claim1)
    as H3 by reflexivity.
  assert (verifyPR_step_fails JSON_parse_ref encodeURIComponent_ref None None script
            scripted_oracle (Task.prLink Example.task1) (js "ghp_token")
            Example.world_timeout) as H4.
  { eapply transport_failure; vm_compute; reflexivity. }
  split; [repeat split; assumption|].
  destruct (verification_fails_closed JSON_parse_ref encodeURIComponent_ref
              hexlify_toUtf8Bytes_ref (js "TypeError") None None script
              scripted_oracle scripted_clock 1 ∅ Example.world_timeout
              Example.task1 Example.claim1 H1 H2 H3 H4)
    as ((e & _ & He) & Hsubmit & _ & Hguard).
  cbv zeta. split; [|split; assumption].
  exists e. exact He.
Defined.

Example proof_service_timeout :
  let o := run_ref (processTask_ref 1) ∅ Example.world_timeout in
  ended o = Exn (js "zkTLS verification failed: timeout of 120000ms exceeded") /\
  exists request, calls o = [getTask 1; getClaim 5 0; request].
Proof. vm_compute. split; [reflexivity|]. eauto. Qed.

(** Three calls for task 1 before anything settles: the first is in
    flight, the other two have returned. *)
Lemma processTask_guard_witness :
  run_ref (processTask_ref 1) {[toString 1]} Example.world
    = Outcome (Val tt) {[toString 1]} Example.world [] /\
  tasks_after (run_ref (processTask_ref 1) ∅ Example.world) = ∅ /\
  guard_invariant
    (pool_run scripted_oracle scripted_clock processTask_ref
       (pool_init Example.world) [Call 1; Call 1; Call 1]).
Proof.
  destruct (processTask_guard JSON_parse_ref encodeURIComponent_ref
              hexlify_toUtf8Bytes_ref (js "TypeError") None None script
              scripted_oracle scripted_clock 1) as (Hpresent & Habsent & Hpool).
  split; [|split].
  - apply Hpresent. apply elem_of_singleton. reflexivity.
  - apply Habsent. apply not_elem_of_empty.
  - apply Hpool.
Defined.

Example three_concurrent_attempts :
  let st := pool_run scripted_oracle scripted_clock processTask_ref
              (pool_init Example.world) [Call 1; Call 1; Call 1] in
  map (fun a => suspended a.2) (attempts st) = [true; false; false] /\
  elements (guard st) = [toString 1] /\
  awaited st = [].
Proof. vm_compute. repeat split. Qed.

Example attempts_in_turn :
  let st := pool_run scripted_oracle scripted_clock processTask_ref
              (pool_init Example.world)
              [Call 1; Call 1; Settle 0; Settle 0; Settle 0; Settle 0; Call 1; Call 1] in
  map (fun a => suspended a.2) (attempts st) = [false; false; true; false] /\
  elements (guard st) = [toString 1] /\
  map (fun a => (a.1, is_submitValidation a.2)) (awaited st)
    = [(0%nat, false); (0%nat, false); (0%nat, false); (0%nat, true)].
Proof. vm_compute. repeat split. Qed.

(** The design document's end-to-end run: task 1 is created, the grace
    wait passes, the read shows it assigned to this operator, the payload
    verifies, the verdict is submitted. *)
Example end_to_end :
  let o := run_ref
             (_handleTaskCreated JSON_parse_ref toLowerCase_ref encodeURIComponent_ref
                hexlify_toUtf8Bytes_ref (js "TypeError") None None Example.me 1 5 0)
             ∅ Example.world in
  ended o = Val tt /\
  elements (tasks_after o) = [] /\
  exists request zkProof,
    calls o = [setTimeout 3000; getTask 1; getTask 1; getClaim 5 0; request;
               submitValidation 1 true zkProof].
Proof. vm_compute. split; [reflexivity|]. split; [reflexivity|]. eauto. Qed.

(** A payload with one context fragment. *)
Lemma too_few_contexts_witness :
  (length
     (String_matchAll
        (JSON_stringify (JObj [(js "prProofData", Example.prProofData);
                               (js "userProofData", JStr (js "none"))]))
        contextRegex) < 2)%nat /\
  _extractAndVerifyProof JSON_parse_ref Example.prProofData (JStr (js "none"))
    = Exn (js "Could not extract context from proof data").
Proof.
  assert ((length
             (String_matchAll
                (JSON_stringify (JObj [(js "prProofData", Example.prProofData);
                                       (js "userProofData", JStr (js "none"))]))
                contextRegex) < 2)%nat) as H by (vm_compute; lia).
  split; [exact H|].
  apply (too_few_contexts JSON_parse_ref encodeURIComponent_ref hexlify_toUtf8Bytes_ref
           (js "TypeError") None None script scripted_oracle scripted_clock
           Example.prProofData (JStr (js "none")) H).
Defined.


(** Task 1 is already assigned: to this operator in one world, where
    [pickUpTask] only reads however often it is called, and to another
    operator in the other. *)
Lemma pickUpTask_not_pending_witness :
  ((scripted_oracle (getTask 1) Example.world).1 = Val Example.task1 /\
   Task.status Example.task1 <> TASK_STATUS.PENDING /\
   Task.status Example.task1 = TASK_STATUS.ASSIGNED /\
   toLowerCase_ref (Task.assignedOperator Example.task1) = toLowerCase_ref Example.me /\
   (scripted_oracle (getTask 1) Example.world_other).1 = Val Example.task_other /\
   Task.status Example.task_other <> TASK_STATUS.PENDING /\
   toLowerCase_ref (Task.assignedOperator Example.task_other)
     <> toLowerCase_ref Example.me) /\
  (let o := run_ref (pickUpTask_ref 1) ∅ Example.world in
   calls o = [getTask 1] /\
   ended o = Val {| picked := false; shouldProcess := Some true |}) /\
  (let o := run_ref (pickUpTask_ref 1) ∅ Example.world_other in
   calls o = [getTask 1] /\
   ended o = Val {| picked := false; shouldProcess := Some false |}) /\
  calls (run_ref (times 3 (pickUpTask_ref 1)) ∅ Example.world)
    = [getTask 1; getTask 1; getTask 1].
Proof.
  assert ((scripted_oracle (getTask 1) Example.world).1 = Val Example.task1)
    as H1 by reflexivity.
  assert (Task.status Example.task1 <> TASK_STATUS.PENDING) as H2 by discriminate.
  assert (Task.status Example.task1 = TASK_STATUS.ASSIGNED) as H3 by reflexivity.
  assert (toLowerCase_ref (Task.assignedOperator Example.task1)
          = toLowerCase_ref Example.me) as H4 by (vm_compute; reflexivity).
  assert ((scripted_oracle (getTask 1) Example.world_other).1 = Val Example.task_other)
    as H5 by reflexivity.
  assert (Task.status Example.task_other <> TASK_STATUS.PENDING) as H6 by discriminate.
  assert (toLowerCase_ref (Task.assignedOperator Example.task_other)
          <> toLowerCase_ref Example.me) as H7 by (vm_compute; discriminate).
  split; [repeat split; assumption|].
  destruct (pickUpTask_not_pending toLowerCase_ref Example.me script scripted_oracle
              scripted_clock 1) as [Hone Hmany].
  split; [|split].
  - destruct (Hone ∅ Example.world Example.task1 H1 H2) as (Hcalls & Hmine & _).
    cbv zeta. split; [exact Hcalls|]. exact (Hmine H3 H4).
  - destruct (Hone ∅ Example.world_other Example.task_other H5 H6) as (Hcalls & _ & Hother).
    cbv zeta. split; [exact Hcalls|]. apply Hother. right. exact H7.
  - apply (Hmany (fun w => w = Example.world)); [|reflexivity].
    intros w ->. exists Example.task1. split; [exact H1|]. split; [exact H2|reflexivity].
Defined.

(** A read that never settles, a read that settles after a quarter of a
    second, and one that settles a second too late. *)
Lemma getTask_deadline_witness :
  OperatorRepository.getTask 0 None
    = Some (10000, Exn (js "Timeout getting task details")) /\
  OperatorRepository.getTask 0 (Some (250, Val Example.task1))
    = Some (250, Val Example.task1) /\
  OperatorRepository.getTask 0 (Some (11000, Val Example.task1))
    = Some (10000, Exn (js "Timeout getting task details")).
Proof.
  split; [|split].
  - destruct (getTask_deadline 0 None) as (_ & Hlate & _ & _). apply Hlate. exact I.
  - destruct (getTask_deadline 0 (Some (250, Val Example.task1))) as (_ & _ & Hfirst & _).
    apply Hfirst; [reflexivity|]. vm_compute. reflexivity.
  - destruct (getTask_deadline 0 (Some (11000, Val Example.task1))) as (_ & Hlate & _ & _).
    apply Hlate. vm_compute. reflexivity.
Defined.

(** The wallet prints the address with a checksum in the case of its
    letters, the contract returns it in lower case: the task is this
    operator's at the check, in discovery and in conflict resolution. *)
Lemma assigned_to_self_ignores_case_witness :
  ((forall s : jsstring, ascii_only s -> toLowerCase_ref s = map ascii_lower s) /\
   ascii_only (Task.assignedOperator Example.task1) /\
   ascii_only Example.me /\
   Task.assignedOperator Example.task1 <> Example.me /\
   differ_only_in_case (Task.assignedOperator Example.task1) Example.me) /\
  isAssignedToMe toLowerCase_ref Example.me Example.task1 = true /\
  calls (run_ref
           (_handleTaskCreated JSON_parse_ref toLowerCase_ref encodeURIComponent_ref
              hexlify_toUtf8Bytes_ref (js "TypeError") None None Example.me 1 5 0)
           ∅ Example.world)
    = setTimeout 3000 :: getTask 1
        :: calls (run_ref (processTask_ref 1) ∅ Example.world) /\
  ended (run_ref (pickUpTask_ref 1) ∅ Example.world)
    = Val {| picked := false; shouldProcess := Some true |} /\
  ended (run_ref (pickUpTask_ref 1) ∅ Example.world_conflict)
    = Val {| picked := false; shouldProcess := Some true |}.
Proof.
  assert (forall s : jsstring, ascii_only s -> toLowerCase_ref s = map ascii_lower s)
    as H by (intros s _; reflexivity).
  assert (ascii_only (Task.assignedOperator Example.task1)) as Ha.
  { apply Forall_forall. apply (Forall_forall (fun c => c < 128)).
    vm_compute. repeat constructor. }
  assert (ascii_only Example.me) as Hb.
  { apply (Forall_forall (fun c => c < 128)), Forall_forall.
    vm_compute. repeat constructor. }
  destruct (assigned_to_self_ignores_case JSON_parse_ref toLowerCase_ref
              encodeURIComponent_ref hexlify_toUtf8Bytes_ref (js "TypeError") None None
              Example.me script scripted_oracle scripted_clock H Example.task1 Ha Hb)
    as (Hlower & Hcase & _ & _ & Hcreated & Hpick & Hconflict).
  assert (isAssignedToMe toLowerCase_ref Example.me Example.task1 = true) as Hme.
  { apply Hlower. vm_compute. reflexivity. }
  assert (differ_only_in_case (Task.assignedOperator Example.task1) Example.me) as Hd.
  { apply Hcase. exact Hme. }
  split; [|split; [exact Hme|split; [|split]]].
  - split; [exact H|]. split; [exact Ha|]. split; [exact Hb|].
    split; [discriminate|exact Hd].
  - destruct (Hcreated 1 5 0 ∅ Example.world eq_refl eq_refl) as [Hmine _].
    exact (Hmine Hd).
  - assert (Task.status Example.task1 <> TASK_STATUS.PENDING) as Hst by discriminate.
    destruct (Hpick 1 ∅ Example.world eq_refl Hst) as [Hmine _].
    apply Hmine. split; [reflexivity|exact Hd].
  - assert (conflict_signature (js "execution reverted: TaskAlreadyAssigned()")) as Hsig.
    { exists (js "TaskAlreadyAssigned"), (js "execution reverted: "), (js "()").
      split; [left; reflexivity|reflexivity]. }
    destruct (Hconflict 1 ∅ Example.world_conflict Example.pending1 _
                eq_refl eq_refl eq_refl Hsig eq_refl) as [Hmine _].
    exact (Hmine Hd).
Defined.

(** ** Further properties at concrete inputs *)

(** The request for the link of task 1 under the claim's token, and the
    two proofs of the answer. *)
Lemma callZKTLSAPI_request_witness :
  encodeURIComponent_ref (Task.prLink Example.task1)
    = Val (js "https%3A%2F%2Fgithub.com%2FzkPull%2Fcontracts%2Fpull%2F12") /\
  let o := run_ref
             (_callZKTLSAPI encodeURIComponent_ref (js "TypeError") None None
                (Task.prLink Example.task1) (js "ghp_token"))
             ∅ Example.world in
  calls o =
    [axios_get
       (js "https://zkpull-services.up.railway.app/generate-proof?url=https%3A%2F%2Fgithub.com%2FzkPull%2Fcontracts%2Fpull%2F12")
       [(js "Authorization", js "Bearer ghp_token")] (Some 120000)] /\
  ended o = Val (Example.prProofData, Example.userProofData).
Proof.
  assert (encodeURIComponent_ref (Task.prLink Example.task1)
          = Val (js "https%3A%2F%2Fgithub.com%2FzkPull%2Fcontracts%2Fpull%2F12")) as H
    by (vm_compute; reflexivity).
  split; [exact H|].
  destruct (callZKTLSAPI_request encodeURIComponent_ref (js "TypeError") None None
              script scripted_oracle scripted_clock (Task.prLink Example.task1)
              (js "ghp_token") _ ∅ Example.world H)
    as (Hrequest & Hcalls & _ & Hproofs & _).
  cbv zeta. split.
  - etransitivity; [exact Hcalls|]. rewrite Hrequest. vm_compute. reflexivity.
  - apply Hproofs. exists Example.payload. repeat split.
Defined.


(** Task 1 in the example world: the run ends in the submission. *)
Lemma processTask_submission_witness :
  (toString 1 ∉ (∅ : gset jsstring)) /\
  let o := run_ref (processTask_ref 1) ∅ Example.world in
  Forall (fun c => is_pickTask c = false) (calls o) /\
  exists pre c, calls o = pre ++ [c] /\ is_submitValidation c = true.
Proof.
  assert (toString 1 ∉ (∅ : gset jsstring)) as H by apply not_elem_of_empty.
  split; [exact H|].
  destruct (processTask_submission JSON_parse_ref encodeURIComponent_ref
              hexlify_toUtf8Bytes_ref (js "TypeError") None None script
              scripted_oracle scripted_clock 1 ∅ Example.world H)
    as (Hpick & _ & Hlast).
  cbv zeta. split; [exact Hpick|]. apply Hlast. vm_compute. reflexivity.
Defined.

(** The example world lists task 1 for this operator, and shows it
    Assigned. *)
Lemma pollAssignedTasks_filter_witness :
  ((forall (w' : script) (taskId : N), w' = Example.world ->
      (scripted_oracle (getTask taskId) w').1 = Val Example.task1 /\
      (scripted_oracle (getTask taskId) w').2 = Example.world) /\
   (scripted_oracle (getOperatorTasks Example.me) Example.world).1 = Val [1] /\
   (scripted_oracle (getOperatorTasks Example.me) Example.world).2 = Example.world) /\
  let o := run_ref (pollAssignedTasks Example.me) ∅ Example.world in
  ended o = Val [1] /\
  calls o = [getOperatorTasks Example.me; getTask 1] /\
  tasks_after o = ∅.
Proof.
  assert (forall (w' : script) (taskId : N), w' = Example.world ->
            (scripted_oracle (getTask taskId) w').1 = Val Example.task1 /\
            (scripted_oracle (getTask taskId) w').2 = Example.world) as H1.
  { intros w' taskId ->. split; reflexivity. }
  assert ((scripted_oracle (getOperatorTasks Example.me) Example.world).1 = Val [1])
    as H2 by reflexivity.
  assert ((scripted_oracle (getOperatorTasks Example.me) Example.world).2
          = Example.world) as H3 by reflexivity.
  split; [split; [exact H1|split; [exact H2|exact H3]]|].
  destruct (pollAssignedTasks_filter Example.me script scripted_oracle scripted_clock
              (fun w => w = Example.world) (fun _ => Example.task1) [1] ∅
              Example.world H1 H2 H3) as (Hended & Hcalls & Hguard).
  cbv zeta. split; [|split; [|exact Hguard]].
  - etransitivity; [exact Hended|]. vm_compute. reflexivity.
  - etransitivity; [exact Hcalls|]. vm_compute. reflexivity.
Defined.


(** The example payload: the two contexts are found where they were
    embedded, and the verdict is that of the contexts themselves. *)
Lemma contexts_recovered_witness :
  let pre := js "{'prProofData':{'claimData':{" in
  let mid := js "}},'userProofData':{'claimData':{" in
  let post := js "}}}" in
  let prInner := js "'extractedParameters':{'merged':'true','login':'bob','id':'42'}" in
  let userInner := js "'extractedParameters':{'login':'bob','id':'42'}" in
  let prContext := js "{" ++ prInner ++ js "}" in
  let userContext := js "{" ++ userInner ++ js "}" in
  (forallb embeddable prInner = true /\ forallb embeddable userInner = true /\
   key_free pre = true /\ key_free mid = true /\
   JSON_stringify (JObj [(js "prProofData", Example.prProofData);
                         (js "userProofData", Example.userProofData)])
     = pre ++ embedded prContext ++ mid ++ embedded userContext ++ post) /\
  _extractAndVerifyProof JSON_parse_ref Example.prProofData Example.userProofData
    = Val (_verifyProofData prContext userContext).
Proof.
  intros pre mid post prInner userInner prContext userContext.
  assert (forallb embeddable prInner = true) as H1 by (vm_compute; reflexivity).
  assert (forallb embeddable userInner = true) as H2 by (vm_compute; reflexivity).
  assert (key_free pre = true) as H3 by (vm_compute; reflexivity).
  assert (key_free mid = true) as H4 by (vm_compute; reflexivity).
  assert (JSON_stringify (JObj [(js "prProofData", Example.prProofData);
                                (js "userProofData", Example.userProofData)])
          = pre ++ embedded prContext ++ mid ++ embedded userContext ++ post) as H5
    by (vm_compute; reflexivity).
  split; [split; [exact H1|split; [exact H2|split; [exact H3|split; [exact H4|exact H5]]]]|].
  destruct (contexts_recovered JSON_parse_ref Example.prProofData Example.userProofData
              pre mid post prInner userInner H1 H2 H3 H4 H5) as (_ & _ & _ & _ & Hsame).
  assert (exists prJson, JSON_parse_ref prContext = Some prJson /\
                         JSON_stringify prJson = prContext)
    as (prJson & Hp1 & Hs1)
    by (eexists; split; [vm_compute; reflexivity|vm_compute; reflexivity]).
  assert (exists userJson, JSON_parse_ref userContext = Some userJson /\
                           JSON_stringify userJson = userContext)
    as (userJson & Hp2 & Hs2)
    by (eexists; split; [vm_compute; reflexivity|vm_compute; reflexivity]).
  exact (Hsame prJson userJson Hp1 Hs1 Hp2 Hs2).
Defined.
